(** * The residual heap visitor of the serializer

    A shallow embedding of [src/serializer/ResidualHeapVisitor.js]: the pass
    that walks every value reachable in the residual heap and fills the
    visitor's tables (visited values, ignored properties, global and
    declarative bindings, function infos and function bindings).

    Values are JavaScript objects compared by identity, so the heap snapshot is
    an arena: a finite map from identities to the data of each value, and
    every reference between values is an identity.  The visitor's methods are
    state transformers over its six tables; an exception (a failed
    [invariant], a [throw]) ends the pass with the tables as they are.  The
    recursion of [visitValue] through the heap is not structural, so every
    nested call of a recursive method goes through a callback that a fuelled
    fixpoint ties. *)

From stdpp Require Import gmap strings list fin_maps.
From Stdlib Require Import ZArith.

Local Open Scope string_scope.
Local Open Scope list_scope.
Local Open Scope nat_scope.

(** ** Identities

    Each kind of object has its own name for its identities; all are natural
    numbers. *)

(** A [Value] instance. *)
Abbreviation vid := nat (only parsing).
(** A [DeclarativeEnvironmentRecord] instance. *)
Abbreviation envid := nat (only parsing).
(** A [LexicalEnvironment] instance ([val.$Environment]). *)
Abbreviation lexid := nat (only parsing).
(** A [BabelNodeBlockStatement] instance ([val.$ECMAScriptCode]). *)
Abbreviation codeid := nat (only parsing).
(** A [VisitedBinding] object allocated by the visitor. *)
Abbreviation bref := nat (only parsing).

(** ** The heap snapshot *)

Module Descriptor.
Record t := mk {
  value : option vid;
  get : option vid;
  set : option vid;
  writable : bool;
  enumerable : bool;
  configurable : bool }.
End Descriptor.

Module PropertyBinding.
(** [descriptor] is [None] for a deleted property. *)
Record t := mk { descriptor : option Descriptor.t }.
End PropertyBinding.

Module MapEntry.
Record t := mk { Key : option vid; Value : option vid }.
End MapEntry.

Inductive FunctionClass :=
| ECMAScriptFunction (FormalParameters : option (list string))
    (ECMAScriptCode : option codeid) (Environment : lexid) (isResidual : bool)
| BoundFunction (BoundTargetFunction BoundThis : vid) (BoundArguments : list vid)
| NativeFunction.

Module FunctionValue.
Record t := mk {
  Strict : bool;
  FunctionKind : string;
  hasDefaultLength : bool;
  cls : FunctionClass }.
End FunctionValue.

Inductive ObjectClass :=
| OrdinaryObject
| ProxyObject (ProxyTarget ProxyHandler : vid)
| FunctionObject (f : FunctionValue.t).

Module ObjectValue.
(** [properties] is a JavaScript [Map]: an association list in insertion
    order.  [symbols] is only asked for its size.  [kind] is what
    [getKind()] answers. *)
Record t := mk {
  properties : list (string * PropertyBinding.t);
  symbols_size : nat;
  unknownProperty : option PropertyBinding.t;
  Prototype : vid;
  getExtensible : bool;
  getKind : string;
  originalConstructor : option vid;
  DateValue : option vid;
  ViewedArrayBuffer : option vid;
  MapData : option (list MapEntry.t);
  WeakMapData : option (list MapEntry.t);
  SetData : option (list (option vid));
  WeakSetData : option (list (option vid));
  ParameterMap : option vid;
  cls : ObjectClass }.
End ObjectValue.

Module AbstractValue.
Record t := mk {
  kind : string;
  args : list vid;
  hasIdentifier : bool }.
End AbstractValue.

(** The classes of [../values/index.js] that the visitor tells apart.  A
    number's payload is only ever compared with [0]; it is kept as an
    integer. *)
Inductive ValueClass :=
| VAbstract (a : AbstractValue.t)
| VEmpty
| VUndefined
| VNull
| VBoolean (b : bool)
| VNumber (value : Z)
| VString (s : string)
| VSymbol
| VObject (o : ObjectValue.t).

Module Value.
(** [isIntrinsic()] holds when [intrinsicName] is set. *)
Record t := mk { intrinsicName : option string; cls : ValueClass }.
End Value.

Module Binding.
(** A binding of a declarative environment record ([r.bindings[n]]). *)
Record t := mk { deletable : bool; initialized : bool; value : option vid }.
End Binding.

Inductive ReferenceBase :=
| BaseUndefined
| BaseGlobalEnvironmentRecord
| BaseDeclarativeEnvironmentRecord (r : envid)
| BaseOther.

Inductive ReferencedName :=
| NameString (s : string)
| NameSymbol (v : vid).

Module Reference.
Record t := mk { base : ReferenceBase; referencedName : ReferencedName }.
End Reference.

Module FunctionInfo.
(** [names] lists the keys of the [names] object in insertion order, the
    order of [for (... in functionInfo.names)]. *)
Record t := mk {
  names : list string;
  modified : gset string;
  usesArguments : bool;
  usesThis : bool }.
End FunctionInfo.

(** The immutable surroundings of one pass: the heap, the realm, the modules,
    and the functions the visitor imports from files outside this one
    ([IsArray], [Get], [ResolveBinding] under [logger.tryQuery],
    [IsUnresolvableReference], the [ClosureRefVisitor] traversal,
    [describeLocation], [Generator.visit]), each taken as it is. *)
Record Realm := mkRealm {
  heap : gmap vid Value.t;
  useAbstractInterpretation : bool;
  intrinsics : gmap string vid;
  intrinsics_undefined : vid;
  getGlobalLetBinding : string → option vid;
  bindings : gmap envid (gmap string Binding.t);
  IsArray : vid → bool;
  Get : vid → string → vid;
  (** [logger.tryQuery(() => ResolveBinding(realm, name, true, env), undefined, true)]:
      [None] is the default [undefined] that a failed query answers. *)
  tryResolveBinding : string → lexid → option Reference.t;
  IsUnresolvableReference : Reference.t → bool;
  (** The names, modified names and flags that the [traverse] of a function's
      parameters and body with [ClosureRefVisitor] leaves in its info. *)
  ClosureRefVisitor : vid → FunctionInfo.t;
  describeLocation : vid → option string;
  (** [realm.generator], as the values its [visit] hands to the callback, in
      order. *)
  generator : option (list vid);
  (** [modules.initializedModules], in insertion order. *)
  initializedModules : list (string * vid) }.

(** ** The visitor's state *)

Module VisitedBinding.
Record t := mk {
  global : bool;
  value : option vid;
  modified : bool;
  declarativeEnvironmentRecord : option envid }.
End VisitedBinding.

(** The six tables of the constructor, the [VisitedBinding] objects they share
    by reference ([store], indexed by allocation order), and the errors handed
    to [logger.logError].  [values] is a JavaScript [Set]: its elements in
    insertion order. *)
Record State := mkState {
  declarativeEnvironmentRecordsBindings : gmap envid (gmap string bref);
  globalBindings : gmap string bref;
  functionInfos : gmap codeid FunctionInfo.t;
  functionBindings : gmap vid (gmap string bref);
  values : list vid;
  ignoredProperties : gmap vid (gset string);
  store : list VisitedBinding.t;
  logged : list (vid * string) }.

Definition emptyState : State :=
  mkState ∅ ∅ ∅ ∅ [] ∅ [] [].

(** [new ResidualHeapVisitor(realm, ...)]: the constructor's invariant. *)
Definition newVisitor (realm : Realm) : option State :=
  if useAbstractInterpretation realm then Some emptyState else None.

(** ** Outcomes *)

Inductive Fatal :=
| InvariantViolation
| TypeError
| Error (message : string).

(** A method returns ([Done]), throws ([Throw], with the tables as they were
    at the throw), or the recursion budget of the model ran out. *)
Inductive Outcome (A : Type) :=
| Done (a : A) (st : State)
| Throw (e : Fatal) (st : State)
| OutOfFuel.
Arguments Done {A} a st.
Arguments Throw {A} e st.
Arguments OutOfFuel {A}.

Definition M (A : Type) : Type := State → Outcome A.

Definition ret {A} (a : A) : M A := λ st, Done a st.

Definition bind {A B} (m : M A) (k : A → M B) : M B :=
  λ st, match m st with
        | Done a st' => k a st'
        | Throw e st' => Throw e st'
        | OutOfFuel => OutOfFuel
        end.

Declare Scope visitor_scope.
Delimit Scope visitor_scope with visitor.
Notation "'do' x <- m ; k" := (bind m (λ x, k))
  (at level 10, x name, m at level 100, k at level 200) : visitor_scope.
Notation "m >> k" := (bind m (λ _, k))
  (at level 100, k at level 200, right associativity) : visitor_scope.
Local Open Scope visitor_scope.

Definition throw {A} (e : Fatal) : M A := λ st, Throw e st.
Definition gets {A} (f : State → A) : M A := λ st, Done (f st) st.
Definition modify (f : State → State) : M unit := λ st, Done tt (f st).

Definition invariant (condition : bool) : M unit :=
  if condition then ret tt else throw InvariantViolation.

Definition when (condition : bool) (m : M unit) : M unit :=
  if condition then m else ret tt.

(** [for (let x of l) body(x)] *)
Fixpoint forEach {A} (l : list A) (body : A → M unit) : M unit :=
  match l with
  | [] => ret tt
  | x :: rest => body x >> forEach rest body
  end.

(** A loop that carries a local variable. *)
Fixpoint foldEach {A B} (l : list A) (body : B → A → M B) (acc : B) : M B :=
  match l with
  | [] => ret acc
  | x :: rest => do acc' <- body acc x; foldEach rest body acc'
  end.

(** ** Reading the heap *)

Section Heap.
Context (realm : Realm).

Definition classOf (val : vid) : option ValueClass :=
  Value.cls <$> heap realm !! val.

Definition isIntrinsic (val : vid) : bool :=
  match heap realm !! val with
  | Some v => bool_decide (is_Some (Value.intrinsicName v))
  | None => false
  end.

Definition abstractOf (val : vid) : option AbstractValue.t :=
  match classOf val with Some (VAbstract a) => Some a | _ => None end.

Definition objectOf (val : vid) : option ObjectValue.t :=
  match classOf val with Some (VObject o) => Some o | _ => None end.

Definition functionOf (val : vid) : option FunctionValue.t :=
  match objectOf val with
  | Some o => match ObjectValue.cls o with FunctionObject f => Some f | _ => None end
  | None => None
  end.

Definition instanceof_AbstractValue (val : vid) : bool :=
  bool_decide (is_Some (abstractOf val)).

Definition instanceof_ObjectValue (val : vid) : bool :=
  bool_decide (is_Some (objectOf val)).

Definition instanceof_FunctionValue (val : vid) : bool :=
  bool_decide (is_Some (functionOf val)).

Definition instanceof_ProxyValue (val : vid) : bool :=
  match objectOf val with
  | Some o => match ObjectValue.cls o with ProxyObject _ _ => true | _ => false end
  | None => false
  end.

Definition instanceof_SymbolValue (val : vid) : bool :=
  match classOf val with Some VSymbol => true | _ => false end.

Definition instanceof_EmptyValue (val : vid) : bool :=
  match classOf val with Some VEmpty => true | _ => false end.

(** [EmptyValue] is a subclass of [UndefinedValue]. *)
Definition instanceof_UndefinedValue (val : vid) : bool :=
  match classOf val with Some (VUndefined | VEmpty) => true | _ => false end.

Definition instanceof_PrimitiveValue (val : vid) : bool :=
  match classOf val with
  | Some (VEmpty | VUndefined | VNull | VBoolean _ | VNumber _ | VString _ | VSymbol) => true
  | _ => false
  end.

(** [static isLeaf(val)] *)
Definition isLeaf (val : vid) : bool :=
  if instanceof_SymbolValue val then false
  else if match abstractOf val with
          | Some a => AbstractValue.hasIdentifier a
          | None => false
          end then true
  else if isIntrinsic val then false
  else instanceof_PrimitiveValue val.

(** [properties.get(name)] on the property map. *)
Fixpoint properties_get (properties : list (string * PropertyBinding.t)) (name : string)
  : option PropertyBinding.t :=
  match properties with
  | [] => None
  | (key, propertyBinding) :: rest =>
      if bool_decide (key = name) then Some propertyBinding else properties_get rest name
  end.

(** [static getPropertyValue(val, name)] *)
Definition getPropertyValue (val : ObjectValue.t) (name : string) : option vid :=
  match properties_get (ObjectValue.properties val) name with
  | None => None
  | Some prototypeBinding =>
      match PropertyBinding.descriptor prototypeBinding with
      | None => None
      | Some prototypeDesc => Descriptor.value prototypeDesc
      end
  end.

(** The loop of [isDefaultPrototype] over [prototype.properties.keys()]. *)
Fixpoint isDefaultPrototype_keys (prototype : ObjectValue.t) (names : list string)
    (foundConstructor : bool) : bool :=
  match names with
  | [] => foundConstructor
  | name :: rest =>
      if bool_decide (name = "constructor")
         && bool_decide (getPropertyValue prototype name
                         = ObjectValue.originalConstructor prototype)
      then isDefaultPrototype_keys prototype rest true
      else false
  end.

(** [isDefaultPrototype(prototype)] *)
Definition isDefaultPrototype (prototype : ObjectValue.t) : bool :=
  if negb (bool_decide (ObjectValue.symbols_size prototype = 0))
     || negb (bool_decide (intrinsics realm !! "ObjectPrototype"
                           = Some (ObjectValue.Prototype prototype)))
     || negb (ObjectValue.getExtensible prototype)
  then false
  else isDefaultPrototype_keys prototype (ObjectValue.properties prototype).*1 false.
End Heap.

(** ** Writing the tables *)

Definition set_values (f : list vid → list vid) (st : State) : State :=
  mkState (declarativeEnvironmentRecordsBindings st) (globalBindings st) (functionInfos st)
    (functionBindings st) (f (values st)) (ignoredProperties st) (store st) (logged st).

Definition set_ignoredProperties (f : gmap vid (gset string) → gmap vid (gset string))
    (st : State) : State :=
  mkState (declarativeEnvironmentRecordsBindings st) (globalBindings st) (functionInfos st)
    (functionBindings st) (values st) (f (ignoredProperties st)) (store st) (logged st).

Definition set_declarativeEnvironmentRecordsBindings
    (f : gmap envid (gmap string bref) → gmap envid (gmap string bref)) (st : State) : State :=
  mkState (f (declarativeEnvironmentRecordsBindings st)) (globalBindings st) (functionInfos st)
    (functionBindings st) (values st) (ignoredProperties st) (store st) (logged st).

Definition set_globalBindings (f : gmap string bref → gmap string bref) (st : State) : State :=
  mkState (declarativeEnvironmentRecordsBindings st) (f (globalBindings st)) (functionInfos st)
    (functionBindings st) (values st) (ignoredProperties st) (store st) (logged st).

Definition set_functionInfos (f : gmap codeid FunctionInfo.t → gmap codeid FunctionInfo.t)
    (st : State) : State :=
  mkState (declarativeEnvironmentRecordsBindings st) (globalBindings st) (f (functionInfos st))
    (functionBindings st) (values st) (ignoredProperties st) (store st) (logged st).

Definition set_functionBindings
    (f : gmap vid (gmap string bref) → gmap vid (gmap string bref)) (st : State) : State :=
  mkState (declarativeEnvironmentRecordsBindings st) (globalBindings st) (functionInfos st)
    (f (functionBindings st)) (values st) (ignoredProperties st) (store st) (logged st).

Definition set_store (f : list VisitedBinding.t → list VisitedBinding.t) (st : State) : State :=
  mkState (declarativeEnvironmentRecordsBindings st) (globalBindings st) (functionInfos st)
    (functionBindings st) (values st) (ignoredProperties st) (f (store st)) (logged st).

Definition set_logged (f : list (vid * string) → list (vid * string)) (st : State) : State :=
  mkState (declarativeEnvironmentRecordsBindings st) (globalBindings st) (functionInfos st)
    (functionBindings st) (values st) (ignoredProperties st) (store st) (f (logged st)).

(** [values.has(val)] and [values.add(val)] of a JavaScript [Set]. *)
Definition Set_has (val : vid) (s : list vid) : bool := bool_decide (val ∈ s).
Definition Set_add (val : vid) (s : list vid) : list vid :=
  if Set_has val s then s else s ++ [val].

(** [logger.logError(val, message)] *)
Definition logError (val : vid) (message : string) : M unit :=
  modify (set_logged (λ l, l ++ [(val, message)])).

(** A fresh [VisitedBinding] object literal. *)
Definition newVisitedBinding (binding : VisitedBinding.t) : M bref :=
  λ st, Done (length (store st)) (set_store (λ s, s ++ [binding]) st).

(** [visitedBinding.modified = true] *)
Definition setModified (visitedBinding : bref) : M unit :=
  modify (set_store (λ s,
    match s !! visitedBinding with
    | Some b => <[visitedBinding :=
                   VisitedBinding.mk (VisitedBinding.global b) (VisitedBinding.value b) true
                     (VisitedBinding.declarativeEnvironmentRecord b)]> s
    | None => s
    end)).

(** ** The methods of [ResidualHeapVisitor] *)

(** The two methods whose recursion follows the heap.  A nested call
    [this.visitValue(v)] is written [call (VisitValue v)]. *)
Inductive Call :=
| VisitValue (val : vid)
| VisitObjectPropertiesWithComputedNames (absVal : vid).

Definition kind_is (kind : string) (kinds : list string) : bool :=
  bool_decide (kind ∈ kinds).

Section Methods.
Context (realm : Realm).
Variable call : Call → M unit.

(** A parameter typed [ObjectValue]: reading a field of anything else
    throws. *)
Definition asObject (val : vid) : M ObjectValue.t :=
  match objectOf realm val with
  | Some o => ret o
  | None => throw TypeError
  end.

(** [_canIgnoreProperty(val, key, desc)] *)
Definition _canIgnoreProperty (val : vid) (key : string) (desc : Descriptor.t) : M bool :=
  let writable := Descriptor.writable desc in
  let enumerable := Descriptor.enumerable desc in
  let configurable := Descriptor.configurable desc in
  let originalConstructor :=
    match objectOf realm val with
    | Some o => ObjectValue.originalConstructor o
    | None => None
    end in
  let constructorCheck : M bool :=
    if bool_decide (key = "constructor")
       && (configurable && negb enumerable && writable
           && bool_decide (Descriptor.value desc = originalConstructor))
    then ret true
    else ret false in
  if IsArray realm val then
    if bool_decide (key = "length") && writable && negb enumerable && negb configurable
    then ret true
    else constructorCheck
  else
    match functionOf realm val with
    | Some f =>
        if bool_decide (key = "length") then
          when (bool_decide (Descriptor.value desc = None))
            (logError val
               "Functions with length accessor properties are not supported in residual heap.") >>
          ret (negb writable && negb enumerable && configurable
               && FunctionValue.hasDefaultLength f)
        else if bool_decide (key = "name") then ret true
        else if (bool_decide (key = "arguments") || bool_decide (key = "caller"))
                && (negb (FunctionValue.Strict f) && writable && negb enumerable
                    && configurable
                    && match Descriptor.value desc with
                       | Some v => instanceof_UndefinedValue realm v
                       | None => false
                       end
                    && bool_decide (FunctionValue.FunctionKind f = "normal"))
        then ret true
        else if bool_decide (key = "prototype")
                && (negb configurable && negb enumerable && writable
                    && match Descriptor.value desc with
                       | Some v =>
                           match objectOf realm v with
                           | Some o =>
                               bool_decide (ObjectValue.originalConstructor o = Some val)
                           | None => false
                           end
                       | None => false
                       end)
        then ret true
        else constructorCheck
    | None =>
        do o <- asObject val;
        let kind := ObjectValue.getKind o in
        if bool_decide (kind = "RegExp") then
          if bool_decide (key = "lastIndex") && writable && negb enumerable
             && negb configurable
          then
            ret match Descriptor.value desc with
                | Some v =>
                    match classOf realm v with
                    | Some (VNumber value) => bool_decide (value = 0%Z)
                    | _ => false
                    end
                | None => false
                end
          else constructorCheck
        else constructorCheck
    end.

(** [visitDescriptor(desc)] *)
Definition visitDescriptor (desc : Descriptor.t) : M unit :=
  match Descriptor.value desc with Some v => call (VisitValue v) | None => ret tt end >>
  match Descriptor.get desc with Some v => call (VisitValue v) | None => ret tt end >>
  match Descriptor.set desc with Some v => call (VisitValue v) | None => ret tt end.

(** [visitObjectPrototype(obj)] *)
Definition visitObjectPrototype (obj : vid) : M unit :=
  do o <- asObject obj;
  let proto := ObjectValue.Prototype o in
  let kind := ObjectValue.getKind o in
  if bool_decide (intrinsics realm !! String.append kind "Prototype" = Some proto)
  then ret tt
  else call (VisitValue proto).

(** [visitConstructorPrototype(func)] *)
Definition visitConstructorPrototype (func : vid) : M unit :=
  do f <- asObject func;
  match getPropertyValue f "prototype" with
  | Some prototype =>
      match objectOf realm prototype with
      | Some p =>
          if bool_decide (ObjectValue.originalConstructor p = Some func)
             && negb (isDefaultPrototype realm p)
          then call (VisitValue prototype)
          else ret tt
      | None => ret tt
      end
  | None => ret tt
  end.

(** The body of the loop of [visitObjectProperties] over [obj.properties]. *)
Definition visitObjectProperty (obj : vid) (entry : string * PropertyBinding.t) : M unit :=
  let '(key, propertyBinding) := entry in
  match PropertyBinding.descriptor propertyBinding with
  | None => ret tt
  | Some desc =>
      do ignore <- _canIgnoreProperty obj key desc;
      if ignore then
        modify (set_ignoredProperties (λ ignoredProperties,
          <[obj := {[key]} ∪ default ∅ (ignoredProperties !! obj)]> ignoredProperties))
      else visitDescriptor desc
  end.

(** [visitObjectProperties(obj)] *)
Definition visitObjectProperties (obj : vid) : M unit :=
  do o <- asObject obj;
  forEach (ObjectValue.properties o) (visitObjectProperty obj) >>
  match ObjectValue.unknownProperty o with
  | Some unknownProperty =>
      match PropertyBinding.descriptor unknownProperty with
      | Some desc =>
          match Descriptor.value desc with
          | Some val =>
              invariant (instanceof_AbstractValue realm val) >>
              call (VisitObjectPropertiesWithComputedNames val)
          | None => throw InvariantViolation
          end
      | None => ret tt
      end
  | None => ret tt
  end >>
  visitObjectPrototype obj >>
  when (instanceof_FunctionValue realm obj) (visitConstructorPrototype obj).

(** [visitObjectPropertiesWithComputedNames(absVal)] *)
Definition visitObjectPropertiesWithComputedNames (absVal : vid) : M unit :=
  match abstractOf realm absVal with
  | None => throw TypeError
  | Some a =>
      let args := AbstractValue.args a in
      invariant (bool_decide (length args = 3)) >>
      match args !! 0 with
      | None => throw InvariantViolation
      | Some cond =>
          match abstractOf realm cond with
          | None => throw InvariantViolation
          | Some c =>
              if bool_decide (AbstractValue.kind c = "template for property name condition")
              then
                match AbstractValue.args c !! 0, args !! 1, args !! 2 with
                | Some P, Some V, Some earlier_props =>
                    invariant (instanceof_AbstractValue realm P) >>
                    when (instanceof_AbstractValue realm earlier_props)
                      (call (VisitObjectPropertiesWithComputedNames earlier_props)) >>
                    call (VisitValue P) >>
                    call (VisitValue V)
                | _, _, _ => throw InvariantViolation
                end
              else
                call (VisitValue cond) >>
                match args !! 1, args !! 2 with
                | Some consequent, Some alternate =>
                    invariant (instanceof_AbstractValue realm consequent) >>
                    invariant (instanceof_AbstractValue realm alternate) >>
                    call (VisitObjectPropertiesWithComputedNames consequent) >>
                    call (VisitObjectPropertiesWithComputedNames alternate)
                | _, _ => throw InvariantViolation
                end
          end
      end
  end.

(** [visitDeclarativeEnvironmentRecordBinding(r, n)] *)
Definition visitDeclarativeEnvironmentRecordBinding (r : envid) (n : string) : M bref :=
  modify (set_declarativeEnvironmentRecordsBindings (λ table,
    match table !! r with Some _ => table | None => <[r := ∅]> table end)) >>
  do visitedBinding <-
    gets (λ st, default ∅ (declarativeEnvironmentRecordsBindings st !! r) !! n);
  match visitedBinding with
  | Some visitedBinding => ret visitedBinding
  | None =>
      match default ∅ (bindings realm !! r) !! n with
      | None => throw TypeError
      | Some binding =>
          invariant (negb (Binding.deletable binding)) >>
          let value :=
            if Binding.initialized binding
            then default (intrinsics_undefined realm) (Binding.value binding)
            else intrinsics_undefined realm in
          do visitedBinding <-
            newVisitedBinding (VisitedBinding.mk false (Some value) false (Some r));
          modify (set_declarativeEnvironmentRecordsBindings (λ table,
            <[r := <[n := visitedBinding]> (default ∅ (table !! r))]> table)) >>
          call (VisitValue value) >>
          ret visitedBinding
      end
  end.

(** [visitValueIntrinsic(val)] *)
Definition visitValueIntrinsic (val : vid) : M unit := ret tt.

(** [visitValueArray(val)] *)
Definition visitValueArray (val : vid) : M unit :=
  visitObjectProperties val >>
  let lenProperty := Get realm val "length" in
  when (instanceof_AbstractValue realm lenProperty) (call (VisitValue lenProperty)).

(** [visitValueMap(val)] *)
Definition visitValueMap (val : vid) : M unit :=
  do o <- asObject val;
  let kind := ObjectValue.getKind o in
  do entries <-
    (if bool_decide (kind = "Map") then ret (ObjectValue.MapData o)
     else invariant (bool_decide (kind = "WeakMap")) >> ret (ObjectValue.WeakMapData o));
  match entries with
  | None => throw InvariantViolation
  | Some entries =>
      forEach entries (λ entry,
        match MapEntry.Key entry, MapEntry.Value entry with
        | Some key, Some value => call (VisitValue key) >> call (VisitValue value)
        | _, _ => ret tt
        end)
  end.

(** [visitValueSet(val)] *)
Definition visitValueSet (val : vid) : M unit :=
  do o <- asObject val;
  let kind := ObjectValue.getKind o in
  do entries <-
    (if bool_decide (kind = "Set") then ret (ObjectValue.SetData o)
     else invariant (bool_decide (kind = "WeakSet")) >> ret (ObjectValue.WeakSetData o));
  match entries with
  | None => throw InvariantViolation
  | Some entries =>
      forEach entries (λ entry,
        match entry with
        | Some entry => call (VisitValue entry)
        | None => ret tt
        end)
  end.

(** [visitGlobalBinding(key)] *)
Definition visitGlobalBinding (key : string) : M bref :=
  do binding <- gets (λ st, globalBindings st !! key);
  match binding with
  | Some binding => ret binding
  | None =>
      let value := getGlobalLetBinding realm key in
      do binding <- newVisitedBinding (VisitedBinding.mk true value true None);
      modify (set_globalBindings <[key := binding]>) >>
      match value with Some value => call (VisitValue value) | None => ret tt end >>
      ret binding
  end.

(** The body of the loop of [visitValueFunction] over [functionInfo.names]. *)
Definition visitFunctionBinding (Environment : lexid) (functionInfo : FunctionInfo.t)
    (visitedBindings : gmap string bref) (innerName : string) : M (gmap string bref) :=
  do visitedBinding <-
    match tryResolveBinding realm innerName Environment with
    | None => visitGlobalBinding innerName
    | Some reference =>
        invariant (negb (IsUnresolvableReference realm reference)) >>
        let referencedBase := Reference.base reference in
        match Reference.referencedName reference with
        | NameSymbol _ => throw (Error "TODO: do not know how to visit reference with symbol")
        | NameString referencedName =>
            match referencedBase with
            | BaseGlobalEnvironmentRecord => visitGlobalBinding referencedName
            | BaseDeclarativeEnvironmentRecord referencedBase =>
                visitDeclarativeEnvironmentRecordBinding referencedBase referencedName
            | _ => throw InvariantViolation
            end
        end
    end;
  when (bool_decide (innerName ∈ FunctionInfo.modified functionInfo))
    (setModified visitedBinding) >>
  ret (<[innerName := visitedBinding]> visitedBindings).

(** The [if (!functionInfo) { ... }] block of [visitValueFunction]: the
    function info of the body [code], computed on its first use. *)
Definition getFunctionInfo (val : vid) (code : codeid) (isResidual : bool)
  : M FunctionInfo.t :=
  do memo <- gets (λ st, functionInfos st !! code);
  match memo with
  | Some functionInfo => ret functionInfo
  | None =>
      let functionInfo := ClosureRefVisitor realm val in
      modify (set_functionInfos <[code := functionInfo]>) >>
      when (isResidual
            && negb (bool_decide (length (FunctionInfo.names functionInfo) = 0)))
        (logError val
           (String.append "residual function "
           (String.append (default "(unknown)" (describeLocation realm val))
           (String.append
              " refers to the following identifiers defined outside of the local scope: "
              (String.concat ", " (FunctionInfo.names functionInfo)))))) >>
      ret functionInfo
  end.

(** [visitValueFunction(val)] *)
Definition visitValueFunction (val : vid) : M unit :=
  visitObjectProperties val >>
  match FunctionValue.cls <$> functionOf realm val with
  | Some (BoundFunction BoundTargetFunction BoundThis BoundArguments) =>
      call (VisitValue BoundTargetFunction) >>
      call (VisitValue BoundThis) >>
      forEach BoundArguments (λ boundArg, call (VisitValue boundArg))
  | Some NativeFunction => ret tt
  | Some (ECMAScriptFunction formalParameters code Environment isResidual) =>
      invariant (bool_decide (is_Some formalParameters)) >>
      match code with
      | None => throw InvariantViolation
      | Some code =>
          do functionInfo <- getFunctionInfo val code isResidual;
          do visitedBindings <-
            foldEach (FunctionInfo.names functionInfo)
              (visitFunctionBinding Environment functionInfo) ∅;
          modify (set_functionBindings <[val := visitedBindings]>)
      end
  | None => throw InvariantViolation
  end.

(** [this.$ParameterMap] in [visitValueObject]: the receiver is the visitor,
    whose properties are the ten that its constructor sets; reading any
    other yields [undefined]. *)
Definition this_ParameterMap : option vid := None.

(** [visitValueObject(val)] *)
Definition visitValueObject (val : vid) : M unit :=
  visitObjectProperties val >>
  do o <- asObject val;
  match ObjectValue.originalConstructor o with
  | Some constructor => call (VisitValue constructor)
  | None =>
      let kind := ObjectValue.getKind o in
      if kind_is kind ["RegExp"; "Number"; "String"; "Boolean"; "ArrayBuffer"] then ret tt
      else if kind_is kind ["Date"] then
        match ObjectValue.DateValue o with
        | Some dateValue => call (VisitValue dateValue)
        | None => throw InvariantViolation
        end
      else if kind_is kind ["Float32Array"; "Float64Array"; "Int8Array"; "Int16Array";
                            "Int32Array"; "Uint8Array"; "Uint16Array"; "Uint32Array";
                            "Uint8ClampedArray"; "DataView"] then
        match ObjectValue.ViewedArrayBuffer o with
        | Some buf => call (VisitValue buf)
        | None => throw InvariantViolation
        end
      else if kind_is kind ["Map"; "WeakMap"] then visitValueMap val
      else if kind_is kind ["Set"; "WeakSet"] then visitValueSet val
      else
        when (negb (bool_decide (kind = "Object")))
          (logError val
             (String.append "Object of kind "
                (String.append kind " is not supported in residual heap."))) >>
        when (bool_decide (this_ParameterMap ≠ None))
          (logError val "Arguments object is not supported in residual heap.")
  end.

(** [visitValueSymbol(val)] *)
Definition visitValueSymbol (val : vid) : M unit := ret tt.

(** [visitValueProxy(val)] *)
Definition visitValueProxy (val : vid) : M unit :=
  match ObjectValue.cls <$> objectOf realm val with
  | Some (ProxyObject ProxyTarget ProxyHandler) =>
      call (VisitValue ProxyTarget) >> call (VisitValue ProxyHandler)
  | _ => throw TypeError
  end.

(** [visitAbstractValue(val)] *)
Definition visitAbstractValue (val : vid) : M unit :=
  match abstractOf realm val with
  | None => throw TypeError
  | Some a =>
      when (bool_decide (AbstractValue.kind a = "sentinel member expression"))
        (logError val
           "expressions of type o[p] are not yet supported for partially known o and unknown p") >>
      forEach (AbstractValue.args a) (λ abstractArg, call (VisitValue abstractArg))
  end.

(** The else-if chain of [visitValue], entered once [val] is in the
    visited set. *)
Definition visitValueOfKind (val : vid) : M unit :=
  if instanceof_AbstractValue realm val then visitAbstractValue val
  else if isIntrinsic realm val then visitValueIntrinsic val
  else if instanceof_EmptyValue realm val then ret tt
  else if isLeaf realm val then ret tt
  else if IsArray realm val then
    invariant (instanceof_ObjectValue realm val) >>
    visitValueArray val
  else if instanceof_ProxyValue realm val then visitValueProxy val
  else if instanceof_FunctionValue realm val then visitValueFunction val
  else if instanceof_SymbolValue realm val then visitValueSymbol val
  else if instanceof_ObjectValue realm val then visitValueObject val
  else throw InvariantViolation.

(** [visitValue(val)] *)
Definition visitValue (val : vid) : M unit :=
  do visited <- gets (λ st, Set_has val (values st));
  if visited then ret tt
  else
    modify (set_values (Set_add val)) >>
    visitValueOfKind val.

(** [visitGenerator(generator)] *)
Definition visitGenerator (generator : list vid) : M unit :=
  forEach generator (λ val, call (VisitValue val)).

(** [visitRoots()] *)
Definition visitRoots : M unit :=
  match generator realm with
  | Some generator => visitGenerator generator
  | None => ret tt
  end >>
  forEach (initializedModules realm) (λ '(_, moduleValue), call (VisitValue moduleValue)).
End Methods.

(** ** Tying the recursion *)

(** Every nested call of [visitValue] or
    [visitObjectPropertiesWithComputedNames] spends one unit of [fuel]. *)
Fixpoint call (realm : Realm) (fuel : nat) (c : Call) : M unit :=
  match fuel with
  | 0 => λ _, OutOfFuel
  | S fuel =>
      match c with
      | VisitValue val => visitValue realm (call realm fuel) val
      | VisitObjectPropertiesWithComputedNames absVal =>
          visitObjectPropertiesWithComputedNames realm (call realm fuel) absVal
      end
  end.

(** One pass: a fresh visitor, then [visitRoots()]. *)
Definition pass (realm : Realm) (fuel : nat) : Outcome unit :=
  match newVisitor realm with
  | Some st => visitRoots realm (call realm fuel) st
  | None => Throw InvariantViolation emptyState
  end.

(** ** What the visitor follows: the edges of the residual heap *)

Section Edges.
Context (realm : Realm).

(** The answer of [_canIgnoreProperty]; it does not depend on the tables. *)
Definition canIgnoreProperty (val : vid) (key : string) (desc : Descriptor.t) : bool :=
  match _canIgnoreProperty realm val key desc emptyState with
  | Done ignore _ => ignore
  | _ => false
  end.

(** The values [visitDescriptor] hands to [visitValue]. *)
Definition descriptorValues (desc : Descriptor.t) : list vid :=
  option_list (Descriptor.value desc) ++ option_list (Descriptor.get desc)
    ++ option_list (Descriptor.set desc).

Definition template : string := "template for property name condition".

(** The values that [visitObjectPropertiesWithComputedNames absVal] hands to
    [visitValue], through all the links of the chain. *)
Inductive chainValue : vid → vid → Prop :=
| chain_P absVal a cond V earlier_props c P :
    abstractOf realm absVal = Some a → AbstractValue.args a = [cond; V; earlier_props] →
    abstractOf realm cond = Some c → AbstractValue.kind c = template →
    AbstractValue.args c !! 0 = Some P →
    chainValue absVal P
| chain_V absVal a cond V earlier_props c :
    abstractOf realm absVal = Some a → AbstractValue.args a = [cond; V; earlier_props] →
    abstractOf realm cond = Some c → AbstractValue.kind c = template →
    chainValue absVal V
| chain_earlier absVal a cond V earlier_props c w :
    abstractOf realm absVal = Some a → AbstractValue.args a = [cond; V; earlier_props] →
    abstractOf realm cond = Some c → AbstractValue.kind c = template →
    instanceof_AbstractValue realm earlier_props = true →
    chainValue earlier_props w →
    chainValue absVal w
| chain_cond absVal a cond consequent alternate c :
    abstractOf realm absVal = Some a →
    AbstractValue.args a = [cond; consequent; alternate] →
    abstractOf realm cond = Some c → AbstractValue.kind c ≠ template →
    chainValue absVal cond
| chain_branch absVal a cond consequent alternate c branch w :
    abstractOf realm absVal = Some a →
    AbstractValue.args a = [cond; consequent; alternate] →
    abstractOf realm cond = Some c → AbstractValue.kind c ≠ template →
    branch ∈ [consequent; alternate] →
    chainValue branch w →
    chainValue absVal w.

(** The abstract operands that the chain walker calls itself on. *)
Definition chainOperand (absVal operand : vid) : Prop :=
  ∃ a, abstractOf realm absVal = Some a ∧ operand ∈ AbstractValue.args a
       ∧ instanceof_AbstractValue realm operand = true.

(** The values that [visitObjectProperties obj] hands to [visitValue]. *)
Inductive propertyTarget (obj : vid) (w : vid) : Prop :=
| target_descriptor o key propertyBinding desc :
    objectOf realm obj = Some o →
    (key, propertyBinding) ∈ ObjectValue.properties o →
    PropertyBinding.descriptor propertyBinding = Some desc →
    canIgnoreProperty obj key desc = false →
    w ∈ descriptorValues desc →
    propertyTarget obj w
| target_computed o unknownProperty desc val :
    objectOf realm obj = Some o →
    ObjectValue.unknownProperty o = Some unknownProperty →
    PropertyBinding.descriptor unknownProperty = Some desc →
    Descriptor.value desc = Some val →
    chainValue val w →
    propertyTarget obj w
| target_prototype o :
    objectOf realm obj = Some o →
    intrinsics realm !! String.append (ObjectValue.getKind o) "Prototype" ≠ Some w →
    w = ObjectValue.Prototype o →
    propertyTarget obj w
| target_constructor_prototype o p :
    objectOf realm obj = Some o →
    instanceof_FunctionValue realm obj = true →
    getPropertyValue o "prototype" = Some w →
    objectOf realm w = Some p →
    ObjectValue.originalConstructor p = Some obj →
    isDefaultPrototype realm p = false →
    propertyTarget obj w.

(** The current value of the binding [n] of the declarative record [r]. *)
Definition declarativeValue (r : envid) (n : string) : option vid :=
  match default ∅ (bindings realm !! r) !! n with
  | Some binding =>
      Some (if Binding.initialized binding
            then default (intrinsics_undefined realm) (Binding.value binding)
            else intrinsics_undefined realm)
  | None => None
  end.

(** The value of the binding that a free name of a function resolves to. *)
Definition capturedValue (Environment : lexid) (innerName : string) : option vid :=
  match tryResolveBinding realm innerName Environment with
  | None => getGlobalLetBinding realm innerName
  | Some reference =>
      if IsUnresolvableReference realm reference then None
      else match Reference.referencedName reference, Reference.base reference with
           | NameString n, BaseGlobalEnvironmentRecord => getGlobalLetBinding realm n
           | NameString n, BaseDeclarativeEnvironmentRecord r => declarativeValue r n
           | _, _ => None
           end
  end.

(** The values that [visitValueFunction val] hands to [visitValue], given
    the function infos. *)
Inductive functionTarget (infos : gmap codeid FunctionInfo.t) (val : vid) (w : vid) : Prop :=
| target_function_property : propertyTarget val w → functionTarget infos val w
| target_bound f BoundTargetFunction BoundThis BoundArguments :
    functionOf realm val = Some f →
    FunctionValue.cls f = BoundFunction BoundTargetFunction BoundThis BoundArguments →
    w ∈ BoundTargetFunction :: BoundThis :: BoundArguments →
    functionTarget infos val w
| target_captured f formalParameters code Environment isResidual functionInfo innerName :
    functionOf realm val = Some f →
    FunctionValue.cls f
    = ECMAScriptFunction formalParameters (Some code) Environment isResidual →
    infos !! code = Some functionInfo →
    innerName ∈ FunctionInfo.names functionInfo →
    capturedValue Environment innerName = Some w →
    functionTarget infos val w.

(** The values that [visitValueObject val] hands to [visitValue]. *)
Inductive objectTarget (val : vid) (w : vid) : Prop :=
| target_object_property : propertyTarget val w → objectTarget val w
| target_constructor o :
    objectOf realm val = Some o → ObjectValue.originalConstructor o = Some w →
    objectTarget val w
| target_date o :
    objectOf realm val = Some o → ObjectValue.originalConstructor o = None →
    ObjectValue.getKind o = "Date" → ObjectValue.DateValue o = Some w →
    objectTarget val w
| target_buffer o :
    objectOf realm val = Some o → ObjectValue.originalConstructor o = None →
    kind_is (ObjectValue.getKind o)
      ["Float32Array"; "Float64Array"; "Int8Array"; "Int16Array"; "Int32Array";
       "Uint8Array"; "Uint16Array"; "Uint32Array"; "Uint8ClampedArray"; "DataView"] = true →
    ObjectValue.ViewedArrayBuffer o = Some w →
    objectTarget val w
| target_map_entry o entries entry key value :
    objectOf realm val = Some o → ObjectValue.originalConstructor o = None →
    (ObjectValue.getKind o = "Map" ∧ ObjectValue.MapData o = Some entries
     ∨ ObjectValue.getKind o = "WeakMap" ∧ ObjectValue.WeakMapData o = Some entries) →
    entry ∈ entries → MapEntry.Key entry = Some key → MapEntry.Value entry = Some value →
    w ∈ [key; value] →
    objectTarget val w
| target_set_entry o entries :
    objectOf realm val = Some o → ObjectValue.originalConstructor o = None →
    (ObjectValue.getKind o = "Set" ∧ ObjectValue.SetData o = Some entries
     ∨ ObjectValue.getKind o = "WeakSet" ∧ ObjectValue.WeakSetData o = Some entries) →
    Some w ∈ entries →
    objectTarget val w.

(** The branch of [visitValue] that a value takes. *)
Inductive Dispatch :=
| AsAbstract | AsTerminal | AsArray | AsProxy | AsFunction | AsObject | AsInvalid.

Definition dispatch (val : vid) : Dispatch :=
  if instanceof_AbstractValue realm val then AsAbstract
  else if isIntrinsic realm val then AsTerminal
  else if instanceof_EmptyValue realm val then AsTerminal
  else if isLeaf realm val then AsTerminal
  else if IsArray realm val then
    if instanceof_ObjectValue realm val then AsArray else AsInvalid
  else if instanceof_ProxyValue realm val then AsProxy
  else if instanceof_FunctionValue realm val then AsFunction
  else if instanceof_SymbolValue realm val then AsTerminal
  else if instanceof_ObjectValue realm val then AsObject
  else AsInvalid.

(** [edge infos u w]: visiting [u] hands [w] to [visitValue]. *)
Definition edge (infos : gmap codeid FunctionInfo.t) (u w : vid) : Prop :=
  match dispatch u with
  | AsAbstract => ∃ a, abstractOf realm u = Some a ∧ w ∈ AbstractValue.args a
  | AsArray =>
      propertyTarget u w
      ∨ (w = Get realm u "length" ∧ instanceof_AbstractValue realm w = true)
  | AsProxy =>
      ∃ o ProxyTarget ProxyHandler,
        objectOf realm u = Some o ∧ ObjectValue.cls o = ProxyObject ProxyTarget ProxyHandler
        ∧ w ∈ [ProxyTarget; ProxyHandler]
  | AsFunction => functionTarget infos u w
  | AsObject => objectTarget u w
  | AsTerminal | AsInvalid => False
  end.

(** The function info of a plain function is in the table. *)
Definition infoKnown (infos : gmap codeid FunctionInfo.t) (u : vid) : Prop :=
  ∀ f formalParameters code Environment isResidual,
    dispatch u = AsFunction → functionOf realm u = Some f →
    FunctionValue.cls f = ECMAScriptFunction formalParameters (Some code) Environment isResidual →
    is_Some (infos !! code).

(** Everything [u] points to is in [visited]. *)
Definition closedAt (infos : gmap codeid FunctionInfo.t) (visited : list vid) (u : vid) : Prop :=
  infoKnown infos u ∧ ∀ w, edge infos u w → w ∈ visited.

(** [w] is reachable from [root] along the edges the visitor follows. *)
Definition reachable (infos : gmap codeid FunctionInfo.t) (root w : vid) : Prop :=
  rtc (edge infos) root w.

(** The roots of [visitRoots]. *)
Definition roots : list vid :=
  default [] (generator realm) ++ (initializedModules realm).*2.
End Edges.

(** ** How the tables evolve *)

(** Binding objects are only ever appended, and only their [modified] flag
    changes, from [false] to [true]. *)
Definition store_le (s s' : list VisitedBinding.t) : Prop :=
  ∀ i b, s !! i = Some b →
    ∃ b', s' !! i = Some b'
          ∧ VisitedBinding.global b' = VisitedBinding.global b
          ∧ VisitedBinding.value b' = VisitedBinding.value b
          ∧ VisitedBinding.declarativeEnvironmentRecord b'
            = VisitedBinding.declarativeEnvironmentRecord b
          ∧ (VisitedBinding.modified b = true → VisitedBinding.modified b' = true).

(** [st'] extends [st]: every table has only grown. *)
Record Ext (st st' : State) : Prop := mkExt {
  ext_values : values st `prefix_of` values st';
  ext_store : store_le (store st) (store st');
  ext_globalBindings : globalBindings st ⊆ globalBindings st';
  ext_declarative : ∀ r table,
    declarativeEnvironmentRecordsBindings st !! r = Some table →
    ∃ table', declarativeEnvironmentRecordsBindings st' !! r = Some table' ∧ table ⊆ table';
  ext_functionInfos : functionInfos st ⊆ functionInfos st';
  ext_ignoredProperties : ∀ obj keys,
    ignoredProperties st !! obj = Some keys →
    ∃ keys', ignoredProperties st' !! obj = Some keys' ∧ keys ⊆ keys';
  ext_logged : logged st `prefix_of` logged st' }.

Section Invariants.
Context (realm : Realm).

(** The values newly visited between [st] and [st'] are closed in [st']. *)
Definition closedNew (st st' : State) : Prop :=
  ∀ u, u ∈ values st' → u ∉ values st → closedAt realm (functionInfos st') (values st') u.

(** A stretch of the pass between two method boundaries. *)
Definition Trans (st st' : State) : Prop := Ext st st' ∧ closedNew st st'.

(** The tables are well formed: no value is listed twice; the binding tables
    refer to binding objects of their own origin; function infos come from
    the traversal of a function with that body. *)
Record Inv0 (st : State) : Prop := mkInv0 {
  inv_values : NoDup (values st);
  inv_global : ∀ key b, globalBindings st !! key = Some b →
    ∃ binding, store st !! b = Some binding
               ∧ VisitedBinding.global binding = true
               ∧ VisitedBinding.modified binding = true
               ∧ VisitedBinding.value binding = getGlobalLetBinding realm key
               ∧ VisitedBinding.declarativeEnvironmentRecord binding = None;
  inv_declarative : ∀ r table n b,
    declarativeEnvironmentRecordsBindings st !! r = Some table → table !! n = Some b →
    ∃ binding, store st !! b = Some binding
               ∧ VisitedBinding.global binding = false
               ∧ VisitedBinding.value binding = declarativeValue realm r n
               ∧ VisitedBinding.declarativeEnvironmentRecord binding = Some r;
  inv_functionInfos : ∀ code functionInfo,
    functionInfos st !! code = Some functionInfo →
    ∃ val f formalParameters Environment isResidual,
      functionOf realm val = Some f
      ∧ FunctionValue.cls f
        = ECMAScriptFunction formalParameters (Some code) Environment isResidual
      ∧ functionInfo = ClosureRefVisitor realm val }.

(** The value of every binding in the binding tables has been handed to
    [visitValue], [pending] apart: the value that is about to be. *)
Record Bound (pending : option vid) (st : State) : Prop := mkBound {
  bound_global : ∀ key w,
    is_Some (globalBindings st !! key) → getGlobalLetBinding realm key = Some w →
    w ∈ values st ∨ pending = Some w;
  bound_declarative : ∀ r table n w,
    declarativeEnvironmentRecordsBindings st !! r = Some table → is_Some (table !! n) →
    declarativeValue realm r n = Some w →
    w ∈ values st ∨ pending = Some w }.

Definition Inv (st : State) : Prop := Inv0 st ∧ Bound None st.

(** What holds when a nested call is made, and what it leaves. *)
Definition Pre (c : Call) (st : State) : Prop :=
  Inv0 st ∧ match c with
            | VisitValue val => Bound (Some val) st
            | VisitObjectPropertiesWithComputedNames _ => Bound None st
            end.

Definition Post (c : Call) (st st' : State) : Prop :=
  Trans st st' ∧ Inv st'
  ∧ match c with
    | VisitValue val => val ∈ values st'
    | VisitObjectPropertiesWithComputedNames absVal =>
        ∀ w, chainValue realm absVal w → w ∈ values st'
    end.
End Invariants.

(** [wp T m Q st]: started in [st], [m] returns in a state satisfying [Q], or
    throws; running out of fuel is accepted only when [T] holds. *)
Definition wp {A} (T : Prop) (m : M A) (Q : A → State → Prop) (st : State) : Prop :=
  match m st with
  | Done a st' => Q a st'
  | Throw _ _ => True
  | OutOfFuel => T
  end.

(** Every nested call is allowed in [st]. *)
Definition Allowed (P : Call → State → Prop) (st : State) : Prop := ∀ c, P c st.

(** The shape of every postcondition: the tables have grown from [st], are
    well formed, and [Q] holds. *)
Definition good (realm : Realm) {A} (st : State) (Q : A → State → Prop)
  : A → State → Prop :=
  λ a st', Trans realm st st' ∧ Inv realm st' ∧ Q a st'.

(** [m'] does what [m] does whenever [m] has fuel enough. *)
Definition refines {A} (m m' : M A) : Prop :=
  ∀ st, m st = OutOfFuel ∨ m' st = m st.

(** ** The capture table of a function *)

Section Captures.
Context (realm : Realm).

(** [b] is the binding object that the tables hold for the binding that
    [innerName] resolves to from [Environment]. *)
Definition resolvesTo (st : State) (Environment : lexid) (innerName : string) (b : bref)
  : Prop :=
  match tryResolveBinding realm innerName Environment with
  | None => globalBindings st !! innerName = Some b
  | Some reference =>
      match Reference.referencedName reference, Reference.base reference with
      | NameString n, BaseGlobalEnvironmentRecord => globalBindings st !! n = Some b
      | NameString n, BaseDeclarativeEnvironmentRecord r =>
          ∃ table, declarativeEnvironmentRecordsBindings st !! r = Some table
                   ∧ table !! n = Some b
      | _, _ => False
      end
  end.

Definition isModified (st : State) (b : bref) : Prop :=
  ∃ binding, store st !! b = Some binding ∧ VisitedBinding.modified binding = true.

(** [table] maps exactly [names] to the bindings they resolve to, flagged
    as modified where the function info says so. *)
Definition captures (st : State) (Environment : lexid) (functionInfo : FunctionInfo.t)
    (names : list string) (table : gmap string bref) : Prop :=
  (∀ name, name ∈ names ↔ is_Some (table !! name))
  ∧ ∀ name b, table !! name = Some b →
      resolvesTo st Environment name b
      ∧ (name ∈ FunctionInfo.modified functionInfo → isModified st b).

(** The tables hold the function info and the capture table of the plain
    function [val]. *)
Definition captured (st : State) (val : vid) : Prop :=
  ∀ f formalParameters code Environment isResidual,
    functionOf realm val = Some f →
    FunctionValue.cls f = ECMAScriptFunction formalParameters (Some code) Environment isResidual →
    ∃ functionInfo table,
      functionInfos st !! code = Some functionInfo
      ∧ functionBindings st !! val = Some table
      ∧ captures st Environment functionInfo (FunctionInfo.names functionInfo) table.
End Captures.

(** ** How much fuel a pass needs *)

Section Fuel.
Context (realm : Realm) (rank : nat → nat).

(** The values of the heap that are not yet in the visited set. *)
Definition unvisited (st : State) : nat :=
  size (dom (heap realm) ∖ (list_to_set (values st) : gset nat)).

(** Abstract values are immutable and built from their operands: [rank]
    orders every abstract value after its abstract operands. *)
Definition ranked : bool :=
  forallb (λ entry : nat * Value.t,
    match Value.cls entry.2 with
    | VAbstract a =>
        forallb (λ operand,
          negb (instanceof_AbstractValue realm operand) || Nat.ltb (rank operand) (rank entry.1))
          (AbstractValue.args a)
    | _ => true
    end) (map_to_list (heap realm)).

Definition rankBound : nat := max_list (rank <$> (map_to_list (heap realm)).*1).

(** Fuel enough for a call made in state [st]. *)
Definition need (c : Call) (st : State) : nat :=
  (unvisited st + 1) * (rankBound + 2)
  + match c with
    | VisitValue _ => 0
    | VisitObjectPropertiesWithComputedNames absVal => (rank absVal `min` rankBound) + 1
    end.
End Fuel.

(** ** Notions used to state the properties *)

(** The entries of a [Map] or [WeakMap] whose key and value are both
    present. *)
Definition liveEntries (entries : list MapEntry.t) : list (nat * nat) :=
  omap (λ entry,
    match MapEntry.Key entry, MapEntry.Value entry with
    | Some key, Some value => Some (key, value)
    | _, _ => None
    end) entries.

Definition symbolError : Fatal :=
  Error "TODO: do not know how to visit reference with symbol".

(** The kinds that [visitValueObject] has a case for. *)
Definition handledKinds : list string :=
  ["RegExp"; "Number"; "String"; "Boolean"; "ArrayBuffer"; "Date";
   "Float32Array"; "Float64Array"; "Int8Array"; "Int16Array"; "Int32Array"; "Uint8Array";
   "Uint16Array"; "Uint32Array"; "Uint8ClampedArray"; "DataView";
   "Map"; "WeakMap"; "Set"; "WeakSet"].

(** Fuel enough for a whole pass over the heap of [realm]. *)
Definition enoughFuel (realm : Realm) (rank : nat → nat) : nat :=
  (size (dom (heap realm)) + 2) * (rankBound realm rank + 2).

(** ** What the tables may hold *)

(** A binding that the visitor keeps a [VisitedBinding] object for: a global
    binding, by its name, or a binding of a declarative environment record. *)
Inductive Slot :=
| GlobalSlot (key : string)
| DeclarativeSlot (r : envid) (n : string).

#[global] Instance Slot_eq_dec : EqDecision Slot.
Proof. solve_decision. Defined.

(** The binding object that the tables hold for a binding. *)
Definition slotOf (st : State) (slot : Slot) : option bref :=
  match slot with
  | GlobalSlot key => globalBindings st !! key
  | DeclarativeSlot r n =>
      match declarativeEnvironmentRecordsBindings st !! r with
      | Some visitedBindings => visitedBindings !! n
      | None => None
      end
  end.

(** ** The writes of the binding tables *)

(** [declarativeEnvironmentRecordsBindings.set(r, Object.create(null))] when
    [r] has no table yet. *)
Definition ensureTable (r : envid) : State → State :=
  set_declarativeEnvironmentRecordsBindings (λ table,
    match table !! r with Some _ => table | None => <[r := ∅]> table end).

(** A new binding object, registered for [slot]. *)
Definition register (slot : Slot) (binding : VisitedBinding.t) (st : State) : State :=
  match slot with
  | GlobalSlot key =>
      set_globalBindings <[key := length (store st)]> (set_store (λ s, s ++ [binding]) st)
  | DeclarativeSlot r n =>
      set_declarativeEnvironmentRecordsBindings (λ table,
        <[r := <[n := length (store st)]> (default ∅ (table !! r))]> table)
        (set_store (λ s, s ++ [binding]) st)
  end.

(** [visitedBinding.modified = true] on the binding object [b]. *)
Definition flag (b : bref) : State → State :=
  set_store (λ s,
    match s !! b with
    | Some vb => <[b := VisitedBinding.mk (VisitedBinding.global vb) (VisitedBinding.value vb)
                          true (VisitedBinding.declarativeEnvironmentRecord vb)]> s
    | None => s
    end).

(** The tables that a method leaves, whether it returned or threw. *)
Definition finalState {A} (outcome : Outcome A) : option State :=
  match outcome with
  | Done _ st | Throw _ st => Some st
  | OutOfFuel => None
  end.

(** The text of the error that [_canIgnoreProperty] logs for a function whose
    [length] is an accessor property. *)
Definition lengthAccessorError : string :=
  "Functions with length accessor properties are not supported in residual heap.".

(** The text of the error that [visitValueObject] logs for an object of a
    kind it has no case for. *)
Definition unsupportedKindError (kind : string) : string :=
  String.append "Object of kind " (String.append kind " is not supported in residual heap.").

(** The text of the error that [visitAbstractValue] logs for a sentinel
    member expression. *)
Definition sentinelError : string :=
  "expressions of type o[p] are not yet supported for partially known o and unknown p".

(** The text of the error that [visitValueFunction] logs for a residual
    function with free names. *)
Definition residualFunctionError (realm : Realm) (val : vid) : string :=
  String.append "residual function "
  (String.append (default "(unknown)" (describeLocation realm val))
  (String.append
     " refers to the following identifiers defined outside of the local scope: "
     (String.concat ", " (FunctionInfo.names (ClosureRefVisitor realm val))))).

Section Tables.
Context (realm : Realm).

(** [w] has been discovered: it is a root, or a visited value refers to
    it. *)
Definition discovered (st : State) (w : vid) : Prop :=
  w ∈ roots realm ∨ ∃ u, u ∈ values st ∧ edge realm (functionInfos st) u w.

(** The branches of [visitValue] that go through [visitObjectProperties]. *)
Definition descends (val : vid) : bool :=
  match dispatch realm val with
  | AsArray | AsFunction | AsObject => true
  | _ => false
  end.

(** [key] names an own property of [obj], not deleted, that
    [_canIgnoreProperty] accepts. *)
Definition ignorable (obj : vid) (key : string) : Prop :=
  ∃ o propertyBinding desc,
    objectOf realm obj = Some o
    ∧ (key, propertyBinding) ∈ ObjectValue.properties o
    ∧ PropertyBinding.descriptor propertyBinding = Some desc
    ∧ canIgnoreProperty realm obj key desc = true.

(** [val] is a plain function (neither bound nor native) with the body
    [code] and the environment [Environment]. *)
Definition plainFunction (val : vid) (code : codeid) (Environment : lexid)
    (isResidual : bool) : Prop :=
  ∃ f formalParameters,
    functionOf realm val = Some f
    ∧ FunctionValue.cls f
      = ECMAScriptFunction formalParameters (Some code) Environment isResidual.

(** The errors the visitor hands to the logger, each with the value it is
    logged for. *)
Inductive diagnostic (val : vid) : string → Prop :=
| diagnostic_length o propertyBinding desc :
    IsArray realm val = false → is_Some (functionOf realm val) →
    objectOf realm val = Some o →
    ("length", propertyBinding) ∈ ObjectValue.properties o →
    PropertyBinding.descriptor propertyBinding = Some desc →
    Descriptor.value desc = None →
    diagnostic val lengthAccessorError
| diagnostic_residual code Environment :
    plainFunction val code Environment true →
    FunctionInfo.names (ClosureRefVisitor realm val) ≠ [] →
    diagnostic val (residualFunctionError realm val)
| diagnostic_kind o :
    objectOf realm val = Some o → ObjectValue.originalConstructor o = None →
    ObjectValue.getKind o ∉ "Object" :: handledKinds →
    diagnostic val (unsupportedKindError (ObjectValue.getKind o))
| diagnostic_sentinel a :
    abstractOf realm val = Some a →
    AbstractValue.kind a = "sentinel member expression" →
    diagnostic val sentinelError.

(** The errors that the visit of a value has to log: the diagnostics that
    the value alone calls for. *)
Inductive expected (val : vid) : string → Prop :=
| expected_length o propertyBinding desc :
    dispatch realm val = AsFunction → objectOf realm val = Some o →
    ("length", propertyBinding) ∈ ObjectValue.properties o →
    PropertyBinding.descriptor propertyBinding = Some desc →
    Descriptor.value desc = None →
    expected val lengthAccessorError
| expected_kind o :
    dispatch realm val = AsObject → objectOf realm val = Some o →
    ObjectValue.originalConstructor o = None →
    ObjectValue.getKind o ∉ "Object" :: handledKinds →
    expected val (unsupportedKindError (ObjectValue.getKind o))
| expected_sentinel a :
    dispatch realm val = AsAbstract → abstractOf realm val = Some a →
    AbstractValue.kind a = "sentinel member expression" →
    expected val sentinelError.

(** The binding that the free name [innerName] of a function with the
    environment [Environment] stands for, as the loop of
    [visitValueFunction] resolves it. *)
Definition slotFor (Environment : lexid) (innerName : string) : option Slot :=
  match tryResolveBinding realm innerName Environment with
  | None => Some (GlobalSlot innerName)
  | Some reference =>
      if IsUnresolvableReference realm reference then None
      else match Reference.referencedName reference, Reference.base reference with
           | NameString n, BaseGlobalEnvironmentRecord => Some (GlobalSlot n)
           | NameString n, BaseDeclarativeEnvironmentRecord r => Some (DeclarativeSlot r n)
           | _, _ => None
           end
  end.

(** The current value of a binding. *)
Definition slotValue (slot : Slot) : option vid :=
  match slot with
  | GlobalSlot key => getGlobalLetBinding realm key
  | DeclarativeSlot r n => declarativeValue realm r n
  end.

(** [table] is the capture table of the plain function [val]: it has an
    entry for each free name of the function's info, the binding object of
    the binding that the name stands for, flagged as modified when the info
    says that the function assigns to the name. *)
Definition capturesOf (st : State) (val : vid) (table : gmap string bref) : Prop :=
  ∃ code Environment isResidual functionInfo,
    plainFunction val code Environment isResidual
    ∧ functionInfos st !! code = Some functionInfo
    ∧ (∀ name, name ∈ FunctionInfo.names functionInfo ↔ is_Some (table !! name))
    ∧ ∀ name b, table !! name = Some b →
        ∃ slot, slotFor Environment name = Some slot ∧ slotOf st slot = Some b
                ∧ (name ∈ FunctionInfo.modified functionInfo → isModified st b).

(** The visited plain function [val] assigns to the binding [slot]. *)
Definition modifies (st : State) (val : vid) (slot : Slot) : Prop :=
  ∃ code Environment isResidual functionInfo name,
    val ∈ values st ∧ dispatch realm val = AsFunction
    ∧ plainFunction val code Environment isResidual
    ∧ functionInfos st !! code = Some functionInfo
    ∧ name ∈ FunctionInfo.names functionInfo
    ∧ name ∈ FunctionInfo.modified functionInfo
    ∧ slotFor Environment name = Some slot.

(** What the tables hold at every moment of a pass, also when it throws. *)
Record Sound (st : State) : Prop := mkSound {
  sound_values : ∀ i w,
    values st !! i = Some w →
    w ∈ roots realm
    ∨ ∃ j u, j < i ∧ values st !! j = Some u ∧ edge realm (functionInfos st) u w;
  sound_ignored : ∀ obj keys key,
    ignoredProperties st !! obj = Some keys → key ∈ keys →
    obj ∈ values st ∧ descends obj = true ∧ ignorable obj key;
  sound_logged : ∀ val message,
    (val, message) ∈ logged st → val ∈ values st ∧ diagnostic val message;
  sound_infos : ∀ code functionInfo,
    functionInfos st !! code = Some functionInfo →
    ∃ val Environment isResidual,
      val ∈ values st ∧ dispatch realm val = AsFunction
      ∧ plainFunction val code Environment isResidual
      ∧ functionInfo = ClosureRefVisitor realm val;
  sound_slots : ∀ slot b, slotOf st slot = Some b → is_Some (store st !! b);
  sound_distinct : ∀ slot slot' b,
    slotOf st slot = Some b → slotOf st slot' = Some b → slot = slot';
  sound_modified : ∀ slot b binding,
    slotOf st slot = Some b → store st !! b = Some binding →
    VisitedBinding.modified binding = true →
    (∃ key, slot = GlobalSlot key) ∨ ∃ val, modifies st val slot;
  sound_bindings : ∀ val table,
    functionBindings st !! val = Some table →
    val ∈ values st ∧ dispatch realm val = AsFunction ∧ capturesOf st val table }.

(** [key] is in the set of ignored properties of [obj]. *)
Definition recorded (st : State) (obj : vid) (key : string) : Prop :=
  ∃ keys, ignoredProperties st !! obj = Some keys ∧ key ∈ keys.

(** What the tables hold for a value whose visit has returned. *)
Definition Complete (st : State) (val : vid) : Prop :=
  (∀ key, descends val = true → ignorable val key → recorded st val key)
  ∧ (∀ code Environment isResidual,
       dispatch realm val = AsFunction → plainFunction val code Environment isResidual →
       is_Some (functionBindings st !! val))
  ∧ ∀ message, expected val message → (val, message) ∈ logged st.

(** A stretch of the pass: the tables have grown, and no capture table was
    taken away. *)
Definition Grown (st st' : State) : Prop :=
  Ext st st'
  ∧ ∀ val, is_Some (functionBindings st !! val) → is_Some (functionBindings st' !! val).

(** A stretch of the pass between two method boundaries: the visit of every
    value that was added has returned. *)
Definition Finished (st st' : State) : Prop :=
  Grown st st' ∧ ∀ u, u ∈ values st' → u ∉ values st → Complete st' u.

(** A nested call is due in [st] when what it will visit has been
    discovered. *)
Definition due (c : Call) (st : State) : Prop :=
  match c with
  | VisitValue val => discovered st val
  | VisitObjectPropertiesWithComputedNames absVal =>
      ∀ w, chainValue realm absVal w → discovered st w
  end.

(** [holds m Q st]: started in [st], when [m] returns its visits have
    returned, the tables are sound and [Q] holds; when [m] throws the tables
    have grown and are sound. *)
Definition holds {A} (m : M A) (Q : A → State → Prop) (st : State) : Prop :=
  match m st with
  | Done a st' => Finished st st' ∧ Sound st' ∧ Q a st'
  | Throw _ st' => Grown st st' ∧ Sound st'
  | OutOfFuel => True
  end.
End Tables.

(** ** Sample heaps *)

Module Sample.
(** The intrinsics every sample realm shares: [0] is [ObjectPrototype], [1]
    is [FunctionPrototype], [2] is [undefined], [3] is [ArrayPrototype]. *)
Definition sampleIntrinsics : gmap string nat :=
  <["ObjectPrototype" := 0]> (<["FunctionPrototype" := 1]> (<["ArrayPrototype" := 3]> ∅)).

Definition object (properties : list (string * PropertyBinding.t)) (proto : nat)
    (kind : string) (cls : ObjectClass) : ObjectValue.t :=
  ObjectValue.mk properties 0 None proto true kind None None None None None None None None
    cls.

Definition intrinsicObject (name : string) : Value.t :=
  Value.mk (Some name) (VObject (object [] 0 "Object" OrdinaryObject)).

Definition plain (v : ValueClass) : Value.t := Value.mk None v.

Definition dataProperty (value : nat) (writable enumerable configurable : bool)
  : PropertyBinding.t :=
  PropertyBinding.mk
    (Some (Descriptor.mk (Some value) None None writable enumerable configurable)).

Definition baseHeap : gmap nat Value.t :=
  <[0 := intrinsicObject "ObjectPrototype"]>
  (<[1 := intrinsicObject "FunctionPrototype"]>
  (<[2 := Value.mk (Some "undefined") VUndefined]>
  (<[3 := intrinsicObject "ArrayPrototype"]> ∅))).

Definition sampleRealm (extra : gmap nat Value.t) (isArray : nat → bool)
    (resolve : string → nat → option Reference.t) (scan : nat → FunctionInfo.t)
    (globalLet : string → option nat) (records : gmap nat (gmap string Binding.t))
    (generated : list nat) (modules : list (string * nat)) : Realm :=
  mkRealm (extra ∪ baseHeap) true sampleIntrinsics 2 globalLet records isArray (λ _ _, 2)
    resolve (λ _, false) scan (λ _, None) (Some generated) modules.

Definition noInfo : nat → FunctionInfo.t := λ _, FunctionInfo.mk [] ∅ false false.

(** A heap with cycles: the object [10] is its own prototype, and the bound
    functions [11] and [12] are each other's target. *)
Definition cyclicRealm : Realm :=
  sampleRealm
    (<[10 := plain (VObject (object [("x", dataProperty 13 true true true)] 10 "Object"
                               OrdinaryObject))]>
    (<[11 := plain (VObject (object [] 1 "Function"
               (FunctionObject (FunctionValue.mk true "normal" true
                                  (BoundFunction 12 10 [13])))))]>
    (<[12 := plain (VObject (object [] 1 "Function"
               (FunctionObject (FunctionValue.mk true "normal" true
                                  (BoundFunction 11 2 [])))))]>
    (<[13 := plain (VNumber 7)]> ∅))))
    (λ _, false) (λ _ _, None) noInfo (λ _, None) ∅ [10; 11] [("m", 12)].

(** A plain function [10] whose body refers to [x], bound in the declarative
    record [0] and assigned in the body, and to [y], a global. *)
Definition closureRealm (xName : ReferencedName) : Realm :=
  sampleRealm
    (<[10 := plain (VObject (object [] 1 "Function"
               (FunctionObject (FunctionValue.mk true "normal" true
                                  (ECMAScriptFunction (Some []) (Some 0) 0 false)))))]>
    (<[13 := plain (VNumber 7)]>
    (<[14 := plain (VString "global")]> ∅)))
    (λ _, false)
    (λ name _, if bool_decide (name = "x")
               then Some (Reference.mk (BaseDeclarativeEnvironmentRecord 0) xName)
               else None)
    (λ _, FunctionInfo.mk ["x"; "y"] {["x"]} false false)
    (λ key, if bool_decide (key = "y") then Some 14 else None)
    {[0 := {["x" := Binding.mk false true (Some 13)]}]}
    [10] [].

(** An abstract value [10] with an identifier and one operand, [11]. *)
Definition identifierRealm : Realm :=
  sampleRealm
    (<[10 := plain (VAbstract (AbstractValue.mk "x" [11] true))]>
    (<[11 := plain (VNumber 5)]> ∅))
    (λ _, false) (λ _ _, None) noInfo (λ _, None) ∅ [10] [].

(** A plain object [10] with a parameter map, [11]. *)
Definition argumentsRealm : Realm :=
  sampleRealm
    (<[10 := plain (VObject
               (ObjectValue.mk [] 0 None 0 true "Object" None None None None None None None
                  (Some 11) OrdinaryObject))]>
    (<[11 := plain (VObject (object [] 0 "Object" OrdinaryObject))]> ∅))
    (λ _, false) (λ _ _, None) noInfo (λ _, None) ∅ [10] [].

(** An array [10] whose [length] is the number [11], with the default
    descriptor or ([enumerable]) an enumerable one. *)
Definition arrayRealm (enumerable : bool) : Realm :=
  mkRealm
    (<[10 := plain (VObject (object [("length", dataProperty 11 true enumerable false)] 3
                               "Array" OrdinaryObject))]>
    (<[11 := plain (VNumber 0)]> baseHeap))
    true sampleIntrinsics 2 (λ _, None) ∅ (λ val, bool_decide (val = 10)) (λ _ _, 11)
    (λ _ _, None) (λ _, false) noInfo (λ _, None) (Some [10]) [].

(** An array [10] whose prototype is [ObjectPrototype], not
    [ArrayPrototype]. *)
Definition mismatchedRealm : Realm :=
  mkRealm
    (<[10 := plain (VObject (object [] 0 "Array" OrdinaryObject))]> baseHeap)
    true sampleIntrinsics 2 (λ _, None) ∅ (λ val, bool_decide (val = 10)) (λ _ _, 2)
    (λ _ _, None) (λ _, false) noInfo (λ _, None) (Some [10]) [].

(** A [Map] [10] with three entries; the key of the second is absent. *)
Definition mapRealm : Realm :=
  sampleRealm
    (<[10 := plain (VObject
               (ObjectValue.mk [] 0 None 0 true "Map" None None None
                  (Some [MapEntry.mk (Some 11) (Some 12); MapEntry.mk None (Some 13);
                         MapEntry.mk (Some 14) (Some 15)])
                  None None None None OrdinaryObject))]>
    (<[11 := plain (VNumber 1)]> (<[12 := plain (VNumber 2)]> (<[13 := plain (VNumber 3)]>
    (<[14 := plain (VNumber 4)]> (<[15 := plain (VNumber 5)]> ∅))))))
    (λ _, false) (λ _ _, None) noInfo (λ _, None) ∅ [10] [].

(** A [Date] [10] that is the default prototype object of the function
    [11]. *)
Definition constructedRealm : Realm :=
  sampleRealm
    (<[10 := plain (VObject
               (ObjectValue.mk [] 0 None 0 true "Date" (Some 11) (Some 12) None None None
                  None None None OrdinaryObject))]>
    (<[11 := plain (VObject (object [] 1 "Function"
               (FunctionObject (FunctionValue.mk true "normal" true NativeFunction))))]>
    (<[12 := plain (VNumber 0)]> ∅)))
    (λ _, false) (λ _ _, None) noInfo (λ _, None) ∅ [10] [].

(** An object [10] of a kind that [visitValueObject] has no case for. *)
Definition unsupportedRealm : Realm :=
  sampleRealm (<[10 := plain (VObject (object [] 0 "Generator" OrdinaryObject))]> ∅)
    (λ _, false) (λ _ _, None) noInfo (λ _, None) ∅ [10] [].

(** A [Set] [10] with three entries, the second of them deleted. *)
Definition setRealm : Realm :=
  sampleRealm
    (<[10 := plain (VObject
               (ObjectValue.mk [] 0 None 0 true "Set" None None None None None
                  (Some [Some 11; None; Some 12]) None None OrdinaryObject))]>
    (<[11 := plain (VNumber 1)]> (<[12 := plain (VNumber 2)]> ∅)))
    (λ _, false) (λ _ _, None) noInfo (λ _, None) ∅ [10] [].
End Sample.

(** * Properties *)

(** ** The monad *)

Lemma bind_ret_r {A} (m : M A) st : (do x <- m; ret x) st = m st.
Proof. unfold bind, ret. by destruct (m st). Qed.

Lemma bind_unit_r (m : M unit) st : (m >> ret tt) st = m st.
Proof. unfold bind, ret. destruct (m st) as [[] ?| |]; done. Qed.

Lemma bind_assoc {A B C} (m : M A) (k : A → M B) (h : B → M C) st :
  (do y <- (do x <- m; k x); h y) st = (do x <- m; do y <- k x; h y) st.
Proof. unfold bind. by destruct (m st). Qed.

Lemma bind_ext {A B} (m : M A) (k k' : A → M B) st :
  (∀ a st', k a st' = k' a st') → (do x <- m; k x) st = (do x <- m; k' x) st.
Proof. intros Hk. unfold bind. by destruct (m st). Qed.

Lemma forEach_app {A} (l1 l2 : list A) body st :
  forEach (l1 ++ l2) body st = (forEach l1 body >> forEach l2 body) st.
Proof.
  revert st. induction l1 as [|x l1 IH]; intros st; simpl; [done|].
  unfold bind in *. destruct (body x st); [apply IH|done..].
Qed.

Lemma wp_ret {A} T (a : A) Q st : Q a st → wp T (ret a) Q st.
Proof. done. Qed.

Lemma wp_bind {A B} T (m : M A) (k : A → M B) Q st :
  wp T m (λ a st', wp T (k a) Q st') st → wp T (do x <- m; k x) Q st.
Proof. unfold wp, bind. by destruct (m st). Qed.

Lemma wp_mono {A} T (m : M A) (Q Q' : A → State → Prop) st :
  wp T m Q st → (∀ a st', Q a st' → Q' a st') → wp T m Q' st.
Proof. unfold wp. destruct (m st); auto. Qed.

Lemma wp_throw {A} T e (Q : A → State → Prop) st : wp T (throw e) Q st.
Proof. done. Qed.

Lemma wp_gets {A} T (f : State → A) Q st : Q (f st) st → wp T (gets f) Q st.
Proof. done. Qed.

Lemma wp_modify T f Q st : Q tt (f st) → wp T (modify f) Q st.
Proof. done. Qed.

Lemma wp_invariant T b Q st : (b = true → Q tt st) → wp T (invariant b) Q st.
Proof. intros H. destruct b; [by apply H|done]. Qed.

Lemma wp_when T b m Q st :
  (b = true → wp T m Q st) → (b = false → Q tt st) → wp T (when b m) Q st.
Proof. intros H1 H2. destruct b; [by apply H1|by apply H2]. Qed.

Lemma wp_done {A} T (m : M A) Q st a st' : wp T m Q st → m st = Done a st' → Q a st'.
Proof. unfold wp. intros H Hm. by rewrite Hm in H. Qed.


(** ** Growth of the tables *)

Lemma store_le_refl s : store_le s s.
Proof. intros i b Hb. by exists b. Qed.

Lemma store_le_trans s1 s2 s3 : store_le s1 s2 → store_le s2 s3 → store_le s1 s3.
Proof.
  intros H12 H23 i b Hb. destruct (H12 i b Hb) as (b2 & Hb2 & Hg & Hv & Hr & Hm).
  destruct (H23 i b2 Hb2) as (b3 & Hb3 & Hg' & Hv' & Hr' & Hm').
  exists b3. split_and!; [done|congruence..|auto].
Qed.

Lemma Ext_refl st : Ext st st.
Proof. split; eauto using store_le_refl. Qed.

Lemma Ext_trans st1 st2 st3 : Ext st1 st2 → Ext st2 st3 → Ext st1 st3.
Proof.
  intros [] []. split.
  - by etrans.
  - by eapply store_le_trans.
  - by etrans.
  - intros r t Ht. destruct (ext_declarative0 r t Ht) as (t2 & Ht2 & ?).
    destruct (ext_declarative1 r t2 Ht2) as (t3 & Ht3 & ?). exists t3. split; [done|by etrans].
  - by etrans.
  - intros o k Hk. destruct (ext_ignoredProperties0 o k Hk) as (k2 & Hk2 & ?).
    destruct (ext_ignoredProperties1 o k2 Hk2) as (k3 & Hk3 & ?). exists k3.
    split; [done|by etrans].
  - by etrans.
Qed.

Lemma Ext_elem_of st st' v : Ext st st' → v ∈ values st → v ∈ values st'.
Proof. intros [[k ->] _ _ _ _ _ _] Hv. apply elem_of_app. by left. Qed.

Lemma elem_of_option_list {A} (o : option A) (x : A) : x ∈ option_list o ↔ o = Some x.
Proof.
  destruct o as [y|]; simpl.
  - rewrite list_elem_of_singleton. split; congruence.
  - split; [by intros ?%elem_of_nil|done].
Qed.

Lemma Ext_values_eq st st' :
  declarativeEnvironmentRecordsBindings st' = declarativeEnvironmentRecordsBindings st →
  globalBindings st' = globalBindings st →
  functionInfos st' = functionInfos st →
  values st' = values st →
  store st' = store st →
  (∀ obj keys, ignoredProperties st !! obj = Some keys →
     ∃ keys', ignoredProperties st' !! obj = Some keys' ∧ keys ⊆ keys') →
  logged st `prefix_of` logged st' →
  Ext st st'.
Proof.
  intros Hd Hg Hf Hv Hs Hi Hl. split; rewrite ?Hd, ?Hg, ?Hf, ?Hv, ?Hs; eauto using store_le_refl.
Qed.

Lemma Ext_logError st val message : Ext st (set_logged (λ l, l ++ [(val, message)]) st).
Proof. apply Ext_values_eq; simpl; eauto. by apply prefix_app_r. Qed.

Lemma Ext_functionBindings st f : Ext st (set_functionBindings f st).
Proof. apply Ext_values_eq; simpl; eauto. Qed.

(** ** The edges are stable as the tables grow *)

Section EdgeFacts.
Context (realm : Realm).

Lemma closedAt_mono infos infos' visited visited' u :
  closedAt realm infos visited u → infos ⊆ infos' →
  (∀ w, w ∈ visited → w ∈ visited') →
  closedAt realm infos' visited' u.
Proof.
  intros [Hknown Hedges] Hinfos Hvisited. split.
  - intros f fp code env res Hd Hf Hcls.
    destruct (Hknown f fp code env res Hd Hf Hcls) as [info Hinfo].
    exists info. by eapply lookup_weaken.
  - intros w Hw. apply Hvisited, Hedges. unfold edge in *.
    destruct (dispatch realm u) eqn:Hd; try done.
    destruct Hw as [Hp|f t th ar Hf Hcls Hin|f fp code env res info name Hf Hcls Hinfo Hname Hcap].
    + by constructor 1.
    + by econstructor 2.
    + destruct (Hknown f fp code env res Hd Hf Hcls) as [info0 Hinfo0].
      assert (info = info0) as ->.
      { eapply lookup_weaken in Hinfo0; [|done]. congruence. }
      by econstructor 3.
Qed.

Lemma Trans_refl st : Trans realm st st.
Proof. split; [apply Ext_refl|]. intros u Hu Hn. done. Qed.

Lemma Trans_trans st1 st2 st3 :
  Trans realm st1 st2 → Trans realm st2 st3 → Trans realm st1 st3.
Proof.
  intros [He1 Hc1] [He2 Hc2]. split; [by eapply Ext_trans|].
  intros u Hu Hn. destruct (decide (u ∈ values st2)) as [Hin|Hout].
  - eapply closedAt_mono; [by apply Hc1|apply He2|]. intros w. by apply Ext_elem_of.
  - by apply Hc2.
Qed.

Lemma Trans_same_values st st' : Ext st st' → values st' = values st → Trans realm st st'.
Proof. intros He Hv. split; [done|]. intros u Hu Hn. by rewrite Hv in Hu. Qed.

Lemma Trans_elem_of st st' v : Trans realm st st' → v ∈ values st → v ∈ values st'.
Proof. intros [He _]. by apply Ext_elem_of. Qed.

Lemma Inv_same st st' :
  declarativeEnvironmentRecordsBindings st' = declarativeEnvironmentRecordsBindings st →
  globalBindings st' = globalBindings st →
  functionInfos st' = functionInfos st →
  values st' = values st →
  store st' = store st →
  Inv realm st → Inv realm st'.
Proof.
  intros Hd Hg Hf Hv Hs [[] []].
  split; split; rewrite ?Hd, ?Hg, ?Hf, ?Hv, ?Hs; done.
Qed.

(** The answer of [_canIgnoreProperty] depends on the heap alone; the state
    only receives the error it may log. *)
Lemma _canIgnoreProperty_pure val key desc :
  ∃ (answer : option bool) (errors : list (vid * string)),
    ∀ st, _canIgnoreProperty realm val key desc st
          = match answer with
            | Some ignore => Done ignore (set_logged (λ l, l ++ errors) st)
            | None => Throw TypeError st
            end.
Proof.
  assert (∀ st, set_logged (λ l, l ++ []) st = st) as Hnil.
  { intros []. unfold set_logged. simpl. by rewrite app_nil_r. }
  unfold _canIgnoreProperty, asObject, when, logError, modify, bind, ret, throw.
  repeat case_match;
    first [ by (eexists None, []; intros st)
          | by (eexists (Some _), []; intros st; rewrite Hnil)
          | by (eexists (Some _), [_]; intros st) ].
Qed.

Lemma _canIgnoreProperty_Done val key desc st ignore st' :
  _canIgnoreProperty realm val key desc st = Done ignore st' →
  ignore = canIgnoreProperty realm val key desc
  ∧ ∃ errors, st' = set_logged (λ l, l ++ errors) st.
Proof.
  destruct (_canIgnoreProperty_pure val key desc) as (answer & errors & Hrun).
  unfold canIgnoreProperty. rewrite !Hrun. destruct answer; [|done].
  intros [= -> <-]. eauto.
Qed.
End EdgeFacts.

(** ** What each method establishes *)

Section Spec.
Context (realm : Realm) (T : Prop) (P : Call → State → Prop) (call : Call → M unit).
Hypothesis P_mono : ∀ c st st', Ext st st' → P c st → P c st'.
Hypothesis call_ok :
  ∀ c st, Pre realm c st → P c st → wp T (call c) (λ _ st', Post realm c st st') st.

Local Abbreviation Allowed := (Allowed P).
Local Abbreviation good := (good realm).

Lemma Allowed_mono st st' : Trans realm st st' → Allowed st → Allowed st'.
Proof. intros [He _] Ha c. by eapply P_mono. Qed.

Lemma wp_seq {A B} (m : M A) (k : A → M B) Q1 Q st :
  wp T m (good st Q1) st →
  (∀ a st1, Trans realm st st1 → Inv realm st1 → Q1 a st1 → wp T (k a) (good st1 Q) st1) →
  wp T (do x <- m; k x) (good st Q) st.
Proof.
  intros Hm Hk. apply wp_bind. eapply wp_mono; [exact Hm|].
  intros a st1 (Ht1 & Hi1 & Hq1). eapply wp_mono; [by apply Hk|].
  intros b st2 (Ht2 & Hi2 & Hq2). split_and!; [by eapply Trans_trans|done..].
Qed.

Lemma wp_good_ret {A} (a : A) (Q : A → State → Prop) st :
  Inv realm st → Q a st → wp T (ret a) (good st Q) st.
Proof. intros. apply wp_ret. split_and!; [apply Trans_refl|done..]. Qed.

Lemma wp_good_mono {A} (m : M A) (Q Q' : A → State → Prop) st :
  wp T m (good st Q) st →
  (∀ a st', Trans realm st st' → Inv realm st' → Q a st' → Q' a st') →
  wp T m (good st Q') st.
Proof.
  intros Hm HQ. eapply wp_mono; [exact Hm|]. intros a st' (? & ? & ?). split_and!; auto.
Qed.

Lemma logError_ok val message st :
  Inv realm st → wp T (logError val message) (good st (λ _ _, True)) st.
Proof.
  intros Hi. apply wp_modify. split_and!; [|by eapply Inv_same; [..|exact Hi]|done].
  apply Trans_same_values; [apply Ext_logError|done].
Qed.

Lemma forEach_ok {A} (l : list A) (body : A → M unit) (Q : A → State → Prop) st :
  (∀ x st1 st2, Q x st1 → Trans realm st1 st2 → Q x st2) →
  (∀ x st1, x ∈ l → Trans realm st st1 → Inv realm st1 →
     wp T (body x) (good st1 (λ _, Q x)) st1) →
  Inv realm st →
  wp T (forEach l body) (good st (λ _ st', ∀ x, x ∈ l → Q x st')) st.
Proof.
  intros HQ. revert st. induction l as [|x l IH]; intros st Hbody Hi; simpl.
  - apply wp_good_ret; [done|]. intros x Hx. by apply elem_of_nil in Hx.
  - eapply wp_seq.
    + apply Hbody; [by left|apply Trans_refl|done].
    + intros [] st1 Ht1 Hi1 Hq1. eapply wp_good_mono.
      * apply IH; [|done]. intros y st2 Hy Ht2 Hi2.
        apply Hbody; [by right|by eapply Trans_trans|done].
      * intros [] st2 Ht2 Hi2 Hq2 y Hy. apply elem_of_cons in Hy as [->|Hy]; eauto.
Qed.

Lemma foldEach_ok {A B} (l : list A) (body : B → A → M B)
    (I : list A → B → State → Prop) acc st :
  (∀ pre x b st1, pre ++ [x] `prefix_of` l → Trans realm st st1 → Inv realm st1 →
     I pre b st1 → wp T (body b x) (good st1 (λ b' st2, I (pre ++ [x]) b' st2)) st1) →
  Inv realm st → I [] acc st →
  wp T (foldEach l body acc) (good st (λ b st', I l b st')) st.
Proof.
  intros Hbody Hi HI.
  cut (∀ rest pre b st1, l = pre ++ rest → Trans realm st st1 → Inv realm st1 → I pre b st1 →
         wp T (foldEach rest body b) (good st1 (λ b' st', I l b' st')) st1).
  { intros H. apply (H l [] acc st); [done|apply Trans_refl|done..]. }
  induction rest as [|x rest IH]; intros pre b st1 Hl Ht1 Hi1 HI1; simpl.
  - apply wp_good_ret; [done|]. by rewrite Hl, app_nil_r.
  - eapply wp_seq.
    + apply (Hbody pre x b st1); [|done..]. rewrite Hl. exists rest. by rewrite <-app_assoc.
    + intros b' st2 Ht2 Hi2 HI2. apply (IH (pre ++ [x])); [|by eapply Trans_trans|done..].
      by rewrite Hl, <-app_assoc.
Qed.

Lemma visit_ok val st :
  Inv realm st → P (VisitValue val) st →
  wp T (call (VisitValue val)) (good st (λ _ st', val ∈ values st')) st.
Proof.
  intros [Hi0 Hb] Ha. eapply wp_mono; [apply call_ok; [|apply Ha]|].
  - split; [done|]. destruct Hb as [Hg Hd]. split.
    + intros key w Hk Hw. destruct (Hg key w Hk Hw) as [?|[=]]. by left.
    + intros r t n w Ht Hn Hw. destruct (Hd r t n w Ht Hn Hw) as [?|[=]]. by left.
  - by intros [] st' (? & ? & ?).
Qed.

Lemma visitComputed_ok absVal st :
  Inv realm st → P (VisitObjectPropertiesWithComputedNames absVal) st →
  wp T (call (VisitObjectPropertiesWithComputedNames absVal))
    (good st (λ _ st', ∀ w, chainValue realm absVal w → w ∈ values st')) st.
Proof.
  intros Hi Ha. eapply wp_mono; [apply call_ok; [|apply Ha]|].
  - by destruct Hi.
  - by intros [] st' (? & ? & ?).
Qed.

Lemma visitOptional_ok (o : option vid) st :
  Inv realm st → Allowed st →
  wp T (match o with Some v => call (VisitValue v) | None => ret tt end)
    (good st (λ _ st', ∀ w, o = Some w → w ∈ values st')) st.
Proof.
  intros Hi Ha. destruct o as [v|].
  - eapply wp_good_mono; [apply visit_ok; [done|apply Ha]|].
    by intros [] st' _ _ Hv w [= <-].
  - by apply wp_good_ret.
Qed.

Lemma visitDescriptor_ok desc st :
  Inv realm st → Allowed st →
  wp T (visitDescriptor call desc)
    (good st (λ _ st', ∀ w, w ∈ descriptorValues desc → w ∈ values st')) st.
Proof.
  intros Hi Ha. unfold visitDescriptor.
  eapply wp_seq; [by apply visitOptional_ok|]. intros [] st1 Ht1 Hi1 H1.
  eapply wp_seq; [apply visitOptional_ok; [done|by eapply Allowed_mono]|].
  intros [] st2 Ht2 Hi2 H2.
  eapply wp_good_mono; [apply visitOptional_ok; [done|]|].
  { eapply Allowed_mono; [exact Ht2|]. by eapply Allowed_mono. }
  intros [] st3 Ht3 Hi3 H3 w Hw. unfold descriptorValues in Hw.
  rewrite !elem_of_app, !elem_of_option_list in Hw. destruct Hw as [Hw|[Hw|Hw]].
  - eapply Trans_elem_of; [done|]. eapply Trans_elem_of; [done|]. auto.
  - eapply Trans_elem_of; [done|]. auto.
  - auto.
Qed.

Lemma asObject_ok {B} val (k : ObjectValue.t → M B) Q st :
  (∀ o, objectOf realm val = Some o → wp T (k o) Q st) →
  wp T (do o <- asObject realm val; k o) Q st.
Proof.
  intros Hk. apply wp_bind. unfold asObject. destruct (objectOf realm val) as [o|]; [|done].
  apply wp_ret. by apply Hk.
Qed.

Lemma visitObjectPrototype_ok obj st :
  Inv realm st → Allowed st →
  wp T (visitObjectPrototype realm call obj)
    (good st (λ _ st', ∀ o, objectOf realm obj = Some o →
       intrinsics realm !! String.append (ObjectValue.getKind o) "Prototype"
       ≠ Some (ObjectValue.Prototype o) →
       ObjectValue.Prototype o ∈ values st')) st.
Proof.
  intros Hi Ha. unfold visitObjectPrototype. apply asObject_ok. intros o Ho.
  case_bool_decide as Hproto.
  - apply wp_good_ret; [done|]. intros o' Ho' Hne. congruence.
  - eapply wp_good_mono; [apply visit_ok; [done|apply Ha]|].
    intros [] st' _ _ Hv o' Ho' _. congruence.
Qed.

Lemma visitConstructorPrototype_ok func st :
  Inv realm st → Allowed st →
  wp T (visitConstructorPrototype realm call func)
    (good st (λ _ st', ∀ o w p, objectOf realm func = Some o →
       getPropertyValue o "prototype" = Some w → objectOf realm w = Some p →
       ObjectValue.originalConstructor p = Some func → isDefaultPrototype realm p = false →
       w ∈ values st')) st.
Proof.
  intros Hi Ha. unfold visitConstructorPrototype. apply asObject_ok. intros o Ho.
  destruct (getPropertyValue o "prototype") as [prototype|] eqn:Hget.
  2:{ apply wp_good_ret; [done|]. intros o' w p Ho'. rewrite Ho in Ho'.
      injection Ho' as <-. by rewrite Hget. }
  destruct (objectOf realm prototype) as [p|] eqn:Hp.
  2:{ apply wp_good_ret; [done|]. intros o' w p Ho'. rewrite Ho in Ho'.
      injection Ho' as <-. rewrite Hget. intros [= <-]. by rewrite Hp. }
  destruct (bool_decide _ && _) eqn:Hcond.
  - eapply wp_good_mono; [apply visit_ok; [done|apply Ha]|].
    intros [] st' _ _ Hv o' w p' Ho'.
    rewrite Ho in Ho'. injection Ho' as <-. rewrite Hget. by intros [= <-].
  - apply wp_good_ret; [done|]. intros o' w p' Ho'. rewrite Ho in Ho'.
    injection Ho' as <-. rewrite Hget. intros [= <-]. rewrite Hp. intros [= <-] Hc Hd.
    rewrite Hd, bool_decide_eq_true_2 in Hcond; done.
Qed.

Lemma _canIgnoreProperty_ok val key desc st :
  Inv realm st →
  wp T (_canIgnoreProperty realm val key desc)
    (good st (λ ignore _, ignore = canIgnoreProperty realm val key desc)) st.
Proof.
  intros Hi. unfold wp.
  destruct (_canIgnoreProperty realm val key desc st) as [ignore st'| |] eqn:Hrun.
  - apply _canIgnoreProperty_Done in Hrun as [-> [errors ->]]. split_and!; [|..|done].
    + apply Trans_same_values; [|done]. apply Ext_values_eq; simpl; eauto.
      by apply prefix_app_r.
    + by eapply Inv_same; [..|exact Hi].
  - done.
  - destruct (_canIgnoreProperty_pure realm val key desc) as ([?|] & errors & Hpure);
      by rewrite Hpure in Hrun.
Qed.

Lemma visitObjectProperty_ok obj entry st :
  Inv realm st → Allowed st →
  wp T (visitObjectProperty realm call obj entry)
    (good st (λ _ st', ∀ desc w,
       PropertyBinding.descriptor entry.2 = Some desc →
       canIgnoreProperty realm obj entry.1 desc = false →
       w ∈ descriptorValues desc → w ∈ values st')) st.
Proof.
  intros Hi Ha. destruct entry as [key propertyBinding]. simpl.
  destruct (PropertyBinding.descriptor propertyBinding) as [desc|]; [|by apply wp_good_ret].
  eapply wp_seq; [by apply _canIgnoreProperty_ok|]. intros ignore st1 Ht1 Hi1 ->.
  destruct (canIgnoreProperty realm obj key desc) eqn:Hignore.
  - apply wp_modify. split_and!.
    + apply Trans_same_values; [|done]. apply Ext_values_eq; simpl; eauto.
      intros o keys Hk. destruct (decide (o = obj)) as [->|Hne].
      * rewrite lookup_insert_eq. rewrite Hk. simpl. eexists. split; [done|]. set_solver.
      * rewrite lookup_insert_ne by done. eauto.
    + by eapply Inv_same; [..|exact Hi1].
    + intros desc' w [= <-]. congruence.
  - eapply wp_good_mono; [apply visitDescriptor_ok; [done|by eapply Allowed_mono]|].
    intros [] st2 _ _ H2 desc' w [= <-] _. apply H2.
Qed.

Lemma visitObjectProperties_ok obj st :
  Inv realm st → Allowed st →
  wp T (visitObjectProperties realm call obj)
    (good st (λ _ st', ∀ w, propertyTarget realm obj w → w ∈ values st')) st.
Proof.
  intros Hi Ha. unfold visitObjectProperties. apply asObject_ok. intros o Ho.
  eapply wp_seq.
  { apply (forEach_ok _ _ (λ entry st', ∀ desc w,
      PropertyBinding.descriptor entry.2 = Some desc →
      canIgnoreProperty realm obj entry.1 desc = false →
      w ∈ descriptorValues desc → w ∈ values st')); [| |done].
    - intros x st1 st2 Hq Ht desc w Hd Hc Hw. eapply Trans_elem_of; eauto.
    - intros x st1 Hx Ht1 Hi1. apply visitObjectProperty_ok; [done|by eapply Allowed_mono]. }
  intros [] st1 Ht1 Hi1 H1.
  eapply wp_seq.
  { instantiate (1 := λ _ st', ∀ unknownProperty desc val w,
      ObjectValue.unknownProperty o = Some unknownProperty →
      PropertyBinding.descriptor unknownProperty = Some desc →
      Descriptor.value desc = Some val → chainValue realm val w → w ∈ values st').
    destruct (ObjectValue.unknownProperty o) as [up|]; [|by apply wp_good_ret].
    destruct (PropertyBinding.descriptor up) as [desc|] eqn:Hdesc.
    2:{ apply wp_good_ret; [done|]. intros up' ? ? ? [= <-]. congruence. }
    destruct (Descriptor.value desc) as [val|] eqn:Hval; [|apply wp_throw].
    apply wp_bind, wp_invariant. intros Habs.
    eapply wp_good_mono.
    - apply visitComputed_ok; [done|]. eapply Allowed_mono; [exact Ht1|done].
    - intros [] st2 _ _ H2 up' desc' val' w [= <-]. rewrite Hdesc. intros [= <-].
      rewrite Hval. intros [= <-]. apply H2. }
  intros [] st2 Ht2 Hi2 H2.
  assert (Allowed st2) as Ha2 by eauto using Allowed_mono.
  eapply wp_seq; [by apply visitObjectPrototype_ok|]. intros [] st3 Ht3 Hi3 H3.
  assert (Allowed st3) as Ha3 by eauto using Allowed_mono.
  apply wp_when.
  - intros Hfun. eapply wp_good_mono; [by apply visitConstructorPrototype_ok|].
    intros [] st4 Ht4 Hi4 H4 w Hw.
    destruct Hw as [o' key pb desc Ho' Hin Hd Hc Hw|o' up desc val Ho' Hup Hd Hv Hw
                   |o' Ho' Hne ->|o' p Ho' _ Hget Hp Hc Hd];
      rewrite Ho in Ho'; injection Ho' as <-.
    + do 3 (eapply Trans_elem_of; [eassumption|]). by eapply (H1 (key, pb)).
    + do 2 (eapply Trans_elem_of; [eassumption|]). by eapply H2.
    + eapply Trans_elem_of; [eassumption|]. by eapply H3.
    + by eapply H4.
  - intros Hfun. unfold good. split_and!; [apply Trans_refl|done|]. intros w Hw.
    destruct Hw as [o' key pb desc Ho' Hin Hd Hc Hw|o' up desc val Ho' Hup Hd Hv Hw
                   |o' Ho' Hne ->|o' p Ho' Hf Hget Hp Hc Hd].
    4:{ congruence. }
    all: rewrite Ho in Ho'; injection Ho' as <-.
    + do 2 (eapply Trans_elem_of; [eassumption|]). by eapply (H1 (key, pb)).
    + eapply Trans_elem_of; [eassumption|]. by eapply H2.
    + by eapply H3.
Qed.

Lemma visitObjectPropertiesWithComputedNames_ok absVal st :
  Inv realm st → (∀ v, P (VisitValue v) st) →
  (∀ operand, chainOperand realm absVal operand →
     P (VisitObjectPropertiesWithComputedNames operand) st) →
  wp T (visitObjectPropertiesWithComputedNames realm call absVal)
    (good st (λ _ st', ∀ w, chainValue realm absVal w → w ∈ values st')) st.
Proof.
  intros Hi Hpv Hpc. unfold visitObjectPropertiesWithComputedNames.
  destruct (abstractOf realm absVal) as [a|] eqn:Ha; [|apply wp_throw].
  apply wp_bind, wp_invariant. intros Hlen%bool_decide_eq_true.
  destruct (AbstractValue.args a) as [|cond [|x [|y [|]]]] eqn:Hargs; try done. simpl.
  destruct (abstractOf realm cond) as [c|] eqn:Hc; [|apply wp_throw].
  assert (∀ st', Trans realm st st' → ∀ v, P (VisitValue v) st') as Hpv'.
  { intros st' [He _] v. by eapply P_mono. }
  assert (∀ st' operand, Trans realm st st' → operand ∈ [x; y] →
            instanceof_AbstractValue realm operand = true →
            P (VisitObjectPropertiesWithComputedNames operand) st') as Hpc'.
  { intros st' operand [He _] Hin Habs. eapply P_mono; [done|]. apply Hpc.
    exists a. rewrite Hargs. split_and!; [done| |done]. by right. }
  case_bool_decide as Hkind.
  - destruct (AbstractValue.args c !! 0) as [Pn|] eqn:HP; [|apply wp_throw].
    apply wp_bind, wp_invariant. intros HPabs.
    eapply wp_seq.
    { instantiate (1 := λ _ st', instanceof_AbstractValue realm y = true →
        ∀ w, chainValue realm y w → w ∈ values st').
      apply wp_when; intros Hy.
      - eapply wp_good_mono; [apply visitComputed_ok; [done|]|].
        + apply Hpc; exists a. rewrite Hargs. split_and!; [done| |done]. set_solver.
        + by intros [] st1 _ _ H1 _.
      - unfold good. split_and!; [apply Trans_refl|done|congruence]. }
    intros [] st1 Ht1 Hi1 H1.
    eapply wp_seq; [apply visit_ok; [done|by apply Hpv']|]. intros [] st2 Ht2 Hi2 H2.
    eapply wp_good_mono; [apply visit_ok; [done|]|].
    { apply Hpv'. by eapply Trans_trans. }
    intros [] st3 Ht3 Hi3 H3 w Hw.
    inversion Hw as [? a' ? ? ? c' ? Ha' Hargs' Hc' Hk' HP'|? a' ? ? ? c' Ha' Hargs' Hc' Hk'
                    |? a' ? ? ? c' ? Ha' Hargs' Hc' Hk' Hy Hw'
                    |? a' ? ? ? c' Ha' Hargs' Hc' Hk'|? a' ? ? ? c' ? ? Ha' Hargs' Hc' Hk'];
      subst; rewrite Ha in Ha'; injection Ha' as <-; rewrite Hargs in Hargs';
      injection Hargs' as <- <- <-; rewrite Hc in Hc'; injection Hc' as <-;
      try done.
    + rewrite HP in HP'. injection HP' as <-. by eapply Trans_elem_of.
    + do 2 (eapply Trans_elem_of; [eassumption|]). by apply H1.
  - eapply wp_seq; [apply visit_ok; [done|by apply Hpv]|]. intros [] st1 Ht1 Hi1 H1.
    apply wp_bind, wp_invariant. intros Hx. apply wp_bind, wp_invariant. intros Hy.
    eapply wp_seq.
    { apply visitComputed_ok; [done|]. apply Hpc'; [done|set_solver|done]. }
    intros [] st2 Ht2 Hi2 H2.
    eapply wp_good_mono.
    { apply visitComputed_ok; [done|]. apply Hpc'; [by eapply Trans_trans|set_solver|done]. }
    intros [] st3 Ht3 Hi3 H3 w Hw.
    inversion Hw as [? a' ? ? ? c' ? Ha' Hargs' Hc' Hk' HP'|? a' ? ? ? c' Ha' Hargs' Hc' Hk'
                    |? a' ? ? ? c' ? Ha' Hargs' Hc' Hk' Hy' Hw'
                    |? a' ? ? ? c' Ha' Hargs' Hc' Hk'
                    |? a' ? ? ? c' branch ? Ha' Hargs' Hc' Hk' Hbranch Hw'];
      subst; rewrite Ha in Ha'; injection Ha' as <-; rewrite Hargs in Hargs';
      injection Hargs' as <- <- <-; rewrite Hc in Hc'; injection Hc' as <-;
      try done.
    + do 2 (eapply Trans_elem_of; [eassumption|]). done.
    + apply elem_of_cons in Hbranch as [->|Hbranch].
      * eapply Trans_elem_of; [eassumption|]. by apply H2.
      * apply list_elem_of_singleton in Hbranch as ->. by apply H3.
Qed.


Lemma wp_newVisitedBinding {B} binding (k : bref → M B) Q st :
  wp T (k (length (store st))) Q (set_store (λ s, s ++ [binding]) st) →
  wp T (do b <- newVisitedBinding binding; k b) Q st.
Proof. intros Hk. by apply wp_bind. Qed.

Lemma store_le_app s binding : store_le s (s ++ [binding]).
Proof. intros i b Hb. exists b. split_and!; [by apply lookup_app_l_Some|done..]. Qed.

Lemma global_alloc st key :
  Inv realm st → globalBindings st !! key = None →
  let binding := VisitedBinding.mk true (getGlobalLetBinding realm key) true None in
  let st' := set_globalBindings <[key := length (store st)]>
               (set_store (λ s, s ++ [binding]) st) in
  Trans realm st st' ∧ Inv0 realm st' ∧ Bound realm (getGlobalLetBinding realm key) st'.
Proof.
  intros [[Hv Hg Hd Hf] [Hbg Hbd]] Hnone binding st'. split_and!.
  - apply Trans_same_values; [|done]. split; simpl; eauto using store_le_app.
    by apply insert_subseteq.
  - split; simpl; [done| | |done].
    + intros key' b Hb. destruct (decide (key = key')) as [<-|Hne].
      * rewrite lookup_insert_eq in Hb. injection Hb as <-. exists binding.
        by rewrite lookup_app_r, Nat.sub_diag.
      * rewrite lookup_insert_ne in Hb by done.
        destruct (Hg key' b Hb) as (vb & Hvb & ?). exists vb.
        split; [by apply lookup_app_l_Some|done].
    + intros r table n b Ht Hn. destruct (Hd r table n b Ht Hn) as (vb & Hvb & ?).
      exists vb. split; [by apply lookup_app_l_Some|done].
  - split; simpl.
    + intros key' w Hk Hw. destruct (decide (key = key')) as [<-|Hne]; [by right|].
      rewrite lookup_insert_ne in Hk by done. destruct (Hbg key' w Hk Hw) as [?|[=]].
      by left.
    + intros r table n w Ht Hn Hw. destruct (Hbd r table n w Ht Hn Hw) as [?|[=]]. by left.
Qed.

Lemma visitPending_ok (pending : option vid) st :
  Inv0 realm st → Bound realm pending st → Allowed st →
  wp T (match pending with Some v => call (VisitValue v) | None => ret tt end)
    (good st (λ _ _, True)) st.
Proof.
  intros Hi0 Hb Ha. destruct pending as [v|].
  - eapply wp_mono; [apply call_ok; [done|apply Ha]|]. by intros [] st' (? & ? & ?).
  - apply wp_ret. split_and!; [apply Trans_refl|done..].
Qed.

Lemma visitGlobalBinding_ok key st :
  Inv realm st → Allowed st →
  wp T (visitGlobalBinding realm call key)
    (good st (λ b st', globalBindings st' !! key = Some b)) st.
Proof.
  intros Hi Ha. unfold visitGlobalBinding. apply wp_bind, wp_gets.
  destruct (globalBindings st !! key) as [b|] eqn:Hkey; [by apply wp_good_ret|].
  apply wp_newVisitedBinding, wp_bind, wp_modify.
  destruct (global_alloc st key Hi Hkey) as (Ht & Hi0 & Hb). simpl in *.
  apply wp_bind. eapply wp_mono.
  { apply visitPending_ok; [done..|]. by eapply Allowed_mono. }
  intros [] st' (Ht' & Hi' & _). apply wp_ret. split_and!; [by eapply Trans_trans|done|].
  destruct Ht' as [He _]. eapply lookup_weaken; [|apply He]. simpl. apply lookup_insert_eq.
Qed.

Lemma declarative_ensure st r :
  Inv realm st →
  let st' := set_declarativeEnvironmentRecordsBindings (λ table,
               match table !! r with Some _ => table | None => <[r := ∅]> table end) st in
  Trans realm st st' ∧ Inv realm st'
  ∧ is_Some (declarativeEnvironmentRecordsBindings st' !! r).
Proof.
  intros Hi st'. subst st'. unfold set_declarativeEnvironmentRecordsBindings.
  destruct (declarativeEnvironmentRecordsBindings st !! r) as [t|] eqn:Hr.
  { destruct st; simpl in *. split_and!; [apply Trans_refl|done|by rewrite Hr]. }
  destruct Hi as [[Hv Hg Hd Hf] [Hbg Hbd]]. split_and!; simpl.
  - apply Trans_same_values; [|done]. split; simpl; eauto using store_le_refl.
    intros r' t Ht. destruct (decide (r = r')) as [<-|Hne]; [congruence|].
    rewrite lookup_insert_ne by done. eauto.
  - split; split; simpl; try done.
    + intros r' t n b Ht Hn. destruct (decide (r = r')) as [<-|Hne].
      * rewrite lookup_insert_eq in Ht. injection Ht as <-. by rewrite lookup_empty in Hn.
      * rewrite lookup_insert_ne in Ht by done. eauto.
    + intros r' t n w Ht Hn. destruct (decide (r = r')) as [<-|Hne].
      * rewrite lookup_insert_eq in Ht. injection Ht as <-. rewrite lookup_empty in Hn.
        by destruct Hn.
      * rewrite lookup_insert_ne in Ht by done. eauto.
  - by rewrite lookup_insert_eq.
Qed.

Lemma declarative_alloc st r n table value :
  Inv realm st → declarativeEnvironmentRecordsBindings st !! r = Some table →
  table !! n = None → declarativeValue realm r n = Some value →
  let binding := VisitedBinding.mk false (Some value) false (Some r) in
  let st' := set_declarativeEnvironmentRecordsBindings (λ tables,
               <[r := <[n := length (store st)]> (default ∅ (tables !! r))]> tables)
               (set_store (λ s, s ++ [binding]) st) in
  Trans realm st st' ∧ Inv0 realm st' ∧ Bound realm (Some value) st'.
Proof.
  intros [[Hv Hg Hd Hf] [Hbg Hbd]] Hr Hn Hvalue binding st'. split_and!.
  - apply Trans_same_values; [|done]. split; simpl; eauto using store_le_app.
    intros r' t Ht. destruct (decide (r = r')) as [<-|Hne].
    + rewrite lookup_insert_eq. eexists. split; [done|]. rewrite Hr in *. simpl.
      injection Ht as <-. by apply insert_subseteq.
    + rewrite lookup_insert_ne by done. eauto.
  - split; simpl; [done| | |done].
    + intros key b Hb. destruct (Hg key b Hb) as (vb & Hvb & ?). exists vb.
      split; [by apply lookup_app_l_Some|done].
    + intros r' t n' b Ht Hn'. destruct (decide (r = r')) as [<-|Hne].
      * rewrite lookup_insert_eq, Hr in Ht. simpl in Ht. injection Ht as <-.
        destruct (decide (n = n')) as [<-|Hnn].
        -- rewrite lookup_insert_eq in Hn'. injection Hn' as <-. exists binding.
           by rewrite lookup_app_r, Nat.sub_diag.
        -- rewrite lookup_insert_ne in Hn' by done.
           destruct (Hd r table n' b Hr Hn') as (vb & Hvb & ?). exists vb.
           split; [by apply lookup_app_l_Some|done].
      * rewrite lookup_insert_ne in Ht by done.
        destruct (Hd r' t n' b Ht Hn') as (vb & Hvb & ?). exists vb.
        split; [by apply lookup_app_l_Some|done].
  - split; simpl.
    + intros key w Hk Hw. destruct (Hbg key w Hk Hw) as [?|[=]]. by left.
    + intros r' t n' w Ht Hn' Hw. destruct (decide (r = r')) as [<-|Hne].
      * rewrite lookup_insert_eq, Hr in Ht. simpl in Ht. injection Ht as <-.
        destruct (decide (n = n')) as [<-|Hnn]; [right; congruence|].
        rewrite lookup_insert_ne in Hn' by done.
        destruct (Hbd r table n' w Hr Hn' Hw) as [?|[=]]. by left.
      * rewrite lookup_insert_ne in Ht by done.
        destruct (Hbd r' t n' w Ht Hn' Hw) as [?|[=]]. by left.
Qed.

Lemma visitDeclarativeEnvironmentRecordBinding_ok r n st :
  Inv realm st → Allowed st →
  wp T (visitDeclarativeEnvironmentRecordBinding realm call r n)
    (good st (λ b st', ∃ table, declarativeEnvironmentRecordsBindings st' !! r = Some table
                                ∧ table !! n = Some b)) st.
Proof.
  intros Hi Ha. unfold visitDeclarativeEnvironmentRecordBinding.
  apply wp_bind, wp_modify.
  destruct (declarative_ensure st r Hi) as (Ht1 & Hi1 & [table Htable]).
  set (st1 := set_declarativeEnvironmentRecordsBindings _ st) in *.
  apply wp_bind, wp_gets. rewrite Htable. simpl.
  destruct (table !! n) as [b|] eqn:Hn.
  { apply wp_ret. split_and!; [done..|]. eauto. }
  pose proof (eq_refl : declarativeValue realm r n = declarativeValue realm r n) as Hvalue.
  unfold declarativeValue at 1 in Hvalue.
  destruct (default ∅ (bindings realm !! r) !! n) as [binding|]; [|apply wp_throw].
  apply wp_bind, wp_invariant. intros _. symmetry in Hvalue.
  apply wp_newVisitedBinding, wp_bind, wp_modify.
  destruct (declarative_alloc st1 r n table _ Hi1 Htable Hn Hvalue) as (Ht2 & Hi2 & Hb2).
  simpl in *. apply wp_bind. eapply wp_mono.
  { apply call_ok; [done|]. eapply P_mono; [|apply Ha].
    eapply Ext_trans; [apply Ht1|apply Ht2]. }
  intros [] st' (Ht' & Hi' & _). apply wp_ret.
  split_and!; [eapply Trans_trans; [done|]; by eapply Trans_trans|done|].
  destruct Ht' as [He _]. destruct (ext_declarative _ _ He r _ ltac:(apply lookup_insert_eq))
    as (table' & Htable' & Hsub).
  exists table'. split; [done|]. eapply lookup_weaken; [|done]. apply lookup_insert_eq.
Qed.


Lemma resolvesTo_mono st st' Environment innerName b :
  Ext st st' → resolvesTo realm st Environment innerName b →
  resolvesTo realm st' Environment innerName b.
Proof.
  intros He. unfold resolvesTo.
  destruct (tryResolveBinding realm innerName Environment) as [reference|].
  - destruct (Reference.referencedName reference); [|done].
    destruct (Reference.base reference); try done.
    + intros H. eapply lookup_weaken; [done|apply He].
    + intros (table & Ht & Hn). destruct (ext_declarative _ _ He _ _ Ht) as (t' & Ht' & Hsub).
      exists t'. split; [done|]. by eapply lookup_weaken.
  - intros H. eapply lookup_weaken; [done|apply He].
Qed.

Lemma isModified_mono st st' b : Ext st st' → isModified st b → isModified st' b.
Proof.
  intros He (vb & Hvb & Hm). destruct (ext_store _ _ He _ _ Hvb) as (vb' & ? & _ & _ & _ & Hm').
  exists vb'. auto.
Qed.

Lemma resolvesTo_store st Environment innerName b :
  Inv realm st → resolvesTo realm st Environment innerName b → is_Some (store st !! b).
Proof.
  intros [[_ Hg Hd _] _]. unfold resolvesTo.
  destruct (tryResolveBinding realm innerName Environment) as [reference|].
  - destruct (Reference.referencedName reference); [|done].
    destruct (Reference.base reference); try done.
    + intros H. destruct (Hg _ _ H) as (vb & -> & _). eauto.
    + intros (table & Ht & Hn). destruct (Hd _ _ _ _ Ht Hn) as (vb & -> & _). eauto.
  - intros H. destruct (Hg _ _ H) as (vb & -> & _). eauto.
Qed.

Lemma setModified_ok b st :
  Inv realm st →
  wp T (setModified b) (good st (λ _ st', is_Some (store st !! b) → isModified st' b)) st.
Proof.
  intros Hi. apply wp_modify. unfold set_store. destruct (store st !! b) as [vb|] eqn:Hb.
  2:{ destruct st; simpl in *. split_and!; [apply Trans_refl|done|]. by intros [? ?]. }
  assert (store_le (store st) (<[b := VisitedBinding.mk (VisitedBinding.global vb)
            (VisitedBinding.value vb) true (VisitedBinding.declarativeEnvironmentRecord vb)]>
            (store st))) as Hle.
  { intros i vb' Hi'. destruct (decide (i = b)) as [Heq|Hne]; [subst i|].
    - rewrite list_lookup_insert_eq by by eapply lookup_lt_Some. eexists. split; [done|].
      assert (vb' = vb) as -> by congruence. done.
    - rewrite list_lookup_insert_ne by done. by exists vb'. }
  split_and!.
  - apply Trans_same_values; [|done]. by split; simpl; eauto.
  - destruct Hi as [[Hv Hg Hd Hf] [Hbg Hbd]]. split; split; simpl; try done.
    + intros key b' Hb'. destruct (Hg key b' Hb') as (vb' & Hvb' & Hgl & Hm & Hval & Hrec).
      destruct (Hle _ _ Hvb') as (vb'' & ? & ? & ? & ? & ?). exists vb''.
      split_and!; [done|congruence|auto|congruence..].
    + intros r t n b' Ht Hn. destruct (Hd r t n b' Ht Hn) as (vb' & Hvb' & Hgl & Hval & Hrec).
      destruct (Hle _ _ Hvb') as (vb'' & ? & ? & ? & ? & ?). exists vb''.
      split_and!; [done|congruence..].
  - intros _.
    exists (VisitedBinding.mk (VisitedBinding.global vb) (VisitedBinding.value vb) true
              (VisitedBinding.declarativeEnvironmentRecord vb)).
    split; [|done]. simpl. apply list_lookup_insert_eq. by eapply lookup_lt_Some.
Qed.

Lemma visitFunctionBinding_ok Environment functionInfo visitedBindings innerName st :
  Inv realm st → Allowed st →
  wp T (visitFunctionBinding realm call Environment functionInfo visitedBindings innerName)
    (good st (λ visitedBindings' st', ∃ b,
       visitedBindings' = <[innerName := b]> visitedBindings
       ∧ resolvesTo realm st' Environment innerName b
       ∧ (innerName ∈ FunctionInfo.modified functionInfo → isModified st' b)
       ∧ ∀ w, capturedValue realm Environment innerName = Some w → w ∈ values st')) st.
Proof.
  intros Hi Ha. unfold visitFunctionBinding.
  eapply wp_seq.
  { instantiate (1 := λ b st', resolvesTo realm st' Environment innerName b
      ∧ ∀ w, capturedValue realm Environment innerName = Some w → w ∈ values st').
    unfold resolvesTo, capturedValue.
    destruct (tryResolveBinding realm innerName Environment) as [reference|].
    - apply wp_bind, wp_invariant. intros Hres%negb_true_iff. rewrite Hres.
      destruct (Reference.referencedName reference) as [n|]; [|apply wp_throw].
      destruct (Reference.base reference) as [| |r|]; try apply wp_throw.
      + eapply wp_good_mono; [by apply visitGlobalBinding_ok|].
        intros b st' _ [_ [Hbg _]] Hb. split; [done|]. intros w Hw.
        destruct (Hbg n w ltac:(eauto) Hw) as [?|[=]]. done.
      + eapply wp_good_mono; [by apply visitDeclarativeEnvironmentRecordBinding_ok|].
        intros b st' _ [_ [_ Hbd]] (table & Ht & Hb). split; [eauto|]. intros w Hw.
        destruct (Hbd r table n w Ht ltac:(eauto) Hw) as [?|[=]]. done.
    - eapply wp_good_mono; [by apply visitGlobalBinding_ok|].
      intros b st' _ [_ [Hbg _]] Hb. split; [done|]. intros w Hw.
      destruct (Hbg innerName w ltac:(eauto) Hw) as [?|[=]]. done. }
  intros b st1 Ht1 Hi1 [Hres Hcap].
  eapply wp_seq.
  { instantiate (1 := λ _ st', innerName ∈ FunctionInfo.modified functionInfo → isModified st' b).
    apply wp_when.
    - intros _. eapply wp_good_mono; [by apply setModified_ok|].
      intros [] st2 _ _ Hm _. apply Hm. by eapply resolvesTo_store.
    - intros Hf%bool_decide_eq_false. by split_and!; [apply Trans_refl|..]. }
  intros [] st2 Ht2 Hi2 Hm. apply wp_good_ret; [done|]. exists b. split_and!; [done| |done|].
  - eapply resolvesTo_mono; [apply Ht2|done].
  - intros w Hw. eapply Trans_elem_of; eauto.
Qed.


Lemma wp_good_from {A} st st1 (m : M A) Q :
  Trans realm st st1 → wp T m (good st1 Q) st1 → wp T m (good st Q) st1.
Proof.
  intros Ht Hm. eapply wp_mono; [exact Hm|]. intros a st2 (? & ? & ?).
  split_and!; [by eapply Trans_trans|done..].
Qed.

Lemma captures_mono st st' Environment functionInfo names table :
  Ext st st' → captures realm st Environment functionInfo names table →
  captures realm st' Environment functionInfo names table.
Proof.
  intros He [Hdom Hres]. split; [done|]. intros name b Hb.
  destruct (Hres name b Hb) as [? ?]. split; [by eapply resolvesTo_mono|].
  intros ?. eapply isModified_mono; eauto.
Qed.

Lemma functionInfo_ok val f formalParameters code Environment isResidual st :
  functionOf realm val = Some f →
  FunctionValue.cls f = ECMAScriptFunction formalParameters (Some code) Environment isResidual →
  Inv realm st → functionInfos st !! code = None →
  let st' := set_functionInfos <[code := ClosureRefVisitor realm val]> st in
  Trans realm st st' ∧ Inv realm st'.
Proof.
  intros Hf Hcls [[Hv Hg Hd Hfi] [Hbg Hbd]] Hnone st'. split.
  - apply Trans_same_values; [|done]. split; simpl; eauto using store_le_refl.
    by apply insert_subseteq.
  - split; split; simpl; try done.
    intros code' info Hinfo. destruct (decide (code = code')) as [<-|Hne].
    + rewrite lookup_insert_eq in Hinfo. injection Hinfo as <-.
      by exists val, f, formalParameters, Environment, isResidual.
    + rewrite lookup_insert_ne in Hinfo by done. eauto.
Qed.

Lemma visitValueFunction_ok val st :
  Inv realm st → Allowed st →
  wp T (visitValueFunction realm call val)
    (good st (λ _ st',
       (∀ w, functionTarget realm (functionInfos st') val w → w ∈ values st')
       ∧ captured realm st' val)) st.
Proof.
  intros Hi Ha. unfold visitValueFunction.
  eapply wp_seq; [by apply visitObjectProperties_ok|]. intros [] st1 Ht1 Hi1 H1.
  assert (Allowed st1) as Ha1 by eauto using Allowed_mono.
  destruct (functionOf realm val) as [f|] eqn:Hf; simpl; [|apply wp_throw].
  destruct (FunctionValue.cls f) as [fp code env res|target this args|] eqn:Hcls.
  - apply wp_bind, wp_invariant. intros _.
    destruct code as [code|]; [|apply wp_throw].
    eapply wp_seq.
    { instantiate (1 := λ info st', functionInfos st' !! code = Some info).
      unfold getFunctionInfo. apply wp_bind, wp_gets.
      destruct (functionInfos st1 !! code) as [info|] eqn:Hmemo; [by apply wp_good_ret|].
      apply wp_bind, wp_modify.
      destruct (functionInfo_ok val f fp code env res st1 Hf Hcls Hi1 Hmemo) as [Ht2 Hi2].
      simpl in Ht2, Hi2. apply (wp_good_from st1 _); [done|].
      eapply wp_seq.
      { apply wp_when; [intros _; by apply logError_ok|].
        intros _. by split_and!; [apply Trans_refl|..]. }
      intros [] st3 [He3 _] Hi3 _. apply wp_good_ret; [done|].
      eapply lookup_weaken; [|apply He3]. simpl. apply lookup_insert_eq. }
    intros info st2 Ht2 Hi2 Hinfo. simpl in Hinfo.
    assert (Allowed st2) as Ha2 by eauto using Allowed_mono.
    eapply wp_seq.
    { apply (foldEach_ok _ _ (λ pre table st',
        captures realm st' env info pre table
        ∧ ∀ name w, name ∈ pre → capturedValue realm env name = Some w → w ∈ values st'));
        [|done|].
      - intros pre x table st3 Hpre Ht3 Hi3 [[Hdom Hres] Hvals].
        eapply wp_good_mono.
        { apply visitFunctionBinding_ok; [done|by eapply Allowed_mono]. }
        intros table' st4 Ht4 Hi4 (b & -> & Hb & Hm & Hw). split; [split|].
        + intros name. rewrite elem_of_app, list_elem_of_singleton, Hdom.
          destruct (decide (x = name)) as [<-|Hne].
          * rewrite lookup_insert_eq. split; eauto.
          * rewrite lookup_insert_ne by done.
            split; [intros [?|?]; [done|congruence]|by left].
        + intros name b' Hb'. destruct (decide (x = name)) as [<-|Hne].
          * rewrite lookup_insert_eq in Hb'. by injection Hb' as <-.
          * rewrite lookup_insert_ne in Hb' by done. destruct (Hres name b' Hb') as [? ?].
            split; [eapply resolvesTo_mono; [apply Ht4|done]|].
            intros ?. eapply isModified_mono; [apply Ht4|auto].
        + intros name w [Hin| ->%list_elem_of_singleton]%elem_of_app Hc; [|by apply Hw].
          eapply Trans_elem_of; eauto.
      - split; [split|].
        + intros name. rewrite lookup_empty. split; [by intros ?%elem_of_nil|by intros [? ?]].
        + intros name b. by rewrite lookup_empty.
        + by intros name w ?%elem_of_nil. }
    intros table st3 Ht3 Hi3 [Hcap Hvals]. apply wp_modify.
    assert (functionInfos st3 !! code = Some info) as Hinfo3.
    { eapply lookup_weaken; [done|apply Ht3]. }
    split_and!.
    + apply Trans_same_values; [apply Ext_functionBindings|done].
    + by eapply Inv_same; [..|exact Hi3].
    + simpl. intros w [Hp|f' ? ? ? Hf' Hcls' _
                      |f' fp' code' env' res' info' name Hf' Hcls' Hinfo' Hname Hcv].
      * do 2 (eapply Trans_elem_of; [eassumption|]). by apply H1.
      * congruence.
      * rewrite Hf in Hf'. injection Hf' as <-. rewrite Hcls in Hcls'.
        injection Hcls' as <- <- <- <-. rewrite Hinfo3 in Hinfo'. injection Hinfo' as <-.
        by eapply Hvals.
    + intros f' fp' code' env' res' Hf' Hcls'. rewrite Hf in Hf'. injection Hf' as <-.
      rewrite Hcls in Hcls'. injection Hcls' as <- <- <- <-. exists info, table. simpl.
      split_and!; [done|apply lookup_insert_eq|].
      eapply captures_mono; [apply Ext_functionBindings|done].
  - eapply wp_seq; [apply visit_ok; [done|apply Ha1]|]. intros [] st2 Ht2 Hi2 H2.
    assert (Allowed st2) as Ha2 by eauto using Allowed_mono.
    eapply wp_seq; [apply visit_ok; [done|apply Ha2]|]. intros [] st3 Ht3 Hi3 H3.
    assert (Allowed st3) as Ha3 by eauto using Allowed_mono.
    eapply wp_good_mono.
    { apply (forEach_ok _ _ (λ boundArg st', boundArg ∈ values st')); [| |done].
      - intros x sta stb Hx Htab. by eapply Trans_elem_of.
      - intros x st4 Hx Ht4 Hi4. apply visit_ok; [done|]. eapply Allowed_mono; [|exact Ha3].
        done. }
    intros [] st4 Ht4 Hi4 H4. split.
    + intros w [Hp|f' target' this' args' Hf' Hcls' Hin|f' ? ? ? ? ? ? Hf' Hcls' _ _ _].
      * do 3 (eapply Trans_elem_of; [eassumption|]). by apply H1.
      * rewrite Hf in Hf'. injection Hf' as <-. rewrite Hcls in Hcls'.
        injection Hcls' as <- <- <-.
        apply elem_of_cons in Hin as [->|Hin];
          [by do 2 (eapply Trans_elem_of; [eassumption|])|].
        apply elem_of_cons in Hin as [->|Hin]; [by eapply Trans_elem_of|]. by apply H4.
      * congruence.
    + intros f' ? ? ? ? Hf' Hcls'. congruence.
  - apply wp_good_ret; [done|]. split.
    + intros w [Hp|f' ? ? ? Hf' Hcls' _|f' ? ? ? ? ? ? Hf' Hcls' _ _ _];
        [by apply H1|congruence..].
    + intros f' ? ? ? ? Hf' Hcls'. congruence.
Qed.


Lemma visitValueMap_ok val st :
  Inv realm st → Allowed st →
  wp T (visitValueMap realm call val)
    (good st (λ _ st', ∀ o entries entry key value w,
       objectOf realm val = Some o →
       (ObjectValue.getKind o = "Map" ∧ ObjectValue.MapData o = Some entries
        ∨ ObjectValue.getKind o = "WeakMap" ∧ ObjectValue.WeakMapData o = Some entries) →
       entry ∈ entries → MapEntry.Key entry = Some key → MapEntry.Value entry = Some value →
       w ∈ [key; value] → w ∈ values st')) st.
Proof.
  intros Hi Ha. unfold visitValueMap. apply asObject_ok. intros o Ho.
  apply wp_bind.
  assert (∀ entries', (ObjectValue.getKind o = "Map" ∧ ObjectValue.MapData o = entries'
                       ∨ ObjectValue.getKind o = "WeakMap"
                         ∧ ObjectValue.WeakMapData o = entries') →
    wp T match entries' with
         | Some entries =>
             forEach entries (λ entry,
               match MapEntry.Key entry, MapEntry.Value entry with
               | Some key, Some value => call (VisitValue key) >> call (VisitValue value)
               | _, _ => ret tt
               end)
         | None => throw InvariantViolation
         end
      (good st (λ _ st', ∀ o' entries entry key value w,
         objectOf realm val = Some o' →
         (ObjectValue.getKind o' = "Map" ∧ ObjectValue.MapData o' = Some entries
          ∨ ObjectValue.getKind o' = "WeakMap" ∧ ObjectValue.WeakMapData o' = Some entries) →
         entry ∈ entries → MapEntry.Key entry = Some key →
         MapEntry.Value entry = Some value → w ∈ [key; value] → w ∈ values st')) st) as Hloop.
  { intros [entries|] Hentries; [|apply wp_throw].
    eapply wp_good_mono.
    { apply (forEach_ok _ _ (λ entry st', ∀ key value w,
        MapEntry.Key entry = Some key → MapEntry.Value entry = Some value →
        w ∈ [key; value] → w ∈ values st')); [| |done].
      - intros x sta stb Hx Htab key value w Hk Hv Hw. eapply Trans_elem_of; eauto.
      - intros entry st1 Hentry Ht1 Hi1.
        assert (Allowed st1) as Ha1 by eauto using Allowed_mono.
        destruct (MapEntry.Key entry) as [key|]; [|by apply wp_good_ret].
        destruct (MapEntry.Value entry) as [value|]; [|by apply wp_good_ret].
        eapply wp_seq; [apply visit_ok; [done|apply Ha1]|]. intros [] st2 Ht2 Hi2 H2.
        eapply wp_good_mono.
        { apply visit_ok; [done|]. eapply Allowed_mono; [exact Ht2|done]. }
        intros [] st3 Ht3 Hi3 H3 key' value' w [= <-] [= <-] Hw.
        apply elem_of_cons in Hw as [->|Hw]; [by eapply Trans_elem_of|].
        by apply list_elem_of_singleton in Hw as ->. }
    intros [] st' _ _ H o' entries' entry key value w Ho' Hkind Hentry Hk Hv Hw.
    rewrite Ho in Ho'. injection Ho' as <-.
    assert (entries' = entries) as ->.
    { destruct Hentries as [[Hk1 Hd1]|[Hk1 Hd1]], Hkind as [[Hk2 Hd2]|[Hk2 Hd2]];
        congruence. }
    by eapply H. }
  case_bool_decide as Hmap.
  - apply wp_ret. apply Hloop. by left.
  - apply wp_bind, wp_invariant. intros Hweak%bool_decide_eq_true.
    apply wp_ret. apply Hloop. by right.
Qed.

Lemma visitValueSet_ok val st :
  Inv realm st → Allowed st →
  wp T (visitValueSet realm call val)
    (good st (λ _ st', ∀ o entries w,
       objectOf realm val = Some o →
       (ObjectValue.getKind o = "Set" ∧ ObjectValue.SetData o = Some entries
        ∨ ObjectValue.getKind o = "WeakSet" ∧ ObjectValue.WeakSetData o = Some entries) →
       Some w ∈ entries → w ∈ values st')) st.
Proof.
  intros Hi Ha. unfold visitValueSet. apply asObject_ok. intros o Ho.
  apply wp_bind.
  assert (∀ entries', (ObjectValue.getKind o = "Set" ∧ ObjectValue.SetData o = entries'
                       ∨ ObjectValue.getKind o = "WeakSet"
                         ∧ ObjectValue.WeakSetData o = entries') →
    wp T match entries' with
         | Some entries =>
             forEach entries (λ entry,
               match entry with
               | Some entry => call (VisitValue entry)
               | None => ret tt
               end)
         | None => throw InvariantViolation
         end
      (good st (λ _ st', ∀ o' entries w,
         objectOf realm val = Some o' →
         (ObjectValue.getKind o' = "Set" ∧ ObjectValue.SetData o' = Some entries
          ∨ ObjectValue.getKind o' = "WeakSet" ∧ ObjectValue.WeakSetData o' = Some entries) →
         Some w ∈ entries → w ∈ values st')) st) as Hloop.
  { intros [entries|] Hentries; [|apply wp_throw].
    eapply wp_good_mono.
    { apply (forEach_ok _ _ (λ entry st', ∀ w, entry = Some w → w ∈ values st'));
        [| |done].
      - intros x sta stb Hx Htab w Hw. eapply Trans_elem_of; eauto.
      - intros entry st1 Hentry Ht1 Hi1. apply visitOptional_ok; [done|].
        by eapply Allowed_mono. }
    intros [] st' _ _ H o' entries' w Ho' Hkind Hw.
    rewrite Ho in Ho'. injection Ho' as <-.
    assert (entries' = entries) as ->.
    { destruct Hentries as [[Hk1 Hd1]|[Hk1 Hd1]], Hkind as [[Hk2 Hd2]|[Hk2 Hd2]];
        congruence. }
    by eapply H. }
  case_bool_decide as Hset.
  - apply wp_ret. apply Hloop. by left.
  - apply wp_bind, wp_invariant. intros Hweak%bool_decide_eq_true.
    apply wp_ret. apply Hloop. by right.
Qed.

Lemma visitValueProxy_ok val st :
  Inv realm st → Allowed st →
  wp T (visitValueProxy realm call val)
    (good st (λ _ st', ∀ o ProxyTarget ProxyHandler w,
       objectOf realm val = Some o →
       ObjectValue.cls o = ProxyObject ProxyTarget ProxyHandler →
       w ∈ [ProxyTarget; ProxyHandler] → w ∈ values st')) st.
Proof.
  intros Hi Ha. unfold visitValueProxy.
  destruct (objectOf realm val) as [o|] eqn:Ho; simpl; [|apply wp_throw].
  destruct (ObjectValue.cls o) as [|target handler|] eqn:Hcls; try apply wp_throw.
  eapply wp_seq; [apply visit_ok; [done|apply Ha]|]. intros [] st1 Ht1 Hi1 H1.
  eapply wp_good_mono.
  { apply visit_ok; [done|]. eapply Allowed_mono; [exact Ht1|done]. }
  intros [] st2 Ht2 Hi2 H2 o' t h w [= <-]. rewrite Hcls. intros [= <- <-] Hw.
  apply elem_of_cons in Hw as [->|Hw]; [by eapply Trans_elem_of|].
  by apply list_elem_of_singleton in Hw as ->.
Qed.

Lemma visitAbstractValue_ok val st :
  Inv realm st → Allowed st →
  wp T (visitAbstractValue realm call val)
    (good st (λ _ st', ∀ a w, abstractOf realm val = Some a → w ∈ AbstractValue.args a →
       w ∈ values st')) st.
Proof.
  intros Hi Ha. unfold visitAbstractValue.
  destruct (abstractOf realm val) as [a|]; [|apply wp_throw].
  eapply wp_seq.
  { apply wp_when; [intros _; by apply logError_ok|].
    intros _. by split_and!; [apply Trans_refl|..]. }
  intros [] st1 Ht1 Hi1 _.
  eapply wp_good_mono.
  { apply (forEach_ok _ _ (λ abstractArg st', abstractArg ∈ values st')); [| |done].
    - intros x sta stb Hx Htab. by eapply Trans_elem_of.
    - intros x st2 Hx Ht2 Hi2. apply visit_ok; [done|].
      eapply Allowed_mono; [exact Ht2|]. by eapply Allowed_mono. }
  intros [] st2 _ _ H2 a' w [= <-]. apply H2.
Qed.

Lemma visitValueArray_ok val st :
  Inv realm st → Allowed st →
  wp T (visitValueArray realm call val)
    (good st (λ _ st',
       (∀ w, propertyTarget realm val w → w ∈ values st')
       ∧ (instanceof_AbstractValue realm (Get realm val "length") = true →
          Get realm val "length" ∈ values st'))) st.
Proof.
  intros Hi Ha. unfold visitValueArray.
  eapply wp_seq; [by apply visitObjectProperties_ok|]. intros [] st1 Ht1 Hi1 H1.
  apply wp_when.
  - intros Habs. eapply wp_good_mono.
    { apply visit_ok; [done|]. eapply Allowed_mono; [exact Ht1|done]. }
    intros [] st2 Ht2 Hi2 H2. split; [|done]. intros w Hw. eapply Trans_elem_of; eauto.
  - intros Habs. split_and!; [apply Trans_refl|done|done|congruence].
Qed.


Lemma visitValueObject_ok val st :
  Inv realm st → Allowed st →
  wp T (visitValueObject realm call val)
    (good st (λ _ st', ∀ w, objectTarget realm val w → w ∈ values st')) st.
Proof.
  intros Hi Ha. unfold visitValueObject.
  eapply wp_seq; [by apply visitObjectProperties_ok|]. intros [] st1 Ht1 Hi1 H1.
  assert (Allowed st1) as Ha1 by eauto using Allowed_mono.
  apply asObject_ok. intros o Ho.
  destruct (ObjectValue.originalConstructor o) as [constructor|] eqn:Hctor.
  { eapply wp_good_mono; [apply visit_ok; [done|apply Ha1]|].
    intros [] st2 Ht2 Hi2 H2 w Hw.
    destruct Hw as [Hp|o' Ho' Hc|o' Ho' Hc|o' Ho' Hc|o' ? ? ? ? Ho' Hc|o' ? Ho' Hc];
      [eapply Trans_elem_of; eauto|..]; rewrite Ho in Ho'; injection Ho' as <-; congruence. }
  destruct (kind_is _ ["RegExp"; "Number"; "String"; "Boolean"; "ArrayBuffer"]) eqn:Hk1.
  { apply wp_good_ret; [done|]. intros w Hw.
    apply bool_decide_eq_true in Hk1.
    destruct Hw as [Hp|o' Ho' Hc|o' Ho' Hc Hk Hd|o' Ho' Hc Hk Hb
                   |o' ? ? ? ? Ho' Hc Hk|o' ? Ho' Hc Hk];
      [by apply H1|..]; rewrite Ho in Ho'; injection Ho' as <-; [congruence|..];
      repeat (apply elem_of_cons in Hk1 as [Hk1|Hk1]);
      try (by apply elem_of_nil in Hk1);
      rewrite Hk1 in *; try done; try (by destruct Hk as [[? _]|[? _]]). }
  destruct (kind_is _ ["Date"]) eqn:Hk2.
  { apply bool_decide_eq_true, list_elem_of_singleton in Hk2.
    destruct (ObjectValue.DateValue o) as [dateValue|] eqn:Hdate; [|apply wp_throw].
    eapply wp_good_mono; [apply visit_ok; [done|apply Ha1]|].
    intros [] st2 Ht2 Hi2 H2 w Hw.
    destruct Hw as [Hp|o' Ho' Hc|o' Ho' Hc Hk Hd|o' Ho' Hc Hk Hb
                   |o' ? ? ? ? Ho' Hc Hk|o' ? Ho' Hc Hk];
      [eapply Trans_elem_of; eauto|..]; rewrite Ho in Ho'; injection Ho' as <-;
      [congruence|congruence|..]; rewrite Hk2 in *; try done;
      by destruct Hk as [[? _]|[? _]]. }
  destruct (kind_is _ ["Float32Array"; "Float64Array"; "Int8Array"; "Int16Array";
                       "Int32Array"; "Uint8Array"; "Uint16Array"; "Uint32Array";
                       "Uint8ClampedArray"; "DataView"]) eqn:Hk3.
  { destruct (ObjectValue.ViewedArrayBuffer o) as [buf|] eqn:Hbuf; [|apply wp_throw].
    eapply wp_good_mono; [apply visit_ok; [done|apply Ha1]|].
    intros [] st2 Ht2 Hi2 H2 w Hw.
    destruct Hw as [Hp|o' Ho' Hc|o' Ho' Hc Hk Hd|o' Ho' Hc Hk Hb
                   |o' ? ? ? ? Ho' Hc Hk|o' ? Ho' Hc Hk];
      [eapply Trans_elem_of; eauto|..]; rewrite Ho in Ho'; injection Ho' as <-;
      [congruence| |congruence|..];
      [rewrite Hk in *; done|destruct Hk as [[Hk _]|[Hk _]]; rewrite Hk in *; done..]. }
  destruct (kind_is _ ["Map"; "WeakMap"]) eqn:Hk4.
  { eapply wp_good_mono; [by apply visitValueMap_ok|].
    intros [] st2 Ht2 Hi2 H2 w Hw.
    destruct Hw as [Hp|o' Ho' Hc|o' Ho' Hc Hk Hd|o' Ho' Hc Hk Hb
                   |o' ? ? ? ? Ho' Hc Hk|o' ? Ho' Hc Hk];
      [eapply Trans_elem_of; eauto|..]; rewrite Ho in Ho'; injection Ho' as <-;
      [congruence| | |by eapply H2|].
    - rewrite Hk in *. done.
    - congruence.
    - destruct Hk as [[Hk _]|[Hk _]]; rewrite Hk in *; done. }
  destruct (kind_is _ ["Set"; "WeakSet"]) eqn:Hk5.
  { eapply wp_good_mono; [by apply visitValueSet_ok|].
    intros [] st2 Ht2 Hi2 H2 w Hw.
    destruct Hw as [Hp|o' Ho' Hc|o' Ho' Hc Hk Hd|o' Ho' Hc Hk Hb
                   |o' ? ? ? ? Ho' Hc Hk|o' ? Ho' Hc Hk];
      [eapply Trans_elem_of; eauto|..]; rewrite Ho in Ho'; injection Ho' as <-;
      [congruence| | | |by eapply H2].
    - rewrite Hk in *. done.
    - congruence.
    - destruct Hk as [[Hk _]|[Hk _]]; rewrite Hk in *; done. }
  eapply wp_seq.
  { apply wp_when; [intros _; by apply logError_ok|].
    intros _. by split_and!; [apply Trans_refl|..]. }
  intros [] st2 Ht2 Hi2 _.
  eapply wp_good_mono.
  { apply wp_when; [intros _; by apply logError_ok|].
    intros _. by split_and!; [apply Trans_refl|..]. }
  intros [] st3 Ht3 Hi3 _ w Hw.
  destruct Hw as [Hp|o' Ho' Hc|o' Ho' Hc Hk Hd|o' Ho' Hc Hk Hb
                 |o' ? ? ? ? Ho' Hc Hk|o' ? Ho' Hc Hk];
    [do 2 (eapply Trans_elem_of; [eassumption|]); by apply H1|..];
    rewrite Ho in Ho'; injection Ho' as <-; [congruence| |congruence|..].
  - rewrite Hk in *. done.
  - destruct Hk as [[Hk _]|[Hk _]]; rewrite Hk in *; done.
  - destruct Hk as [[Hk _]|[Hk _]]; rewrite Hk in *; done.
Qed.


Lemma objectOf_heap val : is_Some (objectOf realm val) → is_Some (heap realm !! val).
Proof.
  unfold objectOf, classOf. destruct (heap realm !! val); [eauto|]. by intros [? ?].
Qed.

Lemma abstractOf_heap val : is_Some (abstractOf realm val) → is_Some (heap realm !! val).
Proof.
  unfold abstractOf, classOf. destruct (heap realm !! val); [eauto|]. by intros [? ?].
Qed.

Lemma functionOf_objectOf val : is_Some (functionOf realm val) → is_Some (objectOf realm val).
Proof. unfold functionOf. destruct (objectOf realm val); [eauto|]. by intros [? ?]. Qed.

Lemma instanceof_ProxyValue_objectOf val :
  instanceof_ProxyValue realm val = true → is_Some (objectOf realm val).
Proof. unfold instanceof_ProxyValue. destruct (objectOf realm val); [eauto|done]. Qed.

Lemma Set_add_fresh val s : val ∉ s → Set_add val s = s ++ [val].
Proof. intros Hv. unfold Set_add, Set_has. by rewrite bool_decide_eq_false_2. Qed.

Lemma visitValue_ok val st :
  Pre realm (VisitValue val) st →
  (val ∉ values st → is_Some (heap realm !! val) → Allowed (set_values (Set_add val) st)) →
  wp T (visitValue realm call val) (λ _ st', Post realm (VisitValue val) st st') st.
Proof.
  intros [Hi0 [Hbg Hbd]] Hallowed. unfold visitValue. apply wp_bind, wp_gets. unfold Set_has.
  case_bool_decide as Hvisited.
  { apply wp_ret. split_and!; [apply Trans_refl| |done]. split; [done|]. split.
    - intros key w Hk Hw. destruct (Hbg key w Hk Hw) as [?|[= <-]]; by left.
    - intros r t n w Ht Hn Hw. destruct (Hbd r t n w Ht Hn Hw) as [?|[= <-]]; by left. }
  apply wp_bind, wp_modify.
  set (st1 := set_values (Set_add val) st) in *.
  assert (values st1 = values st ++ [val]) as Hvalues1.
  { unfold st1. simpl. by apply Set_add_fresh. }
  assert (Ext st st1) as He1.
  { split; simpl; eauto using store_le_refl. rewrite Set_add_fresh by done.
    by apply prefix_app_r. }
  assert (Inv realm st1) as Hi1.
  { destruct Hi0 as [Hv Hg Hd Hf]. split; split; try done.
    - rewrite Hvalues1. apply NoDup_app. split_and!; [done| |apply NoDup_singleton].
      intros x Hx ->%list_elem_of_singleton. done.
    - intros key w Hk Hw. left. rewrite Hvalues1, elem_of_app, list_elem_of_singleton.
      destruct (Hbg key w Hk Hw) as [?|[= <-]]; auto.
    - intros r t n w Ht Hn Hw. left. rewrite Hvalues1, elem_of_app, list_elem_of_singleton.
      destruct (Hbd r t n w Ht Hn Hw) as [?|[= <-]]; auto. }
  cut (wp T (visitValueOfKind realm call val)
          (good st1 (λ _ st', closedAt realm (functionInfos st') (values st') val)) st1).
  { intros Hd. eapply wp_mono; [exact Hd|]. intros [] st' (Ht' & Hi' & Hclosed).
    split_and!; [split| |].
    - eapply Ext_trans; [done|apply Ht'].
    - intros u Hu Hn. destruct (decide (u = val)) as [->|Hne]; [done|].
      apply Ht'; [done|]. rewrite Hvalues1, elem_of_app, list_elem_of_singleton. tauto.
    - done.
    - eapply Trans_elem_of; [done|]. rewrite Hvalues1, elem_of_app, list_elem_of_singleton.
      by right. }
  unfold visitValueOfKind, closedAt, infoKnown, edge, dispatch.
  destruct (instanceof_AbstractValue realm val) eqn:Habs.
  { eapply wp_good_mono.
    { apply visitAbstractValue_ok; [done|]. apply Hallowed; [done|].
      apply abstractOf_heap. by apply bool_decide_eq_true in Habs. }
    intros [] st' _ _ H. split; [done|]. intros w (a & Ha & Hw). eauto. }
  destruct (isIntrinsic realm val).
  { apply wp_good_ret; [done|]. by split. }
  destruct (instanceof_EmptyValue realm val).
  { apply wp_good_ret; [done|]. by split. }
  destruct (isLeaf realm val).
  { apply wp_good_ret; [done|]. by split. }
  destruct (IsArray realm val).
  { apply wp_bind, wp_invariant. intros Hobj. rewrite Hobj.
    eapply wp_good_mono.
    { apply visitValueArray_ok; [done|]. apply Hallowed; [done|].
      apply objectOf_heap. by apply bool_decide_eq_true in Hobj. }
    intros [] st' _ _ [H1 H2]. split; [done|]. intros w [Hw|[-> Hw]]; auto. }
  destruct (instanceof_ProxyValue realm val) eqn:Hproxy.
  { eapply wp_good_mono.
    { apply visitValueProxy_ok; [done|]. apply Hallowed; [done|].
      by apply objectOf_heap, instanceof_ProxyValue_objectOf. }
    intros [] st' _ _ H. split; [done|]. intros w (o & t & h & Ho & Hcls & Hw). eauto. }
  destruct (instanceof_FunctionValue realm val) eqn:Hfun.
  { eapply wp_good_mono.
    { apply visitValueFunction_ok; [done|]. apply Hallowed; [done|].
      apply objectOf_heap, functionOf_objectOf. by apply bool_decide_eq_true in Hfun. }
    intros [] st' _ _ [H1 H2]. split; [|done].
    intros f fp code env res _ Hf Hcls. destruct (H2 f fp code env res Hf Hcls)
      as (info & table & Hinfo & _). eauto. }
  destruct (instanceof_SymbolValue realm val).
  { apply wp_good_ret; [done|]. by split. }
  destruct (instanceof_ObjectValue realm val) eqn:Hobj; [|apply wp_throw].
  eapply wp_good_mono.
  { apply visitValueObject_ok; [done|]. apply Hallowed; [done|].
    apply objectOf_heap. by apply bool_decide_eq_true in Hobj. }
  intros [] st' _ _ H. by split.
Qed.

Lemma visitRoots_ok st :
  Inv realm st → Allowed st →
  wp T (visitRoots realm call)
    (good st (λ _ st', ∀ root, root ∈ roots realm → root ∈ values st')) st.
Proof.
  intros Hi Ha. unfold visitRoots, roots, visitGenerator.
  eapply wp_seq.
  { instantiate (1 := λ _ st', ∀ root, root ∈ default [] (generator realm) →
                                       root ∈ values st').
    destruct (generator realm) as [generator|]; simpl.
    - apply (forEach_ok _ _ (λ val st', val ∈ values st')); [| |done].
      + intros x sta stb Hx Htab. by eapply Trans_elem_of.
      + intros x st1 Hx Ht1 Hi1. apply visit_ok; [done|]. by eapply Allowed_mono.
    - apply wp_good_ret; [done|]. by intros root ?%elem_of_nil. }
  intros [] st1 Ht1 Hi1 H1.
  eapply wp_good_mono.
  { apply (forEach_ok _ _ (λ entry st', entry.2 ∈ values st')); [| |done].
    - intros x sta stb Hx Htab. by eapply Trans_elem_of.
    - intros [key moduleValue] st2 Hx Ht2 Hi2. apply visit_ok; [done|].
      eapply Allowed_mono; [exact Ht2|]. by eapply Allowed_mono. }
  intros [] st2 Ht2 Hi2 H2 root [Hroot|Hroot]%elem_of_app.
  - eapply Trans_elem_of; eauto.
  - apply list_elem_of_fmap in Hroot as (entry & -> & Hentry). by apply H2.
Qed.
End Spec.

(** ** The recursion: partial correctness for any fuel, termination with enough *)

Lemma call_sound realm fuel c st :
  Pre realm c st → wp True (call realm fuel c) (λ _ st', Post realm c st st') st.
Proof.
  revert c st. induction fuel as [|fuel IH]; intros c st Hpre; [done|].
  destruct c as [val|absVal]; simpl.
  - apply (visitValue_ok realm True (λ _ _, True)); [done| |done|done].
    intros c' st' ? _. by apply IH.
  - apply (visitObjectPropertiesWithComputedNames_ok realm True (λ _ _, True));
      [done| |done..].
    intros c' st' ? _. by apply IH.
Qed.

Section Termination.
Context (realm : Realm) (rank : nat → nat).
Hypothesis Hranked : ranked realm rank = true.

Lemma ranked_operand absVal operand :
  chainOperand realm absVal operand → rank operand < rank absVal.
Proof.
  intros (a & Ha & Hin & Habs). unfold ranked in Hranked.
  rewrite forallb_forall in Hranked. unfold abstractOf, classOf in Ha.
  destruct (heap realm !! absVal) as [v|] eqn:Hv; [|done]. simpl in Ha.
  specialize (Hranked (absVal, v)). simpl in Hranked.
  destruct (Value.cls v) as [a'| | | | | | | |]; try done. injection Ha as ->.
  rewrite forallb_forall in Hranked.
  assert (negb (instanceof_AbstractValue realm operand) || Nat.ltb (rank operand) (rank absVal)
          = true) as Hop.
  { apply Hranked; [|by apply list_elem_of_In].
    apply list_elem_of_In. by apply elem_of_map_to_list. }
  rewrite Habs in Hop. simpl in Hop. by apply Nat.ltb_lt in Hop.
Qed.

Lemma rank_le_rankBound val :
  is_Some (heap realm !! val) → rank val ≤ rankBound realm rank.
Proof.
  intros [v Hv]. apply max_list_elem_of_le, list_elem_of_fmap. exists val. split; [done|].
  apply list_elem_of_fmap. exists (val, v). split; [done|]. by apply elem_of_map_to_list.
Qed.

Lemma unvisited_mono st st' : Ext st st' → unvisited realm st' ≤ unvisited realm st.
Proof.
  intros He. apply subseteq_size. intros x. rewrite !elem_of_difference, !elem_of_list_to_set.
  intros [? Hx]. split; [done|]. intros ?. apply Hx. by eapply Ext_elem_of.
Qed.

Lemma unvisited_add st val :
  val ∉ values st → is_Some (heap realm !! val) →
  unvisited realm (set_values (Set_add val) st) < unvisited realm st.
Proof.
  intros Hfresh Hheap. apply subset_size. simpl. rewrite Set_add_fresh by done. split.
  - intros x. rewrite !elem_of_difference, !elem_of_list_to_set, elem_of_app. tauto.
  - intros Hsub. specialize (Hsub val).
    rewrite !elem_of_difference, !elem_of_list_to_set, elem_of_app, elem_of_dom,
      list_elem_of_singleton in Hsub. tauto.
Qed.

Lemma need_mono c st st' : Ext st st' → need realm rank c st' ≤ need realm rank c st.
Proof. intros He%unvisited_mono. unfold need. nia. Qed.

Lemma call_terminates fuel c st :
  Pre realm c st → need realm rank c st ≤ fuel →
  wp False (call realm fuel c) (λ _ st', Post realm c st st') st.
Proof.
  revert c st. induction fuel as [|fuel IH]; intros c st Hpre Hneed.
  { unfold need in Hneed. nia. }
  destruct c as [val|absVal]; simpl.
  - apply (visitValue_ok realm False (λ c st, need realm rank c st ≤ fuel)); [| |done|].
    + intros c st1 st2 He%(need_mono c). lia.
    + intros c st1 Hpre1 Hneed1. by apply IH.
    + intros Hfresh Hheap c. pose proof (unvisited_add st val Hfresh Hheap).
      unfold need in *. destruct c; nia.
  - destruct (abstractOf realm absVal) as [a|] eqn:Ha.
    2:{ unfold visitObjectPropertiesWithComputedNames, wp. by rewrite Ha. }
    assert (rank absVal ≤ rankBound realm rank) as Hbound.
    { apply rank_le_rankBound, abstractOf_heap. by rewrite Ha. }
    apply (visitObjectPropertiesWithComputedNames_ok realm False
             (λ c st, need realm rank c st ≤ fuel)); [| |done| |].
    + intros c st1 st2 He%(need_mono c). lia.
    + intros c st1 Hpre1 Hneed1. by apply IH.
    + intros v. unfold need in *. lia.
    + intros operand Hop%ranked_operand. unfold need in *. lia.
Qed.
End Termination.

(** ** More fuel never changes what a method does *)

Lemma refines_refl {A} (m : M A) : refines m m.
Proof. intros st. by right. Qed.


Lemma refines_bind {A B} (m m' : M A) (k k' : A → M B) :
  refines m m' → (∀ a, refines (k a) (k' a)) → refines (do x <- m; k x) (do x <- m'; k' x).
Proof.
  intros Hm Hk st. unfold bind. destruct (Hm st) as [-> | ->]; [by left|].
  destruct (m st); [apply Hk|by right..].
Qed.

Lemma refines_forEach {A} (l : list A) (body body' : A → M unit) :
  (∀ x, refines (body x) (body' x)) → refines (forEach l body) (forEach l body').
Proof.
  intros Hbody. induction l as [|x l IH]; simpl; [apply refines_refl|].
  apply refines_bind; [done|]. by intros _.
Qed.

Lemma refines_foldEach {A B} (l : list A) (body body' : B → A → M B) acc :
  (∀ b x, refines (body b x) (body' b x)) →
  refines (foldEach l body acc) (foldEach l body' acc).
Proof.
  intros Hbody. revert acc. induction l as [|x l IH]; intros acc; simpl;
    [apply refines_refl|].
  apply refines_bind; [done|]. intros acc'. apply IH.
Qed.

Create HintDb refines discriminated.

Ltac refines_step :=
  match goal with
  | |- refines ?m ?m => apply refines_refl
  | |- refines (when _ _) _ => unfold when
  | |- refines (match ?x with _ => _ end) _ => destruct x
  | |- refines (bind _ _) _ => apply refines_bind; [|intros ?]
  | |- refines (forEach _ _) _ => apply refines_forEach; intros ?
  | |- refines (foldEach _ _ _) _ => apply refines_foldEach; intros ? ?
  | |- _ => solve [auto with refines]
  end.

Ltac refines_auto := repeat refines_step.

Section Refinement.
Context (realm : Realm) (call call' : Call → M unit).
Hypothesis call_refines : ∀ c, refines (call c) (call' c).
Hint Resolve call_refines : refines.

Lemma visitDescriptor_refines desc :
  refines (visitDescriptor call desc) (visitDescriptor call' desc).
Proof. unfold visitDescriptor. refines_auto. Qed.
Hint Resolve visitDescriptor_refines : refines.

Lemma visitObjectPrototype_refines obj :
  refines (visitObjectPrototype realm call obj) (visitObjectPrototype realm call' obj).
Proof. unfold visitObjectPrototype. refines_auto. Qed.
Hint Resolve visitObjectPrototype_refines : refines.

Lemma visitConstructorPrototype_refines func :
  refines (visitConstructorPrototype realm call func)
    (visitConstructorPrototype realm call' func).
Proof. unfold visitConstructorPrototype. refines_auto. Qed.
Hint Resolve visitConstructorPrototype_refines : refines.

Lemma visitObjectProperty_refines obj entry :
  refines (visitObjectProperty realm call obj entry)
    (visitObjectProperty realm call' obj entry).
Proof. unfold visitObjectProperty. refines_auto. Qed.
Hint Resolve visitObjectProperty_refines : refines.

Lemma visitObjectProperties_refines obj :
  refines (visitObjectProperties realm call obj) (visitObjectProperties realm call' obj).
Proof. unfold visitObjectProperties. refines_auto. Qed.
Hint Resolve visitObjectProperties_refines : refines.


Lemma visitDeclarativeEnvironmentRecordBinding_refines r n :
  refines (visitDeclarativeEnvironmentRecordBinding realm call r n)
    (visitDeclarativeEnvironmentRecordBinding realm call' r n).
Proof. unfold visitDeclarativeEnvironmentRecordBinding. refines_auto. Qed.
Hint Resolve visitDeclarativeEnvironmentRecordBinding_refines : refines.

Lemma visitGlobalBinding_refines key :
  refines (visitGlobalBinding realm call key) (visitGlobalBinding realm call' key).
Proof. unfold visitGlobalBinding. refines_auto. Qed.
Hint Resolve visitGlobalBinding_refines : refines.

Lemma visitValueArray_refines val :
  refines (visitValueArray realm call val) (visitValueArray realm call' val).
Proof. unfold visitValueArray. refines_auto. Qed.
Hint Resolve visitValueArray_refines : refines.

Lemma visitValueMap_refines val :
  refines (visitValueMap realm call val) (visitValueMap realm call' val).
Proof. unfold visitValueMap. refines_auto. Qed.
Hint Resolve visitValueMap_refines : refines.

Lemma visitValueSet_refines val :
  refines (visitValueSet realm call val) (visitValueSet realm call' val).
Proof. unfold visitValueSet. refines_auto. Qed.
Hint Resolve visitValueSet_refines : refines.

Lemma visitFunctionBinding_refines Environment functionInfo visitedBindings innerName :
  refines (visitFunctionBinding realm call Environment functionInfo visitedBindings innerName)
    (visitFunctionBinding realm call' Environment functionInfo visitedBindings innerName).
Proof. unfold visitFunctionBinding. refines_auto. Qed.
Hint Resolve visitFunctionBinding_refines : refines.

Lemma visitValueFunction_refines val :
  refines (visitValueFunction realm call val) (visitValueFunction realm call' val).
Proof. unfold visitValueFunction. refines_auto. Qed.
Hint Resolve visitValueFunction_refines : refines.

Lemma visitValueObject_refines val :
  refines (visitValueObject realm call val) (visitValueObject realm call' val).
Proof. unfold visitValueObject. refines_auto. Qed.
Hint Resolve visitValueObject_refines : refines.

Lemma visitValueProxy_refines val :
  refines (visitValueProxy realm call val) (visitValueProxy realm call' val).
Proof. unfold visitValueProxy. refines_auto. Qed.
Hint Resolve visitValueProxy_refines : refines.

Lemma visitAbstractValue_refines val :
  refines (visitAbstractValue realm call val) (visitAbstractValue realm call' val).
Proof. unfold visitAbstractValue. refines_auto. Qed.
Hint Resolve visitAbstractValue_refines : refines.


End Refinement.



(** * The properties of the specification *)

Lemma foldEach_app {A B} (l1 l2 : list A) (body : B → A → M B) acc st :
  foldEach (l1 ++ l2) body acc st = (do acc' <- foldEach l1 body acc; foldEach l2 body acc') st.
Proof.
  revert acc st. induction l1 as [|x l1 IH]; intros acc st; simpl; [done|].
  unfold bind in *. destruct (body acc x st); [apply IH|done..].
Qed.

Lemma visitValue_visited realm call val st :
  val ∈ values st → visitValue realm call val st = Done tt st.
Proof.
  intros Hin. unfold visitValue, bind, gets, Set_has. by rewrite bool_decide_eq_true_2.
Qed.

Lemma visitValue_fresh realm call val st :
  val ∉ values st →
  visitValue realm call val st
  = visitValueOfKind realm call val (set_values (λ visited, visited ++ [val]) st).
Proof.
  intros Hout. unfold visitValue, bind, gets, modify, Set_has.
  rewrite bool_decide_eq_false_2 by done. simpl. unfold set_values.
  by rewrite Set_add_fresh.
Qed.

(** C3, as amended: visiting an abstract value inserts it and then visits each
    of its operands in order, whether or not it carries an identifier, so that
    every operand is in the visited set when the visit returns; it is a leaf
    of the traversal only when it has no operands. *)
Theorem visitValue_abstract_visits_operands realm nested val a st :
  abstractOf realm val = Some a → val ∉ values st →
  visitValue realm nested val st
  = (when (bool_decide (AbstractValue.kind a = "sentinel member expression"))
       (logError val
          "expressions of type o[p] are not yet supported for partially known o and unknown p") >>
     forEach (AbstractValue.args a) (λ abstractArg, nested (VisitValue abstractArg)))
      (set_values (λ visited, visited ++ [val]) st)
  ∧ (AbstractValue.args a = [] →
     AbstractValue.kind a ≠ "sentinel member expression" →
     visitValue realm nested val st = Done tt (set_values (λ visited, visited ++ [val]) st))
  ∧ ∀ fuel st' operand,
      Inv realm st → visitValue realm (call realm fuel) val st = Done tt st' →
      operand ∈ AbstractValue.args a → operand ∈ values st'.
Proof.
  intros Ha Hfresh. rewrite visitValue_fresh by done.
  unfold visitValueOfKind, instanceof_AbstractValue, visitAbstractValue. rewrite Ha.
  rewrite bool_decide_eq_true_2 by eauto. split_and!; [done| |].
  - intros -> Hkind. unfold bind, when. by rewrite bool_decide_eq_false_2.
  - intros fuel st' operand [Hinv0 [Hbg Hbd]] Hrun Hoperand.
    assert (Pre realm (VisitValue val) st) as Hpre.
    { split; [done|]. split.
      - intros key w Hk Hw. destruct (Hbg key w Hk Hw) as [?|[=]]. by left.
      - intros r t n w Ht Hn Hw. destruct (Hbd r t n w Ht Hn Hw) as [?|[=]]. by left. }
    pose proof (call_sound realm (S fuel) (VisitValue val) st Hpre) as Hwp.
    apply (wp_done _ _ _ _ _ _ Hwp) in Hrun as ([_ Hclosed] & _ & Hval).
    destruct (Hclosed val Hval Hfresh) as [_ Hedges]. apply Hedges.
    unfold edge, dispatch, instanceof_AbstractValue. rewrite Ha.
    rewrite bool_decide_eq_true_2 by eauto. eauto.
Qed.

Lemma visitValue_abstract_visits_operands_witness :
  visitValue Sample.identifierRealm (call Sample.identifierRealm 1) 10 emptyState
  = Done tt (set_values (λ _, [10; 11]) emptyState).
Proof.
  destruct (visitValue_abstract_visits_operands Sample.identifierRealm
              (call Sample.identifierRealm 1) 10 (AbstractValue.mk "x" [11] true) emptyState)
    as (Hrun & _ & _).
  - reflexivity.
  - simpl. apply not_elem_of_nil.
  - rewrite Hrun. reflexivity.
Defined.

(** C3, as stated, fails: the abstract value [10] carries an identifier and
    [isLeaf] holds of it, yet visiting it visits its operand [11]. *)
Lemma identifier_abstract_not_leaf :
  ¬ (∀ realm call val a st,
       abstractOf realm val = Some a → AbstractValue.hasIdentifier a = true →
       val ∉ values st →
       visitValue realm call val st = Done tt (set_values (λ visited, visited ++ [val]) st)).
Proof.
  intros Hleaf.
  specialize (Hleaf Sample.identifierRealm (call Sample.identifierRealm 1) 10
                (AbstractValue.mk "x" [11] true) emptyState eq_refl eq_refl).
  assert (10 ∉ values emptyState) as Hfresh by apply not_elem_of_nil.
  specialize (Hleaf Hfresh). vm_compute in Hleaf. discriminate.
Qed.

(** C4: the code never reports the arguments-object diagnostic.  The object
    [10] of the sample heap is a plain object with a parameter map; the pass
    visits it and completes with nothing logged. *)
Theorem arguments_object_not_reported :
  (∃ o parameterMap, objectOf Sample.argumentsRealm 10 = Some o
                     ∧ ObjectValue.ParameterMap o = Some parameterMap
                     ∧ ObjectValue.getKind o = "Object"
                     ∧ ObjectValue.originalConstructor o = None)
  ∧ ∃ st, pass Sample.argumentsRealm 16 = Done tt st
          ∧ 10 ∈ values st ∧ logged st = [].
Proof.
  split.
  - eexists _, _. split_and!; reflexivity.
  - eexists. split_and!; [by vm_compute| |reflexivity]. simpl. apply list_elem_of_here.
Qed.

(** On the default branch of [visitValueObject], the only error logged is the
    one for an unsupported kind, whatever the object's parameter map. *)
Lemma visitValueObject_default_branch realm call val o st st1 :
  objectOf realm val = Some o →
  ObjectValue.originalConstructor o = None →
  kind_is (ObjectValue.getKind o) handledKinds = false →
  visitObjectProperties realm call val st = Done tt st1 →
  visitValueObject realm call val st
  = Done tt (if bool_decide (ObjectValue.getKind o = "Object") then st1
             else set_logged (λ l, l ++ [(val,
                    String.append "Object of kind "
                      (String.append (ObjectValue.getKind o)
                         " is not supported in residual heap."))]) st1).
Proof.
  intros Ho Hctor Hkind Hprops. unfold visitValueObject, bind at 1. rewrite Hprops.
  unfold asObject, bind at 1. rewrite Ho. simpl. rewrite Hctor.
  unfold kind_is, handledKinds in *. apply bool_decide_eq_false in Hkind.
  repeat (rewrite bool_decide_eq_false_2;
          [|intros Hin; apply Hkind; revert Hin; rewrite !elem_of_cons; tauto]).
  unfold this_ParameterMap, bind, when, logError, modify.
  by case_bool_decide.
Qed.



(** C6: the prototype edge of an object is skipped exactly when the prototype
    is the intrinsic registered as the default prototype of the object's own
    kind.  An [Object] with [ObjectPrototype] and an [Array] with
    [ArrayPrototype] are not followed; an [Array] whose prototype is
    [ObjectPrototype], a different value from [ArrayPrototype], has its
    prototype visited. *)
Theorem visitObjectPrototype_skips_default_of_own_kind realm nested obj o st :
  objectOf realm obj = Some o →
  let proto := ObjectValue.Prototype o in
  let kind := ObjectValue.getKind o in
  (intrinsics realm !! String.append kind "Prototype" = Some proto →
   visitObjectPrototype realm nested obj st = Done tt st)
  ∧ (intrinsics realm !! String.append kind "Prototype" ≠ Some proto →
     visitObjectPrototype realm nested obj st = nested (VisitValue proto) st)
  ∧ (kind = "Object" → intrinsics realm !! "ObjectPrototype" = Some proto →
     visitObjectPrototype realm nested obj st = Done tt st)
  ∧ (kind = "Array" → intrinsics realm !! "ArrayPrototype" = Some proto →
     visitObjectPrototype realm nested obj st = Done tt st)
  ∧ (kind = "Array" → intrinsics realm !! "ObjectPrototype" = Some proto →
     intrinsics realm !! "ArrayPrototype" ≠ intrinsics realm !! "ObjectPrototype" →
     visitObjectPrototype realm nested obj st = nested (VisitValue proto) st).
Proof.
  intros Ho proto kind. unfold visitObjectPrototype, asObject, bind. rewrite Ho. simpl.
  fold proto kind. split_and!.
  - intros Hdefault. by rewrite bool_decide_eq_true_2.
  - intros Hother. by rewrite bool_decide_eq_false_2.
  - intros -> Hdefault. by rewrite bool_decide_eq_true_2.
  - intros -> Hdefault. by rewrite bool_decide_eq_true_2.
  - intros -> Hobject Hdistinct. rewrite bool_decide_eq_false_2; [done|].
    change (String.append "Array" "Prototype") with "ArrayPrototype". congruence.
Qed.

Lemma visitObjectPrototype_skips_default_of_own_kind_witness :
  visitObjectPrototype Sample.argumentsRealm (call Sample.argumentsRealm 5) 10 emptyState
  = Done tt emptyState
  ∧ visitObjectPrototype (Sample.arrayRealm false) (call (Sample.arrayRealm false) 5) 10
      emptyState
    = Done tt emptyState
  ∧ visitObjectPrototype Sample.mismatchedRealm (call Sample.mismatchedRealm 5) 10
      emptyState
    = Done tt (set_values (λ _, [0]) emptyState).
Proof.
  split_and!.
  - destruct (visitObjectPrototype_skips_default_of_own_kind Sample.argumentsRealm
                (call Sample.argumentsRealm 5) 10 _ emptyState eq_refl)
      as (_ & _ & Hskip & _).
    by apply Hskip.
  - destruct (visitObjectPrototype_skips_default_of_own_kind (Sample.arrayRealm false)
                (call (Sample.arrayRealm false) 5) 10 _ emptyState eq_refl)
      as (_ & _ & _ & Hskip & _).
    by apply Hskip.
  - destruct (visitObjectPrototype_skips_default_of_own_kind Sample.mismatchedRealm
                (call Sample.mismatchedRealm 5) 10 _ emptyState eq_refl)
      as (_ & _ & _ & _ & Hvisit).
    rewrite Hvisit; [reflexivity..|]. by vm_compute.
Defined.

Lemma forEach_liveEntries (nested : Call → M unit) entries st :
  forEach entries (λ entry,
    match MapEntry.Key entry, MapEntry.Value entry with
    | Some key, Some value => nested (VisitValue key) >> nested (VisitValue value)
    | _, _ => ret tt
    end) st
  = forEach (liveEntries entries)
      (λ '(key, value), nested (VisitValue key) >> nested (VisitValue value)) st.
Proof.
  revert st. induction entries as [|entry entries IH]; intros st; [done|].
  unfold liveEntries. simpl. fold (liveEntries entries).
  destruct (MapEntry.Key entry) as [key|], (MapEntry.Value entry) as [value|]; simpl;
    try (unfold bind at 1; simpl; apply IH).
  apply bind_ext. intros _. apply IH.
Qed.

(** C7: [visitValueMap] visits the key and the value of exactly the entries
    whose key and value are both present, in order; for three entries of which
    the second has no key, these are the keys and values of the first and the
    third. *)
Theorem visitValueMap_visits_live_entries realm nested val o entries st :
  objectOf realm val = Some o →
  (ObjectValue.getKind o = "Map" ∧ ObjectValue.MapData o = Some entries
   ∨ ObjectValue.getKind o = "WeakMap" ∧ ObjectValue.WeakMapData o = Some entries) →
  visitValueMap realm nested val st
  = forEach (liveEntries entries)
      (λ '(key, value), nested (VisitValue key) >> nested (VisitValue value)) st
  ∧ ∀ key1 value1 value2 key3 value3,
      entries = [MapEntry.mk (Some key1) (Some value1); MapEntry.mk None value2;
                 MapEntry.mk (Some key3) (Some value3)] →
      visitValueMap realm nested val st
      = (nested (VisitValue key1) >> nested (VisitValue value1) >>
         nested (VisitValue key3) >> nested (VisitValue value3)) st.
Proof.
  intros Ho Hentries.
  assert (visitValueMap realm nested val st
          = forEach (liveEntries entries)
              (λ '(key, value), nested (VisitValue key) >> nested (VisitValue value)) st)
    as Hrun.
  { unfold visitValueMap, asObject, bind at 1. rewrite Ho. simpl.
    destruct Hentries as [[Hkind Hdata]|[Hkind Hdata]]; rewrite Hkind; simpl;
      unfold bind at 1; simpl; rewrite Hdata; apply forEach_liveEntries. }
  split; [done|]. intros key1 value1 value2 key3 value3 ->. rewrite Hrun.
  unfold liveEntries. simpl. rewrite bind_assoc.
  apply bind_ext. intros _ st1. apply bind_ext. intros _ st2. apply bind_unit_r.
Qed.

Lemma visitValueMap_visits_live_entries_witness :
  visitValueMap Sample.mapRealm (call Sample.mapRealm 5) 10 emptyState
  = Done tt (set_values (λ _, [11; 12; 14; 15]) emptyState).
Proof.
  destruct (visitValueMap_visits_live_entries Sample.mapRealm (call Sample.mapRealm 5) 10
              _ _ emptyState eq_refl (or_introl (conj eq_refl eq_refl))) as [_ Hthree].
  rewrite (Hthree 11 12 (Some 13) 14 15 eq_refl). reflexivity.
Defined.

(** C10: an object that is the default prototype object of a constructor has
    its properties and prototype visited, then the constructor, and nothing
    else: whatever its kind, no internal slot is visited and no error is
    logged on this path. *)
Theorem visitValueObject_constructed_object realm nested val o constructor st :
  objectOf realm val = Some o → ObjectValue.originalConstructor o = Some constructor →
  visitValueObject realm nested val st
  = (visitObjectProperties realm nested val >> nested (VisitValue constructor)) st
  ∧ (dispatch realm val = AsObject → val ∉ values st →
     visitValue realm nested val st
     = (visitObjectProperties realm nested val >> nested (VisitValue constructor))
         (set_values (λ visited, visited ++ [val]) st)).
Proof.
  intros Ho Hctor.
  assert (∀ st0, visitValueObject realm nested val st0
                 = (visitObjectProperties realm nested val >> nested (VisitValue constructor))
                     st0) as Hrun.
  { intros st0. unfold visitValueObject. apply bind_ext. intros _ st1.
    unfold asObject, bind. rewrite Ho. simpl. by rewrite Hctor. }
  split; [apply Hrun|]. intros Hdispatch Hfresh. rewrite visitValue_fresh by done.
  rewrite <-Hrun. unfold visitValueOfKind. unfold dispatch in Hdispatch.
  repeat match type of Hdispatch with
         | (if ?b then _ else _) = _ => destruct b; try discriminate
         end.
  done.
Qed.

Lemma visitValueObject_constructed_object_witness :
  ∃ st', visitValue Sample.constructedRealm (call Sample.constructedRealm 5) 10 emptyState
         = Done tt st'
         ∧ values st' = [10; 0; 11] ∧ logged st' = [].
Proof.
  destruct (visitValueObject_constructed_object Sample.constructedRealm
              (call Sample.constructedRealm 5) 10 _ 11 emptyState eq_refl eq_refl)
    as [_ Hvisit].
  rewrite Hvisit; [|reflexivity|apply not_elem_of_nil].
  eexists. split_and!; reflexivity.
Defined.

Lemma bind_Done {A B} (m : M A) (k : A → M B) st b st' :
  (do x <- m; k x) st = Done b st' → ∃ a st1, m st = Done a st1 ∧ k a st1 = Done b st'.
Proof. unfold bind. destruct (m st) as [a st1| |]; [eauto|done..]. Qed.

Lemma foldEach_throws {A B} (l : list A) (body : B → A → M B) x acc st result st' :
  x ∈ l → (∀ acc st, ∃ e, body acc x st = Throw e st) →
  foldEach l body acc st ≠ Done result st'.
Proof.
  intros Hx Hthrow. revert acc st. induction l as [|y l IH]; intros acc st.
  { by apply elem_of_nil in Hx. }
  simpl. intros (acc' & st1 & Hbody & Hrest)%bind_Done.
  apply elem_of_cons in Hx as [->|Hx].
  - destruct (Hthrow acc st) as [e He]. congruence.
  - by apply (IH Hx acc' st1).
Qed.

(** C8: when the reference that a free name resolves to is named by a symbol,
    the loop of [visitValueFunction] throws at that name, with the tables
    untouched: nothing is logged and no binding is recorded for the name.  The
    whole method then throws the same error with the tables as the names
    before it left them, so no capture table is stored for the function; a
    function whose body has such a name never returns from
    [visitValueFunction]. *)
Theorem symbol_reference_is_fatal realm nested Environment functionInfo visitedBindings
    innerName reference symbol st :
  tryResolveBinding realm innerName Environment = Some reference →
  IsUnresolvableReference realm reference = false →
  Reference.referencedName reference = NameSymbol symbol →
  visitFunctionBinding realm nested Environment functionInfo visitedBindings innerName st
  = Throw symbolError st
  ∧ (∀ val f formalParameters code isResidual before after st0 st1 st2 table,
       functionOf realm val = Some f →
       FunctionValue.cls f
       = ECMAScriptFunction (Some formalParameters) (Some code) Environment isResidual →
       visitObjectProperties realm nested val st0 = Done tt st1 →
       getFunctionInfo realm val code isResidual st1 = Done functionInfo st2 →
       FunctionInfo.names functionInfo = before ++ innerName :: after →
       foldEach before (visitFunctionBinding realm nested Environment functionInfo) ∅ st2
       = Done table st →
       visitValueFunction realm nested val st0 = Throw symbolError st)
  ∧ ∀ fuel val f formalParameters code isResidual st0 st',
      Inv realm st0 →
      functionOf realm val = Some f →
      FunctionValue.cls f
      = ECMAScriptFunction formalParameters (Some code) Environment isResidual →
      (∀ val' f' formalParameters' Environment' isResidual',
         functionOf realm val' = Some f' →
         FunctionValue.cls f'
         = ECMAScriptFunction formalParameters' (Some code) Environment' isResidual' →
         innerName ∈ FunctionInfo.names (ClosureRefVisitor realm val')) →
      visitValueFunction realm (call realm fuel) val st0 ≠ Done tt st'.
Proof.
  intros Hresolve Hresolvable Hname.
  assert (∀ nested' info table st', visitFunctionBinding realm nested' Environment info table
                                      innerName st' = Throw symbolError st') as Hthrow.
  { intros nested' info table st'. unfold visitFunctionBinding, bind, invariant.
    by rewrite Hresolve, Hresolvable, Hname. }
  split_and!; [apply Hthrow| |].
  - intros val f fp code res before after st0 st1 st2 table Hf Hcls Hprops Hinfo Hnames
      Hbefore.
    unfold visitValueFunction, bind at 1. rewrite Hprops, Hf. simpl. rewrite Hcls.
    unfold bind at 1. simpl. unfold bind at 1. rewrite Hinfo.
    unfold bind at 1. rewrite Hnames, foldEach_app. unfold bind at 1. rewrite Hbefore.
    simpl. unfold bind at 1. by rewrite Hthrow.
  - intros fuel val f fp code res st0 st' Hinv Hf Hcls Hscan.
    unfold visitValueFunction. intros ([] & st1 & Hprops & Hrun)%bind_Done.
    pose proof (visitObjectProperties_ok realm True (λ _ _, True) (call realm fuel)
                  ltac:(done) ltac:(intros; by apply call_sound) val st0 Hinv ltac:(done))
      as Hwp.
    apply (wp_done _ _ _ _ _ _ Hwp) in Hprops as (_ & [[_ _ _ Hinfos] _] & _).
    rewrite Hf in Hrun. simpl in Hrun. rewrite Hcls in Hrun.
    apply bind_Done in Hrun as ([] & st2 & Hparameters & Hrun).
    assert (st2 = st1) as ->.
    { unfold invariant in Hparameters. destruct (bool_decide _); [|done].
      by injection Hparameters. }
    apply bind_Done in Hrun as (info & st3 & Hinfo & Hrun).
    apply bind_Done in Hrun as (table & st4 & Hloop & _).
    assert (innerName ∈ FunctionInfo.names info) as Hin.
    { unfold getFunctionInfo, bind, gets in Hinfo.
      destruct (functionInfos st1 !! code) as [memo|] eqn:Hmemo.
      - injection Hinfo as -> _.
        destruct (Hinfos code info Hmemo) as (val' & f' & fp' & env' & res' & ? & ? & ->).
        by eapply Hscan.
      - unfold modify, when, logError, modify, ret in Hinfo.
        destruct (_ && _); injection Hinfo as <- _; by eapply Hscan. }
    revert Hloop. apply (foldEach_throws _ _ innerName); [done|].
    intros acc st5. exists symbolError. apply Hthrow.
Qed.

Lemma symbol_reference_is_fatal_witness :
  visitValueFunction (Sample.closureRealm (NameSymbol 2))
    (call (Sample.closureRealm (NameSymbol 2)) 5) 10 emptyState
  = Throw symbolError
      (set_functionInfos (λ _, {[0 := FunctionInfo.mk ["x"; "y"] {["x"]} false false]})
         emptyState).
Proof.
  destruct (symbol_reference_is_fatal (Sample.closureRealm (NameSymbol 2))
              (call (Sample.closureRealm (NameSymbol 2)) 5) 0
              (FunctionInfo.mk ["x"; "y"] {["x"]} false false) ∅ "x"
              (Reference.mk (BaseDeclarativeEnvironmentRecord 0) (NameSymbol 2)) 2
              (set_functionInfos
                 (λ _, {[0 := FunctionInfo.mk ["x"; "y"] {["x"]} false false]}) emptyState)
              eq_refl eq_refl eq_refl) as (_ & Hfatal & _).
  apply (Hfatal 10 (FunctionValue.mk true "normal" true
                      (ECMAScriptFunction (Some []) (Some 0) 0 false))
           [] 0 false [] ["y"] emptyState emptyState
           (set_functionInfos
              (λ _, {[0 := FunctionInfo.mk ["x"; "y"] {["x"]} false false]}) emptyState) ∅);
    by vm_compute.
Defined.

Lemma Inv_empty realm : Inv realm emptyState.
Proof.
  split; split; simpl; try done.
  - apply NoDup_nil_2.
  - intros key w [? Hk]. by rewrite lookup_empty in Hk.
Qed.


Lemma enoughFuel_need realm rank c :
  need realm rank c emptyState ≤ enoughFuel realm rank.
Proof.
  unfold need, enoughFuel, unvisited. simpl. rewrite difference_empty_L.
  destruct c; lia.
Qed.

Lemma visitRoots_total realm rank fuel :
  ranked realm rank = true → enoughFuel realm rank ≤ fuel →
  wp False (visitRoots realm (call realm fuel))
    (good realm emptyState (λ _ st', ∀ root, root ∈ roots realm → root ∈ values st'))
    emptyState.
Proof.
  intros Hranked Hfuel.
  apply (visitRoots_ok realm False (λ c st, need realm rank c st ≤ fuel)).
  - intros c st1 st2 He%(need_mono realm rank c). lia.
  - intros c st Hpre Hneed. by apply (call_terminates realm rank).
  - apply Inv_empty.
  - intros c. pose proof (enoughFuel_need realm rank c). lia.
Qed.




Lemma closed_reachable realm infos visited root w :
  (∀ u, u ∈ visited → closedAt realm infos visited u) →
  root ∈ visited → reachable realm infos root w → w ∈ visited.
Proof.
  intros Hclosed Hroot Hreach. induction Hreach as [|u v w Hedge _ IH]; [done|].
  apply IH. by apply (Hclosed u).
Qed.






(** * What the tables hold during a pass *)

Section TableFacts.
Context (realm : Realm).

Lemma edge_mono infos infos' u w :
  infos ⊆ infos' → edge realm infos u w → edge realm infos' u w.
Proof.
  intros Hsub. unfold edge. destruct (dispatch realm u); try done.
  intros [Hp|f t th ar Hf Hcls Hin|f fp code env res info name Hf Hcls Hinfo Hname Hcap].
  - by constructor 1.
  - by econstructor 2.
  - econstructor 3; eauto. by eapply lookup_weaken.
Qed.

Lemma discovered_Ext st st' w :
  Ext st st' → discovered realm st w → discovered realm st' w.
Proof.
  intros He [Hroot|(u & Hu & Hedge)]; [by left|right]. exists u.
  split; [by eapply Ext_elem_of|]. eapply edge_mono; [apply He|done].
Qed.

Lemma discovered_step st u w :
  u ∈ values st → edge realm (functionInfos st) u w → discovered realm st w.
Proof. intros Hu Hedge. right. eauto. Qed.

Lemma discovered_root st root : root ∈ roots realm → discovered realm st root.
Proof. by left. Qed.

Lemma slotOf_mono st st' slot b :
  Ext st st' → slotOf st slot = Some b → slotOf st' slot = Some b.
Proof.
  intros He. destruct slot as [key|r n]; simpl.
  - intros Hb. eapply lookup_weaken; [done|apply He].
  - destruct (declarativeEnvironmentRecordsBindings st !! r) as [table|] eqn:Ht; [|done].
    intros Hb. destruct (ext_declarative _ _ He _ _ Ht) as (table' & -> & Hsub).
    by eapply lookup_weaken.
Qed.

Lemma capturesOf_mono st st' val table :
  Ext st st' → capturesOf realm st val table → capturesOf realm st' val table.
Proof.
  intros He (code & env & res & info & Hplain & Hinfo & Hdom & Hres).
  exists code, env, res, info. split_and!; [done| |done|].
  - eapply lookup_weaken; [done|apply He].
  - intros name b Hb. destruct (Hres name b Hb) as (slot & Hfor & Hof & Hm).
    exists slot. split_and!; [done|by eapply slotOf_mono|].
    intros Hin. eapply isModified_mono; eauto.
Qed.

Lemma modifies_mono st st' val slot :
  Ext st st' → modifies realm st val slot → modifies realm st' val slot.
Proof.
  intros He (code & env & res & info & name & Hval & Hd & Hplain & Hinfo & Hrest).
  exists code, env, res, info, name.
  split; [by eapply Ext_elem_of|]. split; [done|]. split; [done|]. split; [|done].
  eapply lookup_weaken; [done|apply He].
Qed.

Lemma recorded_Ext st st' obj key : Ext st st' → recorded st obj key → recorded st' obj key.
Proof.
  intros He (keys & Hkeys & Hin).
  destruct (ext_ignoredProperties _ _ He _ _ Hkeys) as (keys' & Hkeys' & Hsub).
  exists keys'. split; [done|]. by apply Hsub.
Qed.

Lemma Grown_refl st : Grown st st.
Proof. split; [apply Ext_refl|done]. Qed.

Lemma Grown_trans st1 st2 st3 : Grown st1 st2 → Grown st2 st3 → Grown st1 st3.
Proof. intros [He1 Hb1] [He2 Hb2]. split; [by eapply Ext_trans|auto]. Qed.

Lemma Grown_elem_of st st' v : Grown st st' → v ∈ values st → v ∈ values st'.
Proof. intros [He _]. by apply Ext_elem_of. Qed.

(** A step that leaves the capture tables alone. *)
Lemma Grown_Ext st st' :
  Ext st st' → functionBindings st' = functionBindings st → Grown st st'.
Proof. intros He Hb. split; [done|]. by rewrite Hb. Qed.

Lemma logged_Ext st st' error : Ext st st' → error ∈ logged st → error ∈ logged st'.
Proof. intros [_ _ _ _ _ _ [k ->]] Hin. apply elem_of_app. by left. Qed.

Lemma Complete_mono st st' u : Grown st st' → Complete realm st u → Complete realm st' u.
Proof.
  intros [He Hb] (Hignored & Hbindings & Hlogged). split_and!.
  - intros key Hd Hkey. eapply recorded_Ext; eauto.
  - intros code env res Hd Hplain. eapply Hb, Hbindings; eauto.
  - intros message Hm. eapply logged_Ext; eauto.
Qed.

(** The visit of [val] has returned: what it recorded and logged by [st]
    is still there in [st']. *)
Lemma Complete_from st st' val :
  Ext st st' →
  (∀ key, ignorable realm val key → recorded st val key) →
  (∀ message, expected realm val message → (val, message) ∈ logged st) →
  (∀ code Environment isResidual,
     dispatch realm val = AsFunction → plainFunction realm val code Environment isResidual →
     is_Some (functionBindings st' !! val)) →
  Complete realm st' val.
Proof.
  intros He Hrecorded Hlogged Hbindings. split_and!; [|done|].
  - intros key _ Hkey. eapply recorded_Ext; eauto.
  - intros message Hm. eapply logged_Ext; eauto.
Qed.

Lemma expected_dispatch val message :
  expected realm val message →
  dispatch realm val = AsFunction ∨ dispatch realm val = AsObject
  ∨ dispatch realm val = AsAbstract.
Proof. intros []; auto. Qed.

(** Nothing is recorded or logged for a value that [visitValue] does not
    look into. *)
Lemma Complete_terminal st val :
  descends realm val = false → dispatch realm val ≠ AsAbstract → Complete realm st val.
Proof.
  intros Hdesc Hd. unfold descends in Hdesc. split_and!.
  - intros key Hdesc'. unfold descends in Hdesc'. congruence.
  - intros code env res Hd'. by rewrite Hd' in Hdesc.
  - intros message [Hd'|[Hd'|Hd']]%expected_dispatch; [| |done]; by rewrite Hd' in Hdesc.
Qed.

Lemma Finished_refl st : Finished realm st st.
Proof. split; [apply Grown_refl|]. by intros u Hu Hn. Qed.

Lemma Finished_trans st1 st2 st3 :
  Finished realm st1 st2 → Finished realm st2 st3 → Finished realm st1 st3.
Proof.
  intros [Hg1 Hc1] [Hg2 Hc2]. split; [by eapply Grown_trans|].
  intros u Hu Hn. destruct (decide (u ∈ values st2)) as [Hin|Hout].
  - eapply Complete_mono; [done|]. by apply Hc1.
  - by apply Hc2.
Qed.

(** A step that visits nothing. *)
Lemma Finished_same st st' : Grown st st' → values st' = values st → Finished realm st st'.
Proof. intros Hg Hv. split; [done|]. intros u Hu Hn. by rewrite Hv in Hu. Qed.

Lemma Finished_Grown st st' : Finished realm st st' → Grown st st'.
Proof. by intros [? _]. Qed.

Lemma Finished_Ext st st' : Finished realm st st' → Ext st st'.
Proof. by intros [[? _] _]. Qed.

(** ** The rules of [holds] *)

Lemma holds_ret {A} (a : A) (Q : A → State → Prop) st :
  Sound realm st → Q a st → holds realm (ret a) Q st.
Proof. intros. unfold holds, ret. split_and!; [apply Finished_refl|done..]. Qed.

Lemma holds_throw {A} e (Q : A → State → Prop) st :
  Sound realm st → holds realm (throw e) Q st.
Proof. intros. unfold holds, throw. split; [apply Grown_refl|done]. Qed.

Lemma holds_seq {A B} (m : M A) (k : A → M B) Q1 Q st :
  holds realm m Q1 st →
  (∀ a st1, Finished realm st st1 → Sound realm st1 → Q1 a st1 → holds realm (k a) Q st1) →
  holds realm (do x <- m; k x) Q st.
Proof.
  unfold holds, bind. intros Hm Hk. destruct (m st) as [a st1|e st1|]; [|done..].
  destruct Hm as (Hf1 & Hs1 & Hq1). specialize (Hk a st1 Hf1 Hs1 Hq1).
  destruct (k a st1) as [b st2|e st2|]; [| |done].
  - destruct Hk as (Hf2 & Hs2 & Hq2). split_and!; [by eapply Finished_trans|done..].
  - destruct Hk as (Hg2 & Hs2). split; [|done].
    eapply Grown_trans; [|done]. by apply Finished_Grown.
Qed.

Lemma holds_mono {A} (m : M A) (Q Q' : A → State → Prop) st :
  holds realm m Q st →
  (∀ a st', Finished realm st st' → Sound realm st' → Q a st' → Q' a st') →
  holds realm m Q' st.
Proof.
  unfold holds. intros Hm HQ. destruct (m st) as [a st1|e st1|]; [|done..].
  destruct Hm as (? & ? & ?). split_and!; auto.
Qed.

(** [m] in [st] does what [m'] does in [st1], a step further. *)
Lemma holds_after {A} (m m' : M A) (Q : A → State → Prop) st st1 :
  m st = m' st1 → Grown st st1 → values st1 = values st →
  holds realm m' Q st1 → holds realm m Q st.
Proof.
  unfold holds. intros -> Hg Hv Hm. destruct (m' st1) as [a st2|e st2|]; [| |done].
  - destruct Hm as (Hf & Hs & Hq). split_and!; [|done..].
    eapply Finished_trans; [|done]. by apply Finished_same.
  - destruct Hm as (Hg2 & Hs). split; [by eapply Grown_trans|done].
Qed.

Lemma holds_gets {A B} (f : State → A) (k : A → M B) Q st :
  holds realm (k (f st)) Q st → holds realm (do x <- gets f; k x) Q st.
Proof. done. Qed.

Lemma holds_modify {B} f (k : M B) Q st :
  Grown st (f st) → values (f st) = values st →
  holds realm k Q (f st) → holds realm (modify f >> k) Q st.
Proof. intros Hg Hv Hk. by eapply (holds_after _ k). Qed.

Lemma holds_modify_last f (Q : unit → State → Prop) st :
  Grown st (f st) → values (f st) = values st → Sound realm (f st) → Q tt (f st) →
  holds realm (modify f) Q st.
Proof.
  intros Hg Hv Hs Hq. unfold holds, modify. split_and!; [by apply Finished_same|done..].
Qed.

Lemma holds_invariant {B} b (k : M B) Q st :
  Sound realm st → (b = true → holds realm k Q st) → holds realm (invariant b >> k) Q st.
Proof.
  intros Hs Hk. destruct b; [by apply Hk|]. unfold holds. simpl.
  split; [apply Grown_refl|done].
Qed.

Lemma holds_when b m (Q : unit → State → Prop) st :
  (b = true → holds realm m Q st) → (b = false → holds realm (ret tt) Q st) →
  holds realm (when b m) Q st.
Proof. intros H1 H2. destruct b; [by apply H1|by apply H2]. Qed.

Lemma holds_asObject {B} val (k : ObjectValue.t → M B) Q st :
  Sound realm st → (∀ o, objectOf realm val = Some o → holds realm (k o) Q st) →
  holds realm (do o <- asObject realm val; k o) Q st.
Proof.
  intros Hs Hk. unfold asObject. destruct (objectOf realm val) as [o|].
  - by apply Hk.
  - unfold holds. simpl. split; [apply Grown_refl|done].
Qed.

Lemma holds_forEach {A} (l : list A) (body : A → M unit) (Q : A → State → Prop) st :
  (∀ x st1 st2, Q x st1 → Ext st1 st2 → Q x st2) →
  (∀ x st1, x ∈ l → Finished realm st st1 → Sound realm st1 →
     holds realm (body x) (λ _, Q x) st1) →
  Sound realm st →
  holds realm (forEach l body) (λ _ st', ∀ x, x ∈ l → Q x st') st.
Proof.
  intros HQ. revert st. induction l as [|x l IH]; intros st Hbody Hs; simpl.
  - apply holds_ret; [done|]. intros x Hx. by apply elem_of_nil in Hx.
  - eapply holds_seq.
    + apply Hbody; [by left|apply Finished_refl|done].
    + intros [] st1 Hf1 Hs1 Hq1. eapply holds_mono.
      * apply IH; [|done]. intros y st2 Hy Hf2 Hs2.
        apply Hbody; [by right|by eapply Finished_trans|done].
      * intros [] st2 Hf2 Hs2 Hq2 y Hy. apply elem_of_cons in Hy as [->|Hy]; [|eauto].
        eapply HQ; [done|]. by eapply Finished_Ext.
Qed.

Lemma holds_forEach_plain {A} (l : list A) (body : A → M unit) st :
  Sound realm st →
  (∀ x st1, x ∈ l → Finished realm st st1 → Sound realm st1 →
     holds realm (body x) (λ _ _, True) st1) →
  holds realm (forEach l body) (λ _ _, True) st.
Proof.
  intros Hs Hbody. eapply holds_mono; [|done].
  by apply (holds_forEach _ _ (λ _ _, True)).
Qed.

(** The step of [visitValue] that inserts [val]: when the rest returns,
    the visit of [val] has. *)
Lemma holds_add val (m : M unit) st :
  val ∉ values st →
  holds realm m (λ _ st', Complete realm st' val) (set_values (Set_add val) st) →
  holds realm (modify (set_values (Set_add val)) >> m) (λ _ st', val ∈ values st') st.
Proof.
  intros Hfresh. unfold holds, bind, modify.
  set (st1 := set_values (Set_add val) st).
  assert (Ext st st1) as He.
  { split; simpl; eauto using store_le_refl. unfold Set_add.
    destruct (Set_has _ _); [done|by apply prefix_app_r]. }
  assert (val ∈ values st1) as Hin.
  { simpl. unfold Set_add. destruct (Set_has val (values st)) eqn:Hhas.
    - by apply bool_decide_eq_true in Hhas.
    - apply elem_of_app. right. apply list_elem_of_here. }
  destruct (m st1) as [[] st2|e st2|]; [| |done].
  - intros ([Hg Hnew] & Hs & Hc). split_and!; [split| |].
    + eapply Grown_trans; [|done]. by apply Grown_Ext.
    + intros u Hu Hn. destruct (decide (u = val)) as [->|Hne]; [done|].
      apply Hnew; [done|]. simpl. unfold Set_add. destruct (Set_has val (values st)); [done|].
      rewrite elem_of_app, list_elem_of_singleton. tauto.
    + done.
    + by eapply Grown_elem_of.
  - intros [Hg Hs]. split; [|done]. eapply Grown_trans; [|done]. by apply Grown_Ext.
Qed.

Lemma discovered_Finished st st' w :
  Finished realm st st' → discovered realm st w → discovered realm st' w.
Proof. intros Hf. by apply discovered_Ext, Finished_Ext. Qed.

Lemma Finished_elem_of st st' v : Finished realm st st' → v ∈ values st → v ∈ values st'.
Proof. intros Hf. by apply Ext_elem_of, Finished_Ext. Qed.

Lemma holds_foldEach {A B} (l : list A) (body : B → A → M B)
    (I : list A → B → State → Prop) acc st :
  (∀ pre x b st1, pre ++ [x] `prefix_of` l → Finished realm st st1 → Sound realm st1 →
     I pre b st1 → holds realm (body b x) (λ b' st2, I (pre ++ [x]) b' st2) st1) →
  Sound realm st → I [] acc st →
  holds realm (foldEach l body acc) (λ b st', I l b st') st.
Proof.
  intros Hbody Hs HI.
  cut (∀ rest pre b st1, l = pre ++ rest → Finished realm st st1 → Sound realm st1 →
         I pre b st1 → holds realm (foldEach rest body b) (λ b' st', I l b' st') st1).
  { intros H. apply (H l [] acc st); [done|apply Finished_refl|done..]. }
  induction rest as [|x rest IH]; intros pre b st1 Hl Hf1 Hs1 HI1; simpl.
  - apply holds_ret; [done|]. by rewrite Hl, app_nil_r.
  - eapply holds_seq.
    + apply (Hbody pre x b st1); [|done..]. rewrite Hl. exists rest. by rewrite <-app_assoc.
    + intros b' st2 Hf2 Hs2 HI2. apply (IH (pre ++ [x])); [|by eapply Finished_trans|done..].
      by rewrite Hl, <-app_assoc.
Qed.
End TableFacts.

(** ** Each write keeps the tables sound *)

Section Writes.
Context (realm : Realm).

Lemma Set_add_elem_of val s w : w ∈ Set_add val s ↔ w ∈ s ∨ w = val.
Proof.
  unfold Set_add, Set_has. case_bool_decide.
  - split; [auto|]. by intros [?| ->].
  - by rewrite elem_of_app, list_elem_of_singleton.
Qed.

Lemma Ext_add st val : Ext st (set_values (Set_add val) st).
Proof.
  split; simpl; eauto using store_le_refl. unfold Set_add.
  destruct (Set_has _ _); [done|by apply prefix_app_r].
Qed.

Lemma Sound_add st val :
  Sound realm st → discovered realm st val → Sound realm (set_values (Set_add val) st).
Proof.
  intros [Hv Hi Hl Hf Hs Hd Hm Hb] Hval.
  pose proof (Ext_add st val) as He.
  split.
  - simpl. unfold Set_add. destruct (Set_has val (values st)); [done|].
    intros i w Hw. apply lookup_app_Some in Hw as [Hw|[Hlen Hw]].
    + destruct (Hv i w Hw) as [?|(j & u & Hj & Hu & Hedge)]; [by left|right].
      exists j, u. split_and!; [done|by apply lookup_app_l_Some|done].
    + apply list_lookup_singleton_Some in Hw as [Hi' <-].
      destruct Hval as [?|(u & Hu & Hedge)]; [by left|right].
      apply list_elem_of_lookup in Hu as [j Hj]. exists j, u.
      split_and!; [|by apply lookup_app_l_Some|done].
      apply lookup_lt_Some in Hj. lia.
  - intros obj keys key Hk Hkey. destruct (Hi obj keys key Hk Hkey) as (? & ? & ?).
    split_and!; [by eapply Ext_elem_of|done..].
  - intros v msg Hin. destruct (Hl v msg Hin) as [? ?]. split; [by eapply Ext_elem_of|done].
  - intros code info Hinfo. destruct (Hf code info Hinfo) as (v & env & res & ? & ? & ? & ?).
    exists v, env, res. split_and!; [by eapply Ext_elem_of|done..].
  - exact Hs.
  - exact Hd.
  - intros slot b binding H1 H2 H3. destruct (Hm slot b binding H1 H2 H3) as [?|[v Hv']];
      [by left|right]. exists v. by eapply modifies_mono.
  - intros v table Ht. destruct (Hb v table Ht) as (? & ? & ?).
    split_and!; [by eapply Ext_elem_of|done|by eapply capturesOf_mono].
Qed.

Lemma Ext_ignore st obj key :
  Ext st (set_ignoredProperties (λ ignoredProperties,
            <[obj := {[key]} ∪ default ∅ (ignoredProperties !! obj)]> ignoredProperties) st).
Proof.
  apply Ext_values_eq; simpl; eauto.
  intros o keys Hk. destruct (decide (o = obj)) as [->|Hne].
  - rewrite lookup_insert_eq. rewrite Hk. simpl. eexists. split; [done|].
    apply union_subseteq_r.
  - rewrite lookup_insert_ne by done. eauto.
Qed.

Lemma Sound_ignore st obj key :
  Sound realm st → obj ∈ values st → descends realm obj = true → ignorable realm obj key →
  Sound realm (set_ignoredProperties (λ ignoredProperties,
                 <[obj := {[key]} ∪ default ∅ (ignoredProperties !! obj)]> ignoredProperties)
                 st).
Proof.
  intros [Hv Hi Hl Hf Hs Hd Hm Hb] Hobj Hdesc Hkey. split; try done.
  simpl. intros o keys k Hk Hin. destruct (decide (o = obj)) as [->|Hne].
  - rewrite lookup_insert_eq in Hk. injection Hk as <-.
    apply elem_of_union in Hin as [->%elem_of_singleton|Hin]; [done|].
    destruct (ignoredProperties st !! obj) as [keys|] eqn:Hkeys; simpl in Hin.
    + by eapply Hi.
    + by apply elem_of_empty in Hin.
  - rewrite lookup_insert_ne in Hk by done. by eapply Hi.
Qed.

Lemma Sound_log st val message :
  Sound realm st → val ∈ values st → diagnostic realm val message →
  Sound realm (set_logged (λ l, l ++ [(val, message)]) st).
Proof.
  intros [Hv Hi Hl Hf Hs Hd Hm Hb] Hval Hdiag. split; try done.
  simpl. intros v msg [Hin|[= -> ->]%list_elem_of_singleton]%elem_of_app; [by apply Hl|done].
Qed.

Lemma Ext_info st code functionInfo :
  functionInfos st !! code = None →
  Ext st (set_functionInfos <[code := functionInfo]> st).
Proof. intros Hnone. split; simpl; eauto using store_le_refl. by apply insert_subseteq. Qed.

Lemma Sound_info st val code Environment isResidual :
  Sound realm st → val ∈ values st → dispatch realm val = AsFunction →
  plainFunction realm val code Environment isResidual →
  functionInfos st !! code = None →
  Sound realm (set_functionInfos <[code := ClosureRefVisitor realm val]> st).
Proof.
  intros [Hv Hi Hl Hf Hs Hd Hm Hb] Hval Hdisp Hplain Hnone.
  pose proof (Ext_info st code (ClosureRefVisitor realm val) Hnone) as He.
  split; try done.
  - intros i w Hw. destruct (Hv i w Hw) as [?|(j & u & Hj & Hu & Hedge)]; [by left|right].
    exists j, u. split_and!; [done..|]. eapply edge_mono; [apply He|done].
  - simpl. intros code' info Hinfo. destruct (decide (code = code')) as [<-|Hne].
    + rewrite lookup_insert_eq in Hinfo. injection Hinfo as <-.
      by exists val, Environment, isResidual.
    + rewrite lookup_insert_ne in Hinfo by done. eauto.
  - intros slot b binding H1 H2 H3. destruct (Hm slot b binding H1 H2 H3) as [?|[v Hv']];
      [by left|right]. exists v. by eapply modifies_mono.
  - intros v table Ht. destruct (Hb v table Ht) as (? & ? & ?).
    split_and!; [done..|by eapply capturesOf_mono].
Qed.

Lemma Sound_functionBindings st val table :
  Sound realm st → val ∈ values st → dispatch realm val = AsFunction →
  capturesOf realm st val table →
  Sound realm (set_functionBindings <[val := table]> st).
Proof.
  intros [Hv Hi Hl Hf Hs Hd Hm Hb] Hval Hdisp Hcap. split; try done.
  simpl. intros v t Ht. destruct (decide (val = v)) as [<-|Hne].
  - rewrite lookup_insert_eq in Ht. by injection Ht as <-.
  - rewrite lookup_insert_ne in Ht by done. by apply Hb.
Qed.

Lemma Grown_functionBindings st val table :
  Grown st (set_functionBindings <[val := table]> st).
Proof.
  split; [apply Ext_functionBindings|]. simpl. intros v Hv.
  destruct (decide (val = v)) as [<-|Hne].
  - rewrite lookup_insert_eq. eauto.
  - by rewrite lookup_insert_ne.
Qed.

Lemma slotOf_ensureTable st r slot : slotOf (ensureTable r st) slot = slotOf st slot.
Proof.
  destruct slot as [key|r' n]; [done|]. simpl.
  destruct (declarativeEnvironmentRecordsBindings st !! r) as [table|] eqn:Hr; [done|].
  destruct (decide (r = r')) as [<-|Hne].
  - by rewrite lookup_insert_eq, Hr, lookup_empty.
  - by rewrite lookup_insert_ne.
Qed.

Lemma Ext_ensureTable st r : Ext st (ensureTable r st).
Proof.
  split; simpl; eauto using store_le_refl.
  intros r' t Ht. destruct (declarativeEnvironmentRecordsBindings st !! r) as [table|] eqn:Hr;
    [eauto|].
  destruct (decide (r = r')) as [<-|Hne]; [congruence|].
  rewrite lookup_insert_ne by done. eauto.
Qed.

Lemma Sound_ensureTable st r : Sound realm st → Sound realm (ensureTable r st).
Proof.
  intros [Hv Hi Hl Hf Hs Hd Hm Hb]. pose proof (Ext_ensureTable st r) as He.
  split; try done.
  - intros slot b. rewrite slotOf_ensureTable. apply Hs.
  - intros slot slot' b. rewrite !slotOf_ensureTable. apply Hd.
  - intros slot b binding. rewrite slotOf_ensureTable. intros H1 H2 H3.
    destruct (Hm slot b binding H1 H2 H3) as [?|[v Hv']]; [by left|right].
    exists v. by eapply modifies_mono.
  - intros v table Ht. destruct (Hb v table Ht) as (? & ? & ?).
    split_and!; [done..|by eapply capturesOf_mono].
Qed.

Lemma slotOf_register st slot binding :
  slotOf (register slot binding st) slot = Some (length (store st)).
Proof.
  destruct slot as [key|r n]; unfold slotOf, register;
    cbn [globalBindings declarativeEnvironmentRecordsBindings set_globalBindings
         set_declarativeEnvironmentRecordsBindings set_store store].
  - apply lookup_insert_eq.
  - rewrite lookup_insert_eq. apply lookup_insert_eq.
Qed.

Lemma slotOf_register_ne st slot binding slot' :
  slot' ≠ slot → slotOf (register slot binding st) slot' = slotOf st slot'.
Proof.
  intros Hne. destruct slot as [key|r n], slot' as [key'|r' n']; unfold slotOf, register;
    cbn [globalBindings declarativeEnvironmentRecordsBindings set_globalBindings
         set_declarativeEnvironmentRecordsBindings set_store store]; [|done..|].
  - rewrite lookup_insert_ne; [done|congruence].
  - destruct (decide (r = r')) as [<-|Hr].
    + rewrite lookup_insert_eq. rewrite lookup_insert_ne by congruence.
      by destruct (declarativeEnvironmentRecordsBindings st !! r).
    + by rewrite lookup_insert_ne.
Qed.

Lemma Ext_register st slot binding :
  slotOf st slot = None → Ext st (register slot binding st).
Proof.
  intros Hnone. destruct slot as [key|r n]; simpl in *.
  - split; simpl; eauto using store_le_app. by apply insert_subseteq.
  - split; simpl; eauto using store_le_app.
    intros r' t Ht. destruct (decide (r = r')) as [<-|Hne].
    + rewrite lookup_insert_eq. eexists. split; [done|]. rewrite Ht in *. simpl.
      by apply insert_subseteq.
    + rewrite lookup_insert_ne by done. eauto.
Qed.

Lemma store_register st slot binding :
  store (register slot binding st) = store st ++ [binding].
Proof. by destruct slot. Qed.

Lemma Sound_register st slot binding :
  Sound realm st → slotOf st slot = None →
  (VisitedBinding.modified binding = true → ∃ key, slot = GlobalSlot key) →
  Sound realm (register slot binding st).
Proof.
  intros [Hv Hi Hl Hf Hs Hd Hm Hb] Hnone Hbinding.
  pose proof (Ext_register st slot binding Hnone) as He.
  assert (∀ slot' b, slotOf st slot' = Some b → b < length (store st)) as Hlt.
  { intros slot' b Hb'. by apply lookup_lt_is_Some, (Hs slot'). }
  split.
  - by destruct slot.
  - intros obj keys key Hk Hkey. destruct slot; by eapply Hi.
  - intros v msg Hin. destruct slot; by eapply Hl.
  - intros code info Hinfo. destruct slot; by eapply Hf.
  - intros slot' b. rewrite store_register. destruct (decide (slot' = slot)) as [->|Hslot].
    + rewrite slotOf_register. intros [= <-]. rewrite lookup_app_r, Nat.sub_diag by done.
      eauto.
    + rewrite slotOf_register_ne by done. intros Hb'.
      destruct (Hs slot' b Hb') as [vb Hvb]. exists vb. by apply lookup_app_l_Some.
  - intros slot1 slot2 b.
    destruct (decide (slot1 = slot)) as [->|H1], (decide (slot2 = slot)) as [->|H2];
      rewrite ?slotOf_register, ?slotOf_register_ne by done.
    + done.
    + intros [= <-] H%Hlt. lia.
    + intros H%Hlt [= <-]. lia.
    + apply Hd.
  - intros slot' b vb. rewrite store_register. destruct (decide (slot' = slot)) as [->|Hslot].
    + rewrite slotOf_register. intros [= <-]. rewrite lookup_app_r, Nat.sub_diag by done.
      simpl. intros [= <-] Hmod. left. auto.
    + rewrite slotOf_register_ne by done.
      intros Hb' Hvb Hmod. rewrite lookup_app_l in Hvb by by eapply Hlt.
      destruct (Hm slot' b vb Hb' Hvb Hmod) as [?|[v Hv']]; [by left|right].
      exists v. by eapply modifies_mono.
  - intros v table Ht. assert (functionBindings st !! v = Some table) as Ht'
      by by destruct slot.
    destruct (Hb v table Ht') as (Hin & ? & ?).
    split_and!; [by destruct slot|done|by eapply capturesOf_mono].
Qed.

Lemma store_flag st b i :
  store (flag b st) !! i
  = if decide (i = b)
    then (λ vb, VisitedBinding.mk (VisitedBinding.global vb) (VisitedBinding.value vb) true
                  (VisitedBinding.declarativeEnvironmentRecord vb)) <$> store st !! b
    else store st !! i.
Proof.
  unfold flag. simpl. destruct (store st !! b) as [vb|] eqn:Hb.
  - case_decide as Hi; [subst i|].
    + simpl. rewrite list_lookup_insert_eq; [done|by eapply lookup_lt_Some].
    + by rewrite list_lookup_insert_ne.
  - case_decide as Hi; [by subst i|done].
Qed.

Lemma Ext_flag st b : Ext st (flag b st).
Proof.
  split; try (simpl; eauto; done).
  intros i vb Hi. rewrite store_flag. case_decide as Hib; [subst i|by exists vb].
  rewrite Hi. simpl. eexists. split; [done|]. done.
Qed.

Lemma isModified_flag st b : is_Some (store st !! b) → isModified (flag b st) b.
Proof.
  intros [vb Hb]. unfold isModified. rewrite store_flag, decide_True, Hb by done.
  simpl. eexists. split; [done|]. done.
Qed.

Lemma Sound_flag st b slot val :
  Sound realm st → slotOf st slot = Some b → modifies realm st val slot →
  Sound realm (flag b st).
Proof.
  intros [Hv Hi Hl Hf Hs Hd Hm Hb] Hslot Hmodifies.
  pose proof (Ext_flag st b) as He. split; try done.
  - intros slot' b' Hb'. destruct (Hs slot' b' Hb') as [vb Hvb].
    destruct (ext_store _ _ He _ _ Hvb) as (vb' & ? & _). eauto.
  - intros slot' b' vb Hb' Hvb Hmod. rewrite store_flag in Hvb. case_decide as Hbb.
    + subst b'. right. exists val. assert (slot' = slot) as -> by by eapply Hd.
      by eapply modifies_mono.
    + destruct (Hm slot' b' vb Hb' Hvb Hmod) as [?|[v Hv']]; [by left|right].
      exists v. by eapply modifies_mono.
  - intros v table Ht. destruct (Hb v table Ht) as (? & ? & ?).
    split_and!; [done..|by eapply capturesOf_mono].
Qed.
End Writes.

(** ** Each method keeps the tables sound *)

Section LogFacts.
Context (realm : Realm).

(** [_canIgnoreProperty] logs at most the error for a function whose
    [length] is an accessor. *)
Lemma _canIgnoreProperty_log val key desc :
  ∃ (answer : option bool) (errors : list (vid * string)),
    (∀ st, _canIgnoreProperty realm val key desc st
           = match answer with
             | Some ignore => Done ignore (set_logged (λ l, l ++ errors) st)
             | None => Throw TypeError st
             end)
    ∧ (errors = []
       ∨ errors = [(val, lengthAccessorError)]
         ∧ IsArray realm val = false ∧ is_Some (functionOf realm val)
         ∧ key = "length" ∧ Descriptor.value desc = None).
Proof.
  assert (∀ st, set_logged (λ l, l ++ []) st = st) as Hnil.
  { intros []. unfold set_logged. simpl. by rewrite app_nil_r. }
  unfold _canIgnoreProperty, asObject, when, logError, modify, bind, ret, throw.
  repeat case_match;
    first [ by (eexists None, []; split; [intros st|left])
          | by (eexists (Some _), []; split; [intros st; rewrite Hnil|left])
          | (eexists (Some _), [_]; split; [by intros st|right];
             repeat match goal with
                    | H : bool_decide _ = true |- _ => apply bool_decide_eq_true_1 in H
                    end;
             by split_and!; eauto) ].
Qed.

Lemma _canIgnoreProperty_accessor val desc st :
  IsArray realm val = false → is_Some (functionOf realm val) →
  Descriptor.value desc = None →
  ∃ ignore, _canIgnoreProperty realm val "length" desc st
            = Done ignore (set_logged (λ l, l ++ [(val, lengthAccessorError)]) st).
Proof.
  intros Harray [f Hf] Hvalue. unfold _canIgnoreProperty. rewrite Harray, Hf, Hvalue.
  simpl. eexists. reflexivity.
Qed.

Lemma dispatch_function val :
  dispatch realm val = AsFunction →
  IsArray realm val = false ∧ is_Some (functionOf realm val).
Proof.
  unfold dispatch. intros Hd.
  destruct (IsArray realm val) eqn:Harray, (instanceof_FunctionValue realm val) eqn:Hfun;
    repeat match type of Hd with
           | (if ?b then _ else _) = _ => destruct b; try discriminate
           end.
  split; [done|]. by apply bool_decide_eq_true in Hfun.
Qed.

Lemma set_logged_nil st : set_logged (λ l, l ++ []) st = st.
Proof. destruct st. unfold set_logged. simpl. by rewrite app_nil_r. Qed.

Lemma _canIgnoreProperty_holds obj o key propertyBinding desc st :
  Sound realm st → obj ∈ values st → objectOf realm obj = Some o →
  (key, propertyBinding) ∈ ObjectValue.properties o →
  PropertyBinding.descriptor propertyBinding = Some desc →
  holds realm (_canIgnoreProperty realm obj key desc)
    (λ ignore st', ignore = canIgnoreProperty realm obj key desc
                   ∧ (dispatch realm obj = AsFunction → key = "length" →
                      Descriptor.value desc = None →
                      (obj, lengthAccessorError) ∈ logged st')) st.
Proof.
  intros Hs Hobj Ho Hin Hdesc.
  destruct (_canIgnoreProperty_log obj key desc) as (answer & errors & Hrun & Herrors).
  unfold holds, canIgnoreProperty. rewrite !Hrun.
  destruct answer as [ignore|]; [|split; [apply Grown_refl|done]].
  destruct Herrors as [->|(-> & Harray & Hfun & -> & Hvalue)].
  - rewrite set_logged_nil. split_and!; [apply Finished_refl|done..|].
    intros [Harray Hfun]%dispatch_function -> Hvalue.
    destruct (_canIgnoreProperty_accessor obj desc st Harray Hfun Hvalue) as [ignore' Hrun'].
    rewrite Hrun, set_logged_nil in Hrun'. injection Hrun' as _ Hst.
    apply (f_equal logged) in Hst. simpl in Hst.
    rewrite <-(app_nil_r (logged st)) in Hst at 1. by apply app_inv_head in Hst.
  - split_and!; [|apply Sound_log; [done..|]|done|].
    + apply Finished_same; [|done]. apply Grown_Ext; [apply Ext_logError|done].
    + by eapply diagnostic_length.
    + intros _ _ _. simpl. apply elem_of_app. right. apply list_elem_of_here.
Qed.
End LogFacts.

Section Keeps.
Context (realm : Realm) (call : Call → M unit).
Hypothesis call_holds :
  ∀ c st, Sound realm st → due realm c st → holds realm (call c) (λ _ _, True) st.


Lemma visit_holds val st :
  Sound realm st → discovered realm st val → holds realm (call (VisitValue val)) (λ _ _, True) st.
Proof. intros. by apply call_holds. Qed.

Lemma visitOptional_holds (o : option vid) st :
  Sound realm st → (∀ w, o = Some w → discovered realm st w) →
  holds realm (match o with Some v => call (VisitValue v) | None => ret tt end) (λ _ _, True) st.
Proof. intros Hs Hr. destruct o; [apply visit_holds; auto|by apply holds_ret]. Qed.

Lemma visitDescriptor_holds desc st :
  Sound realm st → (∀ w, w ∈ descriptorValues desc → discovered realm st w) →
  holds realm (visitDescriptor call desc) (λ _ _, True) st.
Proof.
  intros Hs Hr. unfold visitDescriptor.
  assert (∀ o w, o ∈ [Descriptor.value desc; Descriptor.get desc; Descriptor.set desc] →
            o = Some w → discovered realm st w) as Hr'.
  { intros o w Ho ->. apply Hr. unfold descriptorValues.
    rewrite !elem_of_app, !elem_of_option_list.
    rewrite !elem_of_cons in Ho. destruct Ho as [?|[?|[?|?%elem_of_nil]]]; auto. done. }
  eapply holds_seq; [apply visitOptional_holds; [done|]|].
  { intros w. apply Hr'. apply list_elem_of_here. }
  intros [] st1 Hf1 Hs1 _. eapply holds_seq; [apply visitOptional_holds; [done|]|].
  { intros w Hw. eapply discovered_Finished; [done|]. eapply Hr'; [|done].
    apply list_elem_of_further, list_elem_of_here. }
  intros [] st2 Hf2 Hs2 _. apply visitOptional_holds; [done|].
  intros w Hw. do 2 (eapply discovered_Finished; [eassumption|]). eapply Hr'; [|done].
  do 2 apply list_elem_of_further. apply list_elem_of_here.
Qed.

Lemma visitObjectPrototype_holds obj st :
  Sound realm st → (∀ w, propertyTarget realm obj w → discovered realm st w) →
  holds realm (visitObjectPrototype realm call obj) (λ _ _, True) st.
Proof.
  intros Hs Hr. unfold visitObjectPrototype. apply holds_asObject; [done|]. intros o Ho.
  case_bool_decide as Hproto; [by apply holds_ret|].
  apply visit_holds; [done|]. apply Hr. by eapply target_prototype.
Qed.

Lemma visitConstructorPrototype_holds func st :
  Sound realm st → instanceof_FunctionValue realm func = true →
  (∀ w, propertyTarget realm func w → discovered realm st w) →
  holds realm (visitConstructorPrototype realm call func) (λ _ _, True) st.
Proof.
  intros Hs Hfun Hr. unfold visitConstructorPrototype. apply holds_asObject; [done|].
  intros o Ho.
  destruct (getPropertyValue o "prototype") as [prototype|] eqn:Hget; [|by apply holds_ret].
  destruct (objectOf realm prototype) as [p|] eqn:Hp; [|by apply holds_ret].
  destruct (bool_decide _ && _) eqn:Hcond; [|by apply holds_ret].
  apply andb_true_iff in Hcond as [Hc%bool_decide_eq_true Hd%negb_true_iff].
  apply visit_holds; [done|]. apply Hr. by eapply target_constructor_prototype.
Qed.

Lemma visitObjectProperty_holds obj o entry st :
  Sound realm st → obj ∈ values st → descends realm obj = true →
  objectOf realm obj = Some o → entry ∈ ObjectValue.properties o →
  (∀ w, propertyTarget realm obj w → discovered realm st w) →
  holds realm (visitObjectProperty realm call obj entry)
    (λ _ st', ∀ desc,
       PropertyBinding.descriptor entry.2 = Some desc →
       (canIgnoreProperty realm obj entry.1 desc = true → recorded st' obj entry.1)
       ∧ (dispatch realm obj = AsFunction → entry.1 = "length" →
          Descriptor.value desc = None → (obj, lengthAccessorError) ∈ logged st')) st.
Proof.
  intros Hs Hobj Hdesc Ho Hin Hr. destruct entry as [key propertyBinding]. simpl.
  destruct (PropertyBinding.descriptor propertyBinding) as [desc|] eqn:Hd;
    [|by apply holds_ret].
  eapply holds_seq; [by eapply _canIgnoreProperty_holds|].
  intros ignore st1 Hf1 Hs1 [-> Hlogged].
  destruct (canIgnoreProperty realm obj key desc) eqn:Hignore.
  - apply holds_modify_last; [apply Grown_Ext; [apply Ext_ignore|done]|done| |].
    + apply Sound_ignore; [done|by eapply Finished_elem_of|done|].
      by exists o, propertyBinding, desc.
    + intros desc' [= <-]. split; [|done]. intros _. simpl. eexists.
      split; [apply lookup_insert_eq|]. apply elem_of_union_l. by apply elem_of_singleton.
  - eapply holds_mono; [apply visitDescriptor_holds; [done|]|].
    + intros w Hw. eapply discovered_Finished; [done|]. apply Hr.
      by eapply target_descriptor.
    + intros [] st2 Hf2 _ _ desc' [= <-]. split; [intros ?; congruence|]. intros ? ? ?.
      eapply logged_Ext; [by eapply Finished_Ext|]. auto.
Qed.

Lemma visitObjectProperties_holds obj st :
  Sound realm st → obj ∈ values st → descends realm obj = true →
  (∀ w, propertyTarget realm obj w → discovered realm st w) →
  holds realm (visitObjectProperties realm call obj)
    (λ _ st', (∀ key, ignorable realm obj key → recorded st' obj key)
              ∧ ∀ message, dispatch realm obj = AsFunction → expected realm obj message →
                           (obj, message) ∈ logged st') st.
Proof.
  intros Hs Hobj Hdesc Hr. unfold visitObjectProperties. apply holds_asObject; [done|].
  intros o Ho.
  assert (∀ st', Finished realm st st' → ∀ w, propertyTarget realm obj w → discovered realm st' w)
    as Hr'.
  { intros st' Hf w Hw. eapply discovered_Finished; eauto. }
  eapply holds_seq.
  { apply (holds_forEach _ _ _ (λ entry st', ∀ desc,
      PropertyBinding.descriptor entry.2 = Some desc →
      (canIgnoreProperty realm obj entry.1 desc = true → recorded st' obj entry.1)
      ∧ (dispatch realm obj = AsFunction → entry.1 = "length" →
         Descriptor.value desc = None → (obj, lengthAccessorError) ∈ logged st')));
      [| |done].
    - intros x st1 st2 Hq He desc Hd. destruct (Hq desc Hd) as [Hq1 Hq2]. split.
      + intros Hc. eapply recorded_Ext; eauto.
      + intros ? ? ?. eapply logged_Ext; eauto.
    - intros x st1 Hx Hf1 Hs1. eapply visitObjectProperty_holds; eauto.
      by eapply Finished_elem_of. }
  intros [] st1 Hf1 Hs1 H1.
  assert (∀ st', Ext st1 st' →
            (∀ key, ignorable realm obj key → recorded st' obj key)
            ∧ ∀ message, dispatch realm obj = AsFunction → expected realm obj message →
                         (obj, message) ∈ logged st') as Hrec.
  { intros st' He. split.
    - intros key (o' & pb & desc & Ho' & Hin & Hd & Hc). rewrite Ho in Ho'.
      injection Ho' as <-. eapply recorded_Ext; [done|]. by eapply (H1 (key, pb)).
    - intros message Hfun Hexpected. eapply logged_Ext; [done|].
      destruct Hexpected as [o' pb desc _ Ho' Hin Hd Hvalue|o' Hd' _ _ _|a Hd' _ _];
        [|congruence..].
      rewrite Ho in Ho'. injection Ho' as <-. by eapply (H1 ("length", pb)). }
  eapply holds_seq.
  { instantiate (1 := λ _ _, True).
    destruct (ObjectValue.unknownProperty o) as [up|] eqn:Hup; [|by apply holds_ret].
    destruct (PropertyBinding.descriptor up) as [desc|] eqn:Hd; [|by apply holds_ret].
    destruct (Descriptor.value desc) as [val|] eqn:Hval; [|by apply holds_throw].
    apply holds_invariant; [done|]. intros Habs. apply call_holds; [done|].
    intros w Hw. apply Hr'; [done|]. by eapply target_computed. }
  intros [] st2 Hf2 Hs2 _.
  eapply holds_seq; [apply visitObjectPrototype_holds; [done|]|].
  { apply Hr'. by eapply Finished_trans. }
  intros [] st3 Hf3 Hs3 _.
  assert (Ext st1 st3) as He3.
  { eapply Ext_trans; by eapply Finished_Ext. }
  apply holds_when.
  - intros Hfun. eapply holds_mono.
    + apply visitConstructorPrototype_holds; [done..|]. apply Hr'.
      eapply Finished_trans; [|done]. by eapply Finished_trans.
    + intros [] st4 Hf4 Hs4 _. apply Hrec. eapply Ext_trans; [done|by eapply Finished_Ext].
  - intros _. apply holds_ret; [done|]. by apply Hrec.
Qed.

Lemma visitObjectPropertiesWithComputedNames_holds absVal st :
  Sound realm st → (∀ w, chainValue realm absVal w → discovered realm st w) →
  holds realm (visitObjectPropertiesWithComputedNames realm call absVal) (λ _ _, True) st.
Proof.
  intros Hs Hr. unfold visitObjectPropertiesWithComputedNames.
  destruct (abstractOf realm absVal) as [a|] eqn:Ha; [|by apply holds_throw].
  apply holds_invariant; [done|]. intros Hlen%bool_decide_eq_true.
  destruct (AbstractValue.args a) as [|cond [|x [|y [|]]]] eqn:Hargs; try done. simpl.
  destruct (abstractOf realm cond) as [c|] eqn:Hc; [|by apply holds_throw].
  assert (∀ st', Finished realm st st' → ∀ w, chainValue realm absVal w → discovered realm st' w)
    as Hr'.
  { intros st' Hf w Hw. eapply discovered_Finished; eauto. }
  case_bool_decide as Hkind.
  - destruct (AbstractValue.args c !! 0) as [Pn|] eqn:HP; [|by apply holds_throw].
    apply holds_invariant; [done|]. intros HPabs.
    eapply holds_seq.
    { instantiate (1 := λ _ _, True). apply holds_when; [|intros _; by apply holds_ret].
      intros Hy. apply call_holds; [done|]. intros w Hw. apply Hr.
      by eapply chain_earlier. }
    intros [] st1 Hf1 Hs1 _. eapply holds_seq; [apply visit_holds; [done|]|].
    { apply Hr'; [done|]. by eapply chain_P. }
    intros [] st2 Hf2 Hs2 _. apply visit_holds; [done|].
    apply Hr'; [by eapply Finished_trans|]. by eapply chain_V.
  - eapply holds_seq; [apply visit_holds; [done|]|].
    { apply Hr. by eapply chain_cond. }
    intros [] st1 Hf1 Hs1 _.
    apply holds_invariant; [done|]. intros Hx. apply holds_invariant; [done|]. intros Hy.
    eapply holds_seq; [apply call_holds; [done|]|].
    { intros w Hw. apply Hr'; [done|]. eapply chain_branch; eauto. apply list_elem_of_here. }
    intros [] st2 Hf2 Hs2 _. apply call_holds; [done|].
    intros w Hw. apply Hr'; [by eapply Finished_trans|]. eapply chain_branch; eauto.
    apply list_elem_of_further, list_elem_of_here.
Qed.

Lemma slotOf_declarative st r n :
  default ∅ (declarativeEnvironmentRecordsBindings st !! r) !! n
  = slotOf st (DeclarativeSlot r n).
Proof. simpl. by destruct (declarativeEnvironmentRecordsBindings st !! r). Qed.

Lemma visitGlobalBinding_holds key st :
  Sound realm st → (∀ w, getGlobalLetBinding realm key = Some w → discovered realm st w) →
  holds realm (visitGlobalBinding realm call key)
    (λ b st', slotOf st' (GlobalSlot key) = Some b) st.
Proof.
  intros Hs Hr. unfold visitGlobalBinding. apply holds_gets.
  destruct (globalBindings st !! key) as [b|] eqn:Hkey; [by apply holds_ret|].
  set (binding := VisitedBinding.mk true (getGlobalLetBinding realm key) true None).
  pose proof (Ext_register st (GlobalSlot key) binding Hkey) as He.
  eapply (holds_after _ _
            (match getGlobalLetBinding realm key with
             | Some value => call (VisitValue value)
             | None => ret tt
             end >> ret (length (store st)))
            _ st (register (GlobalSlot key) binding st));
    [reflexivity|by apply Grown_Ext|done|].
  eapply holds_seq.
  - apply visitOptional_holds.
    + apply Sound_register; [done..|]. intros _. by exists key.
    + intros w Hw. eapply discovered_Ext; eauto.
  - intros [] st2 Hf2 Hs2 _. apply holds_ret; [done|].
    eapply slotOf_mono; [by eapply Finished_Ext|]. apply slotOf_register.
Qed.

Lemma visitDeclarativeEnvironmentRecordBinding_holds r n st :
  Sound realm st → (∀ w, declarativeValue realm r n = Some w → discovered realm st w) →
  holds realm (visitDeclarativeEnvironmentRecordBinding realm call r n)
    (λ b st', slotOf st' (DeclarativeSlot r n) = Some b) st.
Proof.
  intros Hs Hr. unfold visitDeclarativeEnvironmentRecordBinding.
  apply (holds_modify _ (ensureTable r));
    [apply Grown_Ext; [apply Ext_ensureTable|done]|done|].
  pose proof (Sound_ensureTable realm st r Hs) as Hs1.
  assert (∀ w, declarativeValue realm r n = Some w → discovered realm (ensureTable r st) w) as Hr1.
  { intros w Hw. eapply discovered_Ext; [apply Ext_ensureTable|auto]. }
  set (st1 := ensureTable r st) in *. clearbody st1.
  apply holds_gets. rewrite slotOf_declarative.
  destruct (slotOf st1 (DeclarativeSlot r n)) as [b|] eqn:Hslot; [by apply holds_ret|].
  pose proof (eq_refl : declarativeValue realm r n = declarativeValue realm r n) as Hvalue.
  unfold declarativeValue at 1 in Hvalue.
  destruct (default ∅ (bindings realm !! r) !! n) as [binding|]; [|by apply holds_throw].
  apply holds_invariant; [done|]. intros _. symmetry in Hvalue.
  set (value := if Binding.initialized binding
                then default (intrinsics_undefined realm) (Binding.value binding)
                else intrinsics_undefined realm) in *.
  set (visitedBinding := VisitedBinding.mk false (Some value) false (Some r)).
  pose proof (Ext_register st1 (DeclarativeSlot r n) visitedBinding Hslot) as He.
  eapply (holds_after _ _ (call (VisitValue value) >> ret (length (store st1)))
            _ st1 (register (DeclarativeSlot r n) visitedBinding st1));
    [reflexivity|by apply Grown_Ext|done|].
  eapply holds_seq.
  - apply visit_holds.
    + apply Sound_register; [done..|]. by intros [=].
    + eapply discovered_Ext; eauto.
  - intros [] st2 Hf2 Hs2 _. apply holds_ret; [done|].
    eapply slotOf_mono; [by eapply Finished_Ext|]. apply slotOf_register.
Qed.

Lemma visitFunctionBinding_holds val code Environment isResidual functionInfo
    visitedBindings innerName st :
  Sound realm st → val ∈ values st → dispatch realm val = AsFunction →
  plainFunction realm val code Environment isResidual →
  functionInfos st !! code = Some functionInfo →
  innerName ∈ FunctionInfo.names functionInfo →
  (∀ w, capturedValue realm Environment innerName = Some w → discovered realm st w) →
  holds realm (visitFunctionBinding realm call Environment functionInfo visitedBindings innerName)
    (λ visitedBindings' st', ∃ b slot,
       visitedBindings' = <[innerName := b]> visitedBindings
       ∧ slotFor realm Environment innerName = Some slot
       ∧ slotOf st' slot = Some b
       ∧ (innerName ∈ FunctionInfo.modified functionInfo → isModified st' b)) st.
Proof.
  intros Hs Hval Hd Hplain Hinfo Hname Hr. unfold visitFunctionBinding.
  eapply holds_seq.
  { instantiate (1 := λ b st', ∃ slot, slotFor realm Environment innerName = Some slot
                                       ∧ slotOf st' slot = Some b).
    unfold slotFor, capturedValue in *.
    destruct (tryResolveBinding realm innerName Environment) as [reference|].
    - apply holds_invariant; [done|]. intros Hres%negb_true_iff. rewrite Hres in *.
      destruct (Reference.referencedName reference) as [n|]; [|by apply holds_throw].
      destruct (Reference.base reference) as [| |r|]; try by apply holds_throw.
      + eapply holds_mono; [by apply visitGlobalBinding_holds|]. intros b st' _ _ Hb. eauto.
      + eapply holds_mono; [by apply visitDeclarativeEnvironmentRecordBinding_holds|].
        intros b st' _ _ Hb. eauto.
    - eapply holds_mono; [by apply visitGlobalBinding_holds|]. intros b st' _ _ Hb. eauto. }
  intros b st1 Hf1 Hs1 (slot & Hfor & Hof).
  eapply holds_seq.
  { instantiate (1 := λ _ st', innerName ∈ FunctionInfo.modified functionInfo →
                               isModified st' b).
    apply holds_when.
    - intros Hm%bool_decide_eq_true.
      apply (holds_modify_last realm (flag b));
        [apply Grown_Ext; [apply Ext_flag|done]|done| |].
      + apply (Sound_flag realm st1 b slot val); [done..|].
        exists code, Environment, isResidual, functionInfo, innerName.
        split_and!; [by eapply Finished_elem_of|done|done| |done..].
        eapply lookup_weaken; [done|]. by eapply Finished_Ext.
      + intros _. apply isModified_flag. by eapply sound_slots.
    - intros Hm%bool_decide_eq_false. by apply holds_ret. }
  intros [] st2 Hf2 Hs2 Hm. apply holds_ret; [done|]. exists b, slot.
  split_and!; [done..| |done]. eapply slotOf_mono; [by eapply Finished_Ext|done].
Qed.

Lemma getFunctionInfo_holds val code Environment isResidual st :
  Sound realm st → val ∈ values st → dispatch realm val = AsFunction →
  plainFunction realm val code Environment isResidual →
  holds realm (getFunctionInfo realm val code isResidual)
    (λ functionInfo st', functionInfos st' !! code = Some functionInfo) st.
Proof.
  intros Hs Hval Hd Hplain. unfold getFunctionInfo. apply holds_gets.
  destruct (functionInfos st !! code) as [info|] eqn:Hmemo; [by apply holds_ret|].
  pose proof (Ext_info st code (ClosureRefVisitor realm val) Hmemo) as He.
  apply holds_modify; [by apply Grown_Ext|done|].
  pose proof (Sound_info realm st val code Environment isResidual Hs Hval Hd Hplain Hmemo)
    as Hs1.
  eapply holds_seq.
  { instantiate (1 := λ _ _, True). apply holds_when; [|intros _; by apply holds_ret].
    intros [-> Hnames%negb_true_iff]%andb_true_iff.
    apply holds_modify_last; [apply Grown_Ext; [apply Ext_logError|done]|done| |done].
    apply Sound_log; [done|done|].
    apply (diagnostic_residual realm val code Environment); [done|].
    apply bool_decide_eq_false in Hnames. intros Hnil. apply Hnames. by rewrite Hnil. }
  intros [] st2 Hf2 Hs2 _. apply holds_ret; [done|].
  eapply lookup_weaken; [|by eapply Finished_Ext]. simpl. apply lookup_insert_eq.
Qed.

Lemma visitValueFunction_holds val st :
  Sound realm st → val ∈ values st → dispatch realm val = AsFunction →
  holds realm (visitValueFunction realm call val) (λ _ st', Complete realm st' val) st.
Proof.
  intros Hs Hval Hd. unfold visitValueFunction.
  assert (descends realm val = true) as Hdesc by (unfold descends; by rewrite Hd).
  assert (∀ st' w, Ext st st' → functionTarget realm (functionInfos st') val w → discovered realm st' w)
    as Htarget.
  { intros st' w He Hw. eapply discovered_step; [by eapply Ext_elem_of|].
    unfold edge. by rewrite Hd. }
  eapply holds_seq; [apply visitObjectProperties_holds; [done..|]|].
  { intros w Hw. apply (Htarget st); [apply Ext_refl|]. by constructor 1. }
  intros [] st1 Hf1 Hs1 [Hrec Hlog].
  assert (∀ st', Ext st1 st' →
            (∀ code Environment isResidual,
               dispatch realm val = AsFunction →
               plainFunction realm val code Environment isResidual →
               is_Some (functionBindings st' !! val)) →
            Complete realm st' val) as Hcomplete.
  { intros st' He Hbindings. apply (Complete_from realm st1); auto. }
  pose proof (Finished_Ext _ _ _ Hf1) as He1.
  destruct (functionOf realm val) as [f|] eqn:Hf; simpl; [|by apply holds_throw].
  destruct (FunctionValue.cls f) as [fp code env res|target this args|] eqn:Hcls.
  - apply holds_invariant; [done|]. intros _.
    destruct code as [code|]; [|by apply holds_throw].
    assert (plainFunction realm val code env res) as Hplain by by exists f, fp.
    eapply holds_seq; [eapply getFunctionInfo_holds; eauto using Finished_elem_of|].
    intros info st2 Hf2 Hs2 Hinfo. simpl in Hinfo.
    pose proof (Finished_Ext _ _ _ Hf2) as He2.
    eapply holds_seq.
    { apply (holds_foldEach realm _ _ (λ pre table st',
        (∀ name, name ∈ pre ↔ is_Some (table !! name))
        ∧ ∀ name b, table !! name = Some b →
            ∃ slot, slotFor realm env name = Some slot ∧ slotOf st' slot = Some b
                    ∧ (name ∈ FunctionInfo.modified info → isModified st' b)));
        [|done|].
      - intros pre x table st3 Hpre Hf3 Hs3 [Hdom Hres].
        pose proof (Finished_Ext _ _ _ Hf3) as He3.
        assert (functionInfos st3 !! code = Some info) as Hinfo3.
        { eapply lookup_weaken; [done|apply He3]. }
        assert (x ∈ FunctionInfo.names info) as Hx.
        { destruct Hpre as [rest ->]. rewrite !elem_of_app, list_elem_of_singleton. auto. }
        eapply holds_mono.
        { eapply (visitFunctionBinding_holds val code env res); [done| |done..|].
          - do 2 (eapply Ext_elem_of; [eassumption|]). by eapply Ext_elem_of.
          - intros w Hw. apply Htarget.
            + eapply Ext_trans; [done|]. by eapply Ext_trans.
            + by eapply target_captured. }
        intros table' st4 Hf4 Hs4 (b & slot & -> & Hfor & Hof & Hm). split.
        + intros name. rewrite elem_of_app, list_elem_of_singleton, Hdom.
          destruct (decide (x = name)) as [<-|Hne].
          * rewrite lookup_insert_eq. split; eauto.
          * rewrite lookup_insert_ne by done.
            split; [intros [?|?]; [done|congruence]|by left].
        + intros name b' Hb'. destruct (decide (x = name)) as [<-|Hne].
          * rewrite lookup_insert_eq in Hb'. injection Hb' as <-. eauto.
          * rewrite lookup_insert_ne in Hb' by done.
            destruct (Hres name b' Hb') as (slot' & ? & ? & Hm').
            pose proof (Finished_Ext _ _ _ Hf4) as He4.
            exists slot'. split_and!; [done|by eapply slotOf_mono|].
            intros ?. eapply isModified_mono; eauto.
      - split.
        + intros name. rewrite lookup_empty. split; [by intros ?%elem_of_nil|by intros [? ?]].
        + intros name b. by rewrite lookup_empty. }
    intros table st3 Hf3 Hs3 [Hdom Hres].
    pose proof (Finished_Ext _ _ _ Hf3) as He3.
    apply holds_modify_last; [apply Grown_functionBindings|done| |].
    + apply Sound_functionBindings; [done| |done|].
      * do 2 (eapply Ext_elem_of; [eassumption|]). by eapply Ext_elem_of.
      * exists code, env, res, info. split_and!; [done| |done..].
        eapply lookup_weaken; [done|apply He3].
    + apply Hcomplete.
      * eapply Ext_trans; [done|]. eapply Ext_trans; [done|]. apply Ext_functionBindings.
      * intros ? ? ? _ _. simpl. rewrite lookup_insert_eq. eauto.
  - eapply holds_seq; [apply visit_holds; [done|]|].
    { apply Htarget; [done|]. eapply target_bound; [done..|]. apply list_elem_of_here. }
    intros [] st2 Hf2 Hs2 _. pose proof (Finished_Ext _ _ _ Hf2) as He2.
    eapply holds_seq; [apply visit_holds; [done|]|].
    { apply Htarget; [by eapply Ext_trans|]. eapply target_bound; [done..|].
      apply list_elem_of_further, list_elem_of_here. }
    intros [] st3 Hf3 Hs3 _. pose proof (Finished_Ext _ _ _ Hf3) as He3.
    eapply holds_mono.
    { apply holds_forEach_plain; [done|]. intros x st4 Hx Hf4 Hs4.
      apply visit_holds; [done|]. apply Htarget.
      - eapply Ext_trans; [done|]. eapply Ext_trans; [done|]. eapply Ext_trans; [done|].
        by eapply Finished_Ext.
      - eapply target_bound; [done..|]. by do 2 apply list_elem_of_further. }
    intros [] st4 Hf4 Hs4 _. apply Hcomplete.
    + eapply Ext_trans; [done|]. eapply Ext_trans; [done|]. by eapply Finished_Ext.
    + intros code env res _ (f' & fp & Hf' & Hcls'). congruence.
  - apply holds_ret; [done|]. apply Hcomplete; [apply Ext_refl|].
    intros code env res _ (f' & fp & Hf' & Hcls'). congruence.
Qed.

Lemma visitValueMap_holds val o st :
  Sound realm st → objectOf realm val = Some o → ObjectValue.originalConstructor o = None →
  (∀ w, objectTarget realm val w → discovered realm st w) →
  holds realm (visitValueMap realm call val) (λ _ _, True) st.
Proof.
  intros Hs Ho Hnone Hr. unfold visitValueMap. apply holds_asObject; [done|].
  intros o' Ho'. rewrite Ho in Ho'. injection Ho' as <-.
  eapply holds_seq.
  { instantiate (1 := λ entries st',
      ObjectValue.getKind o = "Map" ∧ ObjectValue.MapData o = entries
      ∨ ObjectValue.getKind o = "WeakMap" ∧ ObjectValue.WeakMapData o = entries).
    case_bool_decide as Hkind; [apply holds_ret; auto|].
    apply holds_invariant; [done|]. intros Hweak%bool_decide_eq_true. apply holds_ret; auto. }
  intros entries st1 Hf1 Hs1 Hentries.
  destruct entries as [entries|]; [|by apply holds_throw].
  apply holds_forEach_plain; [done|]. intros entry st2 Hentry Hf2 Hs2.
  destruct (MapEntry.Key entry) as [key|] eqn:Hkey; [|by apply holds_ret].
  destruct (MapEntry.Value entry) as [value|] eqn:Hvalue; [|by apply holds_ret].
  assert (∀ w, w ∈ [key; value] → discovered realm st w) as Hr'.
  { intros w Hw. apply Hr. by eapply target_map_entry. }
  eapply holds_seq; [apply visit_holds; [done|]|].
  { do 2 (eapply discovered_Finished; [eassumption|]). apply Hr', list_elem_of_here. }
  intros [] st3 Hf3 Hs3 _. apply visit_holds; [done|].
  do 3 (eapply discovered_Finished; [eassumption|]).
  apply Hr', list_elem_of_further, list_elem_of_here.
Qed.

Lemma visitValueSet_holds val o st :
  Sound realm st → objectOf realm val = Some o → ObjectValue.originalConstructor o = None →
  (∀ w, objectTarget realm val w → discovered realm st w) →
  holds realm (visitValueSet realm call val) (λ _ _, True) st.
Proof.
  intros Hs Ho Hnone Hr. unfold visitValueSet. apply holds_asObject; [done|].
  intros o' Ho'. rewrite Ho in Ho'. injection Ho' as <-.
  eapply holds_seq.
  { instantiate (1 := λ entries st',
      ObjectValue.getKind o = "Set" ∧ ObjectValue.SetData o = entries
      ∨ ObjectValue.getKind o = "WeakSet" ∧ ObjectValue.WeakSetData o = entries).
    case_bool_decide as Hkind; [apply holds_ret; auto|].
    apply holds_invariant; [done|]. intros Hweak%bool_decide_eq_true. apply holds_ret; auto. }
  intros entries st1 Hf1 Hs1 Hentries.
  destruct entries as [entries|]; [|by apply holds_throw].
  apply holds_forEach_plain; [done|]. intros entry st2 Hentry Hf2 Hs2.
  destruct entry as [entry|]; [|by apply holds_ret].
  apply visit_holds; [done|]. do 2 (eapply discovered_Finished; [eassumption|]).
  apply Hr. by eapply target_set_entry.
Qed.

Lemma handledKinds_split kind :
  kind_is kind ["RegExp"; "Number"; "String"; "Boolean"; "ArrayBuffer"] = false →
  kind_is kind ["Date"] = false →
  kind_is kind ["Float32Array"; "Float64Array"; "Int8Array"; "Int16Array"; "Int32Array";
                "Uint8Array"; "Uint16Array"; "Uint32Array"; "Uint8ClampedArray"; "DataView"]
  = false →
  kind_is kind ["Map"; "WeakMap"] = false → kind_is kind ["Set"; "WeakSet"] = false →
  kind ∉ handledKinds.
Proof.
  unfold kind_is, handledKinds. rewrite !bool_decide_eq_false.
  intros H1 H2 H3 H4 H5 Hin. rewrite !elem_of_cons in *.
  rewrite elem_of_nil in *. tauto.
Qed.

Lemma visitValueObject_holds val st :
  Sound realm st → val ∈ values st → dispatch realm val = AsObject →
  holds realm (visitValueObject realm call val) (λ _ st', Complete realm st' val) st.
Proof.
  intros Hs Hval Hd. unfold visitValueObject.
  assert (descends realm val = true) as Hdesc by (unfold descends; by rewrite Hd).
  assert (∀ w, objectTarget realm val w → discovered realm st w) as Htarget.
  { intros w Hw. eapply discovered_step; [done|]. unfold edge. by rewrite Hd. }
  eapply holds_seq; [apply visitObjectProperties_holds; [done..|]|].
  { intros w Hw. apply Htarget. by constructor 1. }
  intros [] st1 Hf1 Hs1 [Hrec _].
  assert (∀ st' st'', Ext st1 st' → Ext st' st'' →
            (∀ o, objectOf realm val = Some o → ObjectValue.originalConstructor o = None →
                  ObjectValue.getKind o ∉ "Object" :: handledKinds →
                  (val, unsupportedKindError (ObjectValue.getKind o)) ∈ logged st') →
            Complete realm st'' val) as Hcomplete.
  { intros st' st'' He He' Hkind. apply (Complete_from realm st'); [done| | |].
    - intros key Hkey. eapply recorded_Ext; [done|]. by apply Hrec.
    - intros message [o pb desc Hd' _ _ _ _|o _ Ho Hnone Hkind'|a Hd' _ _];
        [congruence|by apply Hkind|congruence].
    - intros code env res Hd'. congruence. }
  assert (∀ st', Finished realm st1 st' →
            ∀ w, objectTarget realm val w → discovered realm st' w) as Htarget'.
  { intros st' Hf w Hw. do 2 (eapply discovered_Finished; [eassumption|]).
    by apply Htarget. }
  apply holds_asObject; [done|]. intros o Ho.
  assert (∀ st', ObjectValue.originalConstructor o ≠ None
                 ∨ ObjectValue.getKind o ∈ handledKinds →
                 Finished realm st1 st' → Complete realm st' val) as Hhandled.
  { intros st' Hcase Hf. apply (Hcomplete st1 st'); [apply Ext_refl|by eapply Finished_Ext|].
    intros o' Ho' Hnone Hkind. rewrite Ho in Ho'. injection Ho' as <-.
    destruct Hcase as [?|Hin]; [done|]. exfalso. apply Hkind. by right. }
  destruct (ObjectValue.originalConstructor o) as [constructor|] eqn:Hcons.
  { eapply holds_mono; [apply visit_holds; [done|]|].
    - apply Htarget'; [apply Finished_refl|]. by eapply target_constructor.
    - intros [] st2 Hf2 _ _. apply Hhandled; [by left|done]. }
  assert (∀ group, kind_is (ObjectValue.getKind o) group = true → group ⊆ handledKinds →
                   ∀ st', Finished realm st1 st' → Complete realm st' val) as Hgroup.
  { intros group Hin%bool_decide_eq_true Hsub st'. apply Hhandled. right. by apply Hsub. }
  destruct (kind_is _ ["RegExp"; _; _; _; _]) eqn:H1.
  { apply holds_ret; [done|]. eapply Hgroup; [done| |apply Finished_refl].
    by apply (bool_decide_unpack _). }
  destruct (kind_is _ ["Date"]) eqn:H2.
  { destruct (ObjectValue.DateValue o) as [dateValue|] eqn:Hdate; [|by apply holds_throw].
    eapply holds_mono; [apply visit_holds; [done|]|].
    - apply Htarget'; [apply Finished_refl|]. eapply target_date; [done..| |done].
      unfold kind_is in H2. apply bool_decide_eq_true in H2.
      by apply list_elem_of_singleton in H2.
    - intros [] st2 Hf2 _ _. eapply Hgroup; [done| |done]. by apply (bool_decide_unpack _). }
  destruct (kind_is _ ["Float32Array"; _; _; _; _; _; _; _; _; _]) eqn:H3.
  { destruct (ObjectValue.ViewedArrayBuffer o) as [buf|] eqn:Hbuf; [|by apply holds_throw].
    eapply holds_mono; [apply visit_holds; [done|]|].
    - apply Htarget'; [apply Finished_refl|]. by eapply target_buffer.
    - intros [] st2 Hf2 _ _. eapply Hgroup; [done| |done]. by apply (bool_decide_unpack _). }
  destruct (kind_is _ ["Map"; _]) eqn:H4.
  { eapply holds_mono; [eapply visitValueMap_holds; [done..|]|].
    - apply Htarget'. apply Finished_refl.
    - intros [] st2 Hf2 _ _. eapply Hgroup; [done| |done]. by apply (bool_decide_unpack _). }
  destruct (kind_is _ ["Set"; _]) eqn:H5.
  { eapply holds_mono; [eapply visitValueSet_holds; [done..|]|].
    - apply Htarget'. apply Finished_refl.
    - intros [] st2 Hf2 _ _. eapply Hgroup; [done| |done]. by apply (bool_decide_unpack _). }
  eapply holds_seq.
  { instantiate (1 := λ _ st',
      ObjectValue.getKind o ≠ "Object" →
      (val, unsupportedKindError (ObjectValue.getKind o)) ∈ logged st').
    apply holds_when; [|by intros Hkind%negb_false_iff%bool_decide_eq_true; apply holds_ret].
    intros Hkind%negb_true_iff%bool_decide_eq_false.
    apply holds_modify_last; [apply Grown_Ext; [apply Ext_logError|done]|done| |].
    - apply Sound_log; [done|by eapply Finished_elem_of|].
      apply diagnostic_kind; [done..|].
      intros [Heq|Hin]%elem_of_cons; [done|]. by eapply handledKinds_split.
    - intros _. simpl. apply elem_of_app. right. apply list_elem_of_here. }
  intros [] st2 Hf2 Hs2 Hlogged.
  assert (bool_decide (this_ParameterMap ≠ None) = false) as ->.
  { apply bool_decide_eq_false. intros Hne. by apply Hne. }
  apply holds_ret; [done|].
  apply (Hcomplete st2 st2); [by eapply Finished_Ext|apply Ext_refl|].
  intros o' Ho' _ Hkind. rewrite Ho in Ho'. injection Ho' as <-. apply Hlogged.
  intros Heq. apply Hkind, elem_of_cons. by left.
Qed.

Lemma visitValueProxy_holds val st :
  Sound realm st → val ∈ values st → dispatch realm val = AsProxy →
  holds realm (visitValueProxy realm call val) (λ _ st', Complete realm st' val) st.
Proof.
  intros Hs Hval Hd. unfold visitValueProxy.
  assert (∀ st', Complete realm st' val) as Hcomplete.
  { intros st'. apply Complete_terminal; [|congruence]. unfold descends. by rewrite Hd. }
  assert (∀ w, edge realm (functionInfos st) val w → discovered realm st w) as Htarget.
  { intros w Hw. eapply discovered_step; [done|done]. }
  unfold edge in Htarget. rewrite Hd in Htarget.
  destruct (objectOf realm val) as [o|] eqn:Ho; simpl; [|by apply holds_throw].
  destruct (ObjectValue.cls o) as [|target handler|] eqn:Hcls; try by apply holds_throw.
  eapply holds_seq; [apply visit_holds; [done|]|].
  { apply Htarget. exists o, target, handler. split_and!; [done..|]. apply list_elem_of_here. }
  intros [] st1 Hf1 Hs1 _. eapply holds_mono; [apply visit_holds; [done|]|]; [|done].
  eapply discovered_Finished; [done|]. apply Htarget. exists o, target, handler.
  split_and!; [done..|]. apply list_elem_of_further, list_elem_of_here.
Qed.

Lemma visitAbstractValue_holds val st :
  Sound realm st → val ∈ values st → dispatch realm val = AsAbstract →
  holds realm (visitAbstractValue realm call val) (λ _ st', Complete realm st' val) st.
Proof.
  intros Hs Hval Hd. unfold visitAbstractValue.
  assert (∀ w, edge realm (functionInfos st) val w → discovered realm st w) as Htarget.
  { intros w Hw. eapply discovered_step; [done|done]. }
  unfold edge in Htarget. rewrite Hd in Htarget.
  destruct (abstractOf realm val) as [a|] eqn:Ha; [|by apply holds_throw].
  eapply holds_seq.
  { instantiate (1 := λ _ st', AbstractValue.kind a = "sentinel member expression" →
                               (val, sentinelError) ∈ logged st').
    apply holds_when; [|by intros Hkind%bool_decide_eq_false; apply holds_ret].
    intros Hkind%bool_decide_eq_true.
    apply holds_modify_last; [apply Grown_Ext; [apply Ext_logError|done]|done| |].
    - apply Sound_log; [done..|]. by eapply diagnostic_sentinel.
    - intros _. simpl. apply elem_of_app. right. apply list_elem_of_here. }
  intros [] st1 Hf1 Hs1 Hlogged. eapply holds_mono.
  { apply holds_forEach_plain; [done|]. intros x st2 Hx Hf2 Hs2.
    apply visit_holds; [done|]. do 2 (eapply discovered_Finished; [eassumption|]).
    apply Htarget. eauto. }
  intros [] st2 Hf2 _ _. apply (Complete_from realm st1); [by eapply Finished_Ext| | |].
  - intros key (o & pb & desc & Ho & _). unfold objectOf, abstractOf in *.
    destruct (classOf realm val) as [[]|]; done.
  - intros message [o pb desc Hd' _ _ _ _|o Hd' _ _ _|a' _ Ha' Hkind]; [congruence..|].
    rewrite Ha in Ha'. injection Ha' as <-. by apply Hlogged.
  - intros code env res Hd'. congruence.
Qed.

Lemma visitValueArray_holds val st :
  Sound realm st → val ∈ values st → dispatch realm val = AsArray →
  holds realm (visitValueArray realm call val) (λ _ st', Complete realm st' val) st.
Proof.
  intros Hs Hval Hd. unfold visitValueArray.
  assert (descends realm val = true) as Hdesc by (unfold descends; by rewrite Hd).
  assert (∀ w, edge realm (functionInfos st) val w → discovered realm st w) as Htarget.
  { intros w Hw. eapply discovered_step; [done|done]. }
  unfold edge in Htarget. rewrite Hd in Htarget.
  eapply holds_seq; [apply visitObjectProperties_holds; [done..|]|].
  { intros w Hw. apply Htarget. by left. }
  intros [] st1 Hf1 Hs1 [Hrec _].
  assert (∀ st', Finished realm st1 st' → Complete realm st' val) as Hcomplete.
  { intros st' Hf. apply (Complete_from realm st1); [by eapply Finished_Ext|done| |].
    - intros message [Hd'|[Hd'|Hd']]%expected_dispatch; congruence.
    - intros code env res Hd'. congruence. }
  apply holds_when.
  - intros Habs. eapply holds_mono; [apply visit_holds; [done|]|].
    + eapply discovered_Finished; [done|]. apply Htarget. by right.
    + intros [] st2 Hf2 _ _. by apply Hcomplete.
  - intros _. apply holds_ret; [done|]. apply Hcomplete, Finished_refl.
Qed.

(** The else-if chain of [visitValue] follows [dispatch]. *)
Lemma visitValueOfKind_dispatch val st :
  visitValueOfKind realm call val st
  = match dispatch realm val with
    | AsAbstract => visitAbstractValue realm call val st
    | AsTerminal => Done tt st
    | AsArray => visitValueArray realm call val st
    | AsProxy => visitValueProxy realm call val st
    | AsFunction => visitValueFunction realm call val st
    | AsObject => visitValueObject realm call val st
    | AsInvalid => Throw InvariantViolation st
    end.
Proof.
  unfold visitValueOfKind, dispatch.
  destruct (instanceof_AbstractValue realm val); [done|].
  destruct (isIntrinsic realm val); [done|].
  destruct (instanceof_EmptyValue realm val); [done|].
  destruct (isLeaf realm val); [done|].
  destruct (IsArray realm val); [by destruct (instanceof_ObjectValue realm val)|].
  destruct (instanceof_ProxyValue realm val); [done|].
  destruct (instanceof_FunctionValue realm val); [done|].
  destruct (instanceof_SymbolValue realm val); [done|].
  by destruct (instanceof_ObjectValue realm val).
Qed.

Lemma visitValue_holds val st :
  Sound realm st → discovered realm st val →
  holds realm (visitValue realm call val) (λ _ st', val ∈ values st') st.
Proof.
  intros Hs Hr. unfold visitValue. apply holds_gets. unfold Set_has.
  case_bool_decide as Hvisited; [by apply holds_ret|].
  apply holds_add; [done|].
  pose proof (Sound_add realm st val Hs Hr) as Hs1.
  assert (val ∈ values (set_values (Set_add val) st)) as Hval.
  { simpl. apply Set_add_elem_of. by right. }
  set (st1 := set_values (Set_add val) st) in *. clearbody st1.
  unfold holds. rewrite visitValueOfKind_dispatch.
  destruct (dispatch realm val) eqn:Hd.
  - by apply visitAbstractValue_holds.
  - split_and!; [apply Finished_refl|done|]. apply Complete_terminal; [|congruence].
    unfold descends. by rewrite Hd.
  - by apply visitValueArray_holds.
  - by apply visitValueProxy_holds.
  - by apply visitValueFunction_holds.
  - by apply visitValueObject_holds.
  - split; [apply Grown_refl|done].
Qed.

Lemma visitRoots_holds st :
  Sound realm st → holds realm (visitRoots realm call) (λ _ _, True) st.
Proof.
  intros Hs. unfold visitRoots, visitGenerator.
  eapply holds_seq.
  { instantiate (1 := λ _ _, True). destruct (generator realm) as [generator|] eqn:Hgen;
      [|by apply holds_ret].
    apply holds_forEach_plain; [done|]. intros root st1 Hroot Hf1 Hs1.
    apply visit_holds; [done|]. apply discovered_root. unfold roots. rewrite Hgen.
    apply elem_of_app. by left. }
  intros [] st1 Hf1 Hs1 _. apply holds_forEach_plain; [done|].
  intros [key moduleValue] st2 Hentry Hf2 Hs2. apply visit_holds; [done|].
  apply discovered_root. unfold roots. apply elem_of_app. right.
  apply list_elem_of_fmap. by exists (key, moduleValue).
Qed.
End Keeps.

(** ** The tables are sound throughout a pass *)

Lemma call_holds realm fuel c st :
  Sound realm st → due realm c st → holds realm (call realm fuel c) (λ _ _, True) st.
Proof.
  revert c st. induction fuel as [|fuel IH]; intros c st Hs Hdue; [done|].
  destruct c as [val|absVal]; simpl.
  - eapply holds_mono; [by apply visitValue_holds|done].
  - by apply visitObjectPropertiesWithComputedNames_holds.
Qed.

Lemma Sound_empty realm : Sound realm emptyState.
Proof.
  split; simpl.
  - intros i w Hw. by rewrite lookup_nil in Hw.
  - intros obj keys key Hk. by rewrite lookup_empty in Hk.
  - by intros val message ?%elem_of_nil.
  - intros code info Hinfo. by rewrite lookup_empty in Hinfo.
  - intros [key|r n] b Hb; simpl in Hb; by rewrite lookup_empty in Hb.
  - intros [key|r n] slot' b Hb; simpl in Hb; by rewrite lookup_empty in Hb.
  - intros [key|r n] b binding Hb; simpl in Hb; by rewrite lookup_empty in Hb.
  - intros val table Ht. by rewrite lookup_empty in Ht.
Qed.

Lemma pass_holds realm fuel :
  match pass realm fuel with
  | Done _ st' => Finished realm emptyState st' ∧ Sound realm st'
  | Throw _ st' => Sound realm st'
  | OutOfFuel => True
  end.
Proof.
  unfold pass, newVisitor. destruct (useAbstractInterpretation realm); [|apply Sound_empty].
  pose proof (visitRoots_holds realm (call realm fuel) (call_holds realm fuel) emptyState
                (Sound_empty realm)) as Hrun.
  unfold holds in Hrun. destruct (visitRoots realm (call realm fuel) emptyState); [|tauto..].
  tauto.
Qed.

Lemma pass_Sound realm fuel st' : finalState (pass realm fuel) = Some st' → Sound realm st'.
Proof.
  intros Hfinal. pose proof (pass_holds realm fuel) as Hrun.
  destruct (pass realm fuel) as [[] st|e st|]; simpl in Hfinal; [| |done];
    injection Hfinal as <-; tauto.
Qed.

Lemma pass_Finished realm fuel st' :
  pass realm fuel = Done tt st' → Finished realm emptyState st'.
Proof.
  intros Hdone. pose proof (pass_holds realm fuel) as Hrun. rewrite Hdone in Hrun. tauto.
Qed.

Lemma pass_Complete realm fuel st' val :
  pass realm fuel = Done tt st' → val ∈ values st' → Complete realm st' val.
Proof.
  intros [_ Hnew]%pass_Finished Hval. apply Hnew; [done|]. apply not_elem_of_nil.
Qed.

Lemma Sound_reachable realm st w :
  Sound realm st → w ∈ values st →
  ∃ root, root ∈ roots realm ∧ reachable realm (functionInfos st) root w.
Proof.
  intros Hs [i Hi]%list_elem_of_lookup. revert w Hi.
  induction i as [i IH] using lt_wf_ind. intros w Hi.
  destruct (sound_values _ _ Hs i w Hi) as [Hroot|(j & u & Hj & Hu & Hedge)].
  - exists w. split; [done|constructor].
  - destruct (IH j Hj u Hu) as (root & Hroot & Hreach). exists root. split; [done|].
    by eapply rtc_r.
Qed.

(** X1: the pass visits nothing but what the roots reach.  Whether it returns
    or throws, every value in the visited set is reachable from a root of
    [visitRoots] along the references that the visitor follows. *)
Theorem pass_visits_only_reachable realm fuel st' :
  finalState (pass realm fuel) = Some st' →
  ∀ w, w ∈ values st' →
       ∃ root, root ∈ roots realm ∧ reachable realm (functionInfos st') root w.
Proof. intros Hs%pass_Sound w Hw. by apply Sound_reachable. Qed.

Lemma pass_visits_only_reachable_witness :
  ∃ st', finalState (pass Sample.cyclicRealm 20) = Some st'
         ∧ ∃ root, root ∈ roots Sample.cyclicRealm
                   ∧ reachable Sample.cyclicRealm (functionInfos st') root 13.
Proof.
  eexists. split; [by vm_compute|].
  apply (pass_visits_only_reachable Sample.cyclicRealm 20); [by vm_compute|].
  simpl. apply list_elem_of_further, list_elem_of_here.
Defined.

(** X2: with the fuel that the heap asks for, a pass that returns has visited
    exactly the values that are reachable from the roots. *)
Theorem pass_visits_exactly_reachable realm rank fuel st' :
  ranked realm rank = true → enoughFuel realm rank ≤ fuel →
  pass realm fuel = Done tt st' →
  ∀ w, w ∈ values st'
       ↔ ∃ root, root ∈ roots realm ∧ reachable realm (functionInfos st') root w.
Proof.
  intros Hranked Hfuel Hdone w. split.
  - apply Sound_reachable. apply (pass_Sound realm fuel). by rewrite Hdone.
  - intros (root & Hroot & Hreach).
    pose proof (visitRoots_total realm rank fuel Hranked Hfuel) as Hwp.
    unfold pass, newVisitor in Hdone.
    destruct (useAbstractInterpretation realm); [|done].
    apply (wp_done _ _ _ _ _ _ Hwp) in Hdone as ([_ Hclosed] & _ & Hroots).
    eapply closed_reachable; [|by apply Hroots|done].
    intros u Hu. apply Hclosed; [done|]. apply not_elem_of_nil.
Qed.

Lemma pass_visits_exactly_reachable_witness :
  ∃ st', pass Sample.cyclicRealm 20 = Done tt st'
         ∧ (13 ∈ values st'
            ↔ ∃ root, root ∈ roots Sample.cyclicRealm
                      ∧ reachable Sample.cyclicRealm (functionInfos st') root 13).
Proof.
  eexists. split; [by vm_compute|].
  apply (pass_visits_exactly_reachable Sample.cyclicRealm (λ _, 0) 20).
  - by vm_compute.
  - vm_compute. lia.
  - reflexivity.
Defined.

(** X3: the sets of ignored properties hold what [_canIgnoreProperty] accepts,
    and only that.  Whether the pass returns or throws, a key recorded for an
    object names a property of that object, not deleted, that
    [_canIgnoreProperty] accepts, and the object was visited by a branch that
    goes through [visitObjectProperties]; when the pass returns, every such
    property of every such object is recorded. *)
Theorem ignoredProperties_exact realm fuel st' :
  finalState (pass realm fuel) = Some st' →
  (∀ obj key, recorded st' obj key →
     obj ∈ values st' ∧ descends realm obj = true ∧ ignorable realm obj key)
  ∧ (pass realm fuel = Done tt st' →
     ∀ obj key, obj ∈ values st' → descends realm obj = true → ignorable realm obj key →
                recorded st' obj key).
Proof.
  intros Hfinal. split.
  - intros obj key (keys & Hkeys & Hkey). eapply sound_ignored; [|done..].
    by eapply pass_Sound.
  - intros Hdone obj key Hobj Hdesc Hkey.
    by apply (pass_Complete realm fuel st' obj Hdone Hobj).
Qed.

Lemma ignoredProperties_exact_witness :
  ∃ st', pass (Sample.arrayRealm false) 16 = Done tt st'
         ∧ (recorded st' 10 "length" → ignorable (Sample.arrayRealm false) 10 "length")
         ∧ (ignorable (Sample.arrayRealm false) 10 "length" → recorded st' 10 "length").
Proof.
  eexists. split; [by vm_compute|].
  destruct (ignoredProperties_exact (Sample.arrayRealm false) 16 _ ltac:(by vm_compute))
    as [Honly Hall].
  split.
  - intros Hrecorded. by apply Honly.
  - apply Hall; [reflexivity| |reflexivity]. simpl. apply list_elem_of_here.
Defined.

(** X4: every error handed to the logger is one of the four diagnostics of
    this file, logged for a value that was visited and that calls for it: a
    function whose [length] is an accessor property, a residual function with
    free names, an object of a kind without a case in [visitValueObject], or
    a sentinel member expression. *)
Theorem logged_errors_are_diagnostics realm fuel st' :
  finalState (pass realm fuel) = Some st' →
  ∀ val message, (val, message) ∈ logged st' →
                 val ∈ values st' ∧ diagnostic realm val message.
Proof. intros Hs%pass_Sound. apply Hs. Qed.

Lemma logged_errors_are_diagnostics_witness :
  ∃ st', finalState (pass Sample.unsupportedRealm 16) = Some st'
         ∧ 10 ∈ values st'
         ∧ diagnostic Sample.unsupportedRealm 10
             "Object of kind Generator is not supported in residual heap.".
Proof.
  eexists. split; [by vm_compute|].
  apply (logged_errors_are_diagnostics Sample.unsupportedRealm 16); [by vm_compute|].
  simpl. apply list_elem_of_here.
Defined.

(** X5: no pass ever logs the arguments-object error, whatever the heap
    holds. *)
Theorem arguments_error_never_logged realm fuel st' :
  finalState (pass realm fuel) = Some st' →
  ∀ val, (val, "Arguments object is not supported in residual heap.") ∉ logged st'.
Proof.
  intros Hs%pass_Sound val Hin. destruct (sound_logged _ _ Hs _ _ Hin) as [_ Hdiag].
  inversion Hdiag.
Qed.

Lemma arguments_error_never_logged_witness :
  ∃ st', finalState (pass Sample.argumentsRealm 16) = Some st'
         ∧ (10, "Arguments object is not supported in residual heap.") ∉ logged st'.
Proof.
  eexists. split; [by vm_compute|].
  apply (arguments_error_never_logged Sample.argumentsRealm 16). by vm_compute.
Defined.

(** X20: when the pass returns, no diagnostic that a visited value calls for
    is missing from the log: a function whose [length] is an accessor
    property, an object of a kind without a case in [visitValueObject] and a
    sentinel member expression each have their error logged. *)
Theorem expected_errors_are_logged realm fuel st' :
  pass realm fuel = Done tt st' →
  ∀ val message, val ∈ values st' → expected realm val message →
                 (val, message) ∈ logged st'.
Proof.
  intros Hdone val message Hval Hmessage.
  by apply (pass_Complete realm fuel st' val Hdone Hval).
Qed.

Lemma expected_errors_are_logged_witness :
  ∃ st', pass Sample.unsupportedRealm 16 = Done tt st'
         ∧ (10, "Object of kind Generator is not supported in residual heap.") ∈ logged st'.
Proof.
  eexists. split; [by vm_compute|].
  apply (expected_errors_are_logged Sample.unsupportedRealm 16);
    [by vm_compute|simpl; apply list_elem_of_here|].
  apply (expected_kind Sample.unsupportedRealm 10
           (Sample.object [] 0 "Generator" OrdinaryObject)); [by vm_compute..|].
  by apply (bool_decide_unpack _).
Defined.



(** X7: the capture tables.  A table kept in [functionBindings] belongs to a
    plain function that was visited as a function; it has an entry for each
    free name of the function's info and no other, the entry of a name is the
    binding object of the binding the name resolves to, and that object is
    flagged as modified when the info says that the function assigns to the
    name.  When the pass returns, every plain function so visited has its
    table. *)
Theorem functionBindings_are_captures realm fuel st' :
  finalState (pass realm fuel) = Some st' →
  (∀ val table, functionBindings st' !! val = Some table →
     val ∈ values st' ∧ dispatch realm val = AsFunction ∧ capturesOf realm st' val table)
  ∧ (pass realm fuel = Done tt st' →
     ∀ val code Environment isResidual,
       val ∈ values st' → dispatch realm val = AsFunction →
       plainFunction realm val code Environment isResidual →
       is_Some (functionBindings st' !! val)).
Proof.
  intros Hfinal. pose proof (pass_Sound realm fuel st' Hfinal) as Hs. split.
  - apply Hs.
  - intros Hdone val code env res Hval Hd Hplain.
    destruct (pass_Complete realm fuel st' val Hdone Hval) as (_ & Hbindings & _). eauto.
Qed.

Lemma functionBindings_are_captures_witness :
  ∃ st' table, pass (Sample.closureRealm (NameString "x")) 20 = Done tt st'
               ∧ functionBindings st' !! 10 = Some table
               ∧ capturesOf (Sample.closureRealm (NameString "x")) st' 10 table.
Proof.
  eexists _, _. split; [by vm_compute|]. split; [by vm_compute|].
  destruct (functionBindings_are_captures (Sample.closureRealm (NameString "x")) 20 _
              ltac:(by vm_compute)) as [Honly _].
  apply (Honly 10). by vm_compute.
Defined.

(** X8: every binding has a binding object of its own.  Whether the pass
    returns or throws, the entry of a binding in [globalBindings] or in
    [declarativeEnvironmentRecordsBindings] is an allocated [VisitedBinding]
    object, and no two bindings share one, so that setting [modified] on the
    object of one binding never flags another. *)
Theorem bindings_have_their_own_object realm fuel st' :
  finalState (pass realm fuel) = Some st' →
  ∀ slot b, slotOf st' slot = Some b →
            is_Some (store st' !! b)
            ∧ ∀ slot', slotOf st' slot' = Some b → slot' = slot.
Proof.
  intros Hs%pass_Sound slot b Hslot. split; [by eapply sound_slots|].
  intros slot' Hslot'. by eapply sound_distinct.
Qed.

Lemma bindings_have_their_own_object_witness :
  ∃ st' b, finalState (pass (Sample.closureRealm (NameString "x")) 20) = Some st'
           ∧ slotOf st' (GlobalSlot "y") = Some b
           ∧ is_Some (store st' !! b)
           ∧ ∀ slot', slotOf st' slot' = Some b → slot' = GlobalSlot "y".
Proof.
  eexists _, _. split; [by vm_compute|]. split; [by vm_compute|].
  apply (bindings_have_their_own_object (Sample.closureRealm (NameString "x")) 20);
    by vm_compute.
Defined.

(** X9: the [modified] flag of a declarative binding.  The binding object
    of a declarative binding is flagged as modified only when a plain function
    that was visited assigns to a name that resolves to that binding; when the
    pass returns, it is flagged whenever there is such a function. *)
Theorem modified_only_by_assignment realm fuel st' :
  finalState (pass realm fuel) = Some st' →
  ∀ r n b binding,
    slotOf st' (DeclarativeSlot r n) = Some b → store st' !! b = Some binding →
    (VisitedBinding.modified binding = true →
     ∃ val, modifies realm st' val (DeclarativeSlot r n))
    ∧ (pass realm fuel = Done tt st' →
       (∃ val, modifies realm st' val (DeclarativeSlot r n)) →
       VisitedBinding.modified binding = true).
Proof.
  intros Hfinal r n b binding Hslot Hb.
  pose proof (pass_Sound realm fuel st' Hfinal) as Hs. split.
  - intros Hmod. destruct (sound_modified _ _ Hs _ _ _ Hslot Hb Hmod) as [[key [=]]|Hval].
    done.
  - intros Hdone (val & code & env & res & info & name & Hval & Hd & Hplain & Hinfo & Hname
                  & Hmod & Hfor).
    destruct (pass_Complete realm fuel st' val Hdone Hval) as (_ & Hbindings & _).
    destruct (Hbindings code env res Hd Hplain) as [table Htable].
    destruct (sound_bindings _ _ Hs _ _ Htable)
      as (_ & _ & code' & env' & res' & info' & Hplain' & Hinfo' & Hdom & Hres).
    destruct Hplain as (f & fp & Hf & Hcls), Hplain' as (f' & fp' & Hf' & Hcls').
    assert (code' = code ∧ env' = env) as [-> ->] by (split; congruence).
    assert (info' = info) as -> by congruence.
    destruct (proj1 (Hdom name) Hname) as [b' Hb'].
    destruct (Hres name b' Hb') as (slot & Hfor' & Hof & Hflag).
    assert (slot = DeclarativeSlot r n) as -> by congruence.
    assert (b' = b) as -> by congruence.
    destruct (Hflag Hmod) as (binding' & Hbinding' & Hmodified). congruence.
Qed.

Lemma modified_only_by_assignment_witness :
  ∃ st' binding,
    finalState (pass (Sample.closureRealm (NameString "x")) 20) = Some st'
    ∧ store st' !! 0 = Some binding
    ∧ VisitedBinding.modified binding = true
    ∧ ∃ val, modifies (Sample.closureRealm (NameString "x")) st' val (DeclarativeSlot 0 "x").
Proof.
  eexists _, _. split; [by vm_compute|]. split; [by vm_compute|]. split; [reflexivity|].
  eapply (modified_only_by_assignment (Sample.closureRealm (NameString "x")) 20);
    by vm_compute.
Defined.

Lemma pass_Inv realm fuel st' : pass realm fuel = Done tt st' → Inv realm st'.
Proof.
  unfold pass, newVisitor. destruct (useAbstractInterpretation realm); [|done].
  intros Hdone.
  pose proof (visitRoots_ok realm True (λ _ _, True) (call realm fuel) ltac:(done)
                ltac:(intros; by apply call_sound) emptyState (Inv_empty realm) ltac:(done))
    as Hwp.
  by apply (wp_done _ _ _ _ _ _ Hwp) in Hdone as (_ & Hinv & _).
Qed.

(** X10: when the pass returns, the binding object of a binding describes
    it.  For a global binding it is global, flagged as modified, and holds
    the value of the global let binding, if there is one; for a binding of a
    declarative record it is not global, names the record, and holds the
    value of the binding, or [undefined] while the binding is not
    initialized.  The value it holds was visited. *)
Theorem binding_objects_describe_bindings realm fuel st' :
  pass realm fuel = Done tt st' →
  ∀ slot b, slotOf st' slot = Some b →
    ∃ binding,
      store st' !! b = Some binding
      ∧ VisitedBinding.value binding = slotValue realm slot
      ∧ match slot with
        | GlobalSlot _ =>
            VisitedBinding.global binding = true
            ∧ VisitedBinding.modified binding = true
            ∧ VisitedBinding.declarativeEnvironmentRecord binding = None
        | DeclarativeSlot r _ =>
            VisitedBinding.global binding = false
            ∧ VisitedBinding.declarativeEnvironmentRecord binding = Some r
        end
      ∧ ∀ w, VisitedBinding.value binding = Some w → w ∈ values st'.
Proof.
  intros [[_ Hg Hd _] [Hbg Hbd]]%pass_Inv [key|r n] b Hslot; simpl in Hslot.
  - destruct (Hg key b Hslot) as (binding & Hb & Hglobal & Hmod & Hvalue & Hrecord).
    exists binding. split_and!; try done. intros w Hw.
    destruct (Hbg key w) as [?|[=]]; [eauto|congruence|done].
  - destruct (declarativeEnvironmentRecordsBindings st' !! r) as [table|] eqn:Htable;
      [|done].
    destruct (Hd r table n b Htable Hslot) as (binding & Hb & Hglobal & Hvalue & Hrecord).
    exists binding. split_and!; try done. intros w Hw.
    destruct (Hbd r table n w) as [?|[=]]; [done|eauto|congruence|done].
Qed.

Lemma binding_objects_describe_bindings_witness :
  ∃ st' binding,
    pass (Sample.closureRealm (NameString "x")) 20 = Done tt st'
    ∧ store st' !! 0 = Some binding
    ∧ VisitedBinding.value binding = Some 13
    ∧ VisitedBinding.global binding = false
    ∧ VisitedBinding.declarativeEnvironmentRecord binding = Some 0
    ∧ 13 ∈ values st'.
Proof.
  eexists _, _. split; [by vm_compute|].
  destruct (binding_objects_describe_bindings (Sample.closureRealm (NameString "x")) 20 _
              ltac:(by vm_compute) (DeclarativeSlot 0 "x") 0 ltac:(by vm_compute))
    as (binding & Hb & Hvalue & [Hglobal Hrecord] & Hvisited).
  vm_compute in Hb. injection Hb as <-.
  split_and!; [by vm_compute|done..|]. by apply Hvisited.
Defined.

Lemma forEach_ext {A} (l : list A) (body body' : A → M unit) st :
  (∀ x st', body x st' = body' x st') → forEach l body st = forEach l body' st.
Proof.
  intros Hbody. revert st. induction l as [|x l IH]; intros st; simpl; [done|].
  unfold bind. rewrite Hbody. destruct (body' x st); auto.
Qed.

(** X11: [visitRoots] is idempotent.  Once a pass has returned, calling
    [visitRoots] again on the same visitor returns at once and leaves every
    table as it is. *)
Theorem visitRoots_idempotent realm fuel st' :
  pass realm fuel = Done tt st' →
  ∀ fuel', visitRoots realm (call realm (S fuel')) st' = Done tt st'.
Proof.
  unfold pass, newVisitor. destruct (useAbstractInterpretation realm); [|done].
  intros Hdone fuel'.
  pose proof (visitRoots_ok realm True (λ _ _, True) (call realm fuel) ltac:(done)
                ltac:(intros; by apply call_sound) emptyState (Inv_empty realm) ltac:(done))
    as Hwp.
  apply (wp_done _ _ _ _ _ _ Hwp) in Hdone as (_ & _ & Hroots).
  assert (∀ {A} (l : list A) (value : A → vid),
            (∀ x, x ∈ l → value x ∈ values st') →
            forEach l (λ x, call realm (S fuel') (VisitValue (value x))) st' = Done tt st')
    as Hloop.
  { intros A l value. induction l as [|x l IH]; intros Hl; [done|]. simpl.
    unfold bind at 1. rewrite visitValue_visited by (apply Hl; by left).
    apply IH. intros y Hy. apply Hl. by right. }
  unfold visitRoots, visitGenerator, roots in *. unfold bind.
  assert (match generator realm with
          | Some generator => forEach generator (λ val, call realm (S fuel') (VisitValue val))
          | None => ret tt
          end st' = Done tt st') as ->.
  { destruct (generator realm) as [generator|]; [|done].
    apply (Hloop _ generator id). intros x Hx. apply Hroots, elem_of_app. by left. }
  rewrite <-(Hloop _ (initializedModules realm) snd).
  - apply forEach_ext. by intros [key moduleValue] st.
  - intros x Hx. apply Hroots, elem_of_app. right. apply list_elem_of_fmap. eauto.
Qed.

Lemma visitRoots_idempotent_witness :
  ∃ st', pass Sample.cyclicRealm 20 = Done tt st'
         ∧ visitRoots Sample.cyclicRealm (call Sample.cyclicRealm 1) st' = Done tt st'.
Proof.
  eexists. split; [by vm_compute|].
  apply (visitRoots_idempotent Sample.cyclicRealm 20). by vm_compute.
Defined.



(** X19: the visited list is in discovery order.  Whether the pass returns
    or throws, every value in the list is a root of [visitRoots] or is referred
    to by a value that stands earlier in the list. *)
Theorem visited_in_discovery_order realm fuel st' :
  finalState (pass realm fuel) = Some st' →
  ∀ i w, values st' !! i = Some w →
         w ∈ roots realm
         ∨ ∃ j u, j < i ∧ values st' !! j = Some u ∧ edge realm (functionInfos st') u w.
Proof. intros Hs%pass_Sound. apply Hs. Qed.

Lemma visited_in_discovery_order_witness :
  ∃ st', finalState (pass Sample.cyclicRealm 20) = Some st'
         ∧ (13 ∈ roots Sample.cyclicRealm
            ∨ ∃ j u, j < 1 ∧ values st' !! j = Some u
                     ∧ edge Sample.cyclicRealm (functionInfos st') u 13).
Proof.
  eexists. split; [by vm_compute|].
  apply (visited_in_discovery_order Sample.cyclicRealm 20); by vm_compute.
Defined.

(** * Properties of single methods *)

Lemma isDefaultPrototype_keys_true prototype names foundConstructor :
  isDefaultPrototype_keys prototype names foundConstructor = true
  ↔ (∀ name, name ∈ names →
       name = "constructor"
       ∧ getPropertyValue prototype name = ObjectValue.originalConstructor prototype)
    ∧ (foundConstructor = true ∨ names ≠ []).
Proof.
  revert foundConstructor. induction names as [|name names IH]; intros found; simpl.
  - split.
    + intros ->. split; [by intros ? ?%elem_of_nil|by left].
    + by intros [_ [?|?]].
  - destruct (bool_decide (name = "constructor") && _) eqn:Hc.
    + rewrite IH. apply andb_true_iff in Hc as [H1%bool_decide_eq_true H2%bool_decide_eq_true].
      split.
      * intros [Hall _]. split; [|by right]. intros n [->|Hn]%elem_of_cons; auto.
      * intros [Hall _]. split; [|by left]. intros n Hn. apply Hall. by right.
    + split; [done|]. intros [Hall _]. destruct (Hall name) as [H1 H2]; [by left|].
      apply andb_false_iff in Hc as [Hc|Hc]; by apply bool_decide_eq_false in Hc.
Qed.

(** X13: [isDefaultPrototype] answers true exactly for an extensible object
    without symbol properties whose prototype is the intrinsic
    [ObjectPrototype] and whose own properties are [constructor] alone, with
    the function that the object was created for as its value.  An object
    with no property at all, or with any other property, is not a default
    prototype. *)
Theorem isDefaultPrototype_iff realm prototype :
  isDefaultPrototype realm prototype = true
  ↔ ObjectValue.symbols_size prototype = 0
    ∧ intrinsics realm !! "ObjectPrototype" = Some (ObjectValue.Prototype prototype)
    ∧ ObjectValue.getExtensible prototype = true
    ∧ ObjectValue.properties prototype ≠ []
    ∧ (∀ name, name ∈ (ObjectValue.properties prototype).*1 → name = "constructor")
    ∧ getPropertyValue prototype "constructor" = ObjectValue.originalConstructor prototype.
Proof.
  unfold isDefaultPrototype.
  destruct (bool_decide (ObjectValue.symbols_size prototype = 0)) eqn:Hsymbols; simpl.
  2:{ apply bool_decide_eq_false in Hsymbols. split; [done|]. by intros [? _]. }
  apply bool_decide_eq_true in Hsymbols.
  destruct (bool_decide (_ = Some _)) eqn:Hproto; simpl.
  2:{ apply bool_decide_eq_false in Hproto. split; [done|]. by intros (_ & ? & _). }
  apply bool_decide_eq_true in Hproto.
  destruct (ObjectValue.getExtensible prototype); simpl; [|split; [done|by intros (_ & _ & ? & _)]].
  rewrite isDefaultPrototype_keys_true. split.
  - intros [Hall [?|Hne]]; [done|]. split_and!; [done..| | |].
    + intros Hnil. by rewrite Hnil in Hne.
    + intros name Hname. by apply Hall.
    + destruct (ObjectValue.properties prototype) as [|[name binding] rest]; [done|].
      destruct (Hall name) as [-> Hvalue]; [by left|done].
  - intros (_ & _ & _ & Hne & Hall & Hvalue). split.
    + intros name Hname. by rewrite (Hall name Hname).
    + right. intros Hnil. by apply fmap_nil_inv in Hnil.
Qed.

(** X14: only the bookkeeping properties of the runtime are ever dropped.  A
    property that [_canIgnoreProperty] accepts is named [length], [name],
    [arguments], [caller], [prototype], [lastIndex] or [constructor], and,
    the [name] of a function apart, it is not enumerable. *)
Theorem ignored_keys_are_builtin realm val key desc :
  canIgnoreProperty realm val key desc = true →
  key ∈ ["length"; "name"; "arguments"; "caller"; "prototype"; "lastIndex"; "constructor"]
  ∧ (Descriptor.enumerable desc = false
     ∨ key = "name" ∧ IsArray realm val = false ∧ is_Some (functionOf realm val)).
Proof.
  unfold canIgnoreProperty, _canIgnoreProperty, asObject, when, logError, modify, bind, ret,
    throw.
  repeat case_match; simplify_eq/=; try done; intros;
    repeat match goal with
           | H : _ && _ = true |- _ => apply andb_true_iff in H as [? ?]
           | H : _ || _ = true |- _ => apply orb_true_iff in H as [?|?]
           | H : bool_decide _ = true |- _ => apply bool_decide_eq_true_1 in H
           | H : negb _ = true |- _ => apply negb_true_iff in H
           end;
    subst; (split; [rewrite !elem_of_cons; tauto|eauto]).
Qed.

Lemma ignored_keys_are_builtin_witness :
  "length" ∈ ["length"; "name"; "arguments"; "caller"; "prototype"; "lastIndex"; "constructor"]
  ∧ (Descriptor.enumerable (Descriptor.mk (Some 11) None None true false false) = false
     ∨ "length" = "name" ∧ IsArray (Sample.arrayRealm false) 10 = false
       ∧ is_Some (functionOf (Sample.arrayRealm false) 10)).
Proof.
  apply (ignored_keys_are_builtin (Sample.arrayRealm false) 10 "length"). reflexivity.
Defined.

(** X15: intrinsics and primitives are recorded and never looked into.
    Visiting an intrinsic value that is not abstract, or a primitive value
    (for a symbol, one that [IsArray] rejects), inserts the value into the
    visited set and does nothing else: no nested visit, and no other table
    changes, whatever the value refers to. *)
Theorem visitValue_terminal realm nested val st :
  instanceof_AbstractValue realm val = false →
  isIntrinsic realm val = true
  ∨ instanceof_PrimitiveValue realm val = true
    ∧ (instanceof_SymbolValue realm val = false ∨ IsArray realm val = false) →
  val ∉ values st →
  visitValue realm nested val st = Done tt (set_values (λ visited, visited ++ [val]) st).
Proof.
  intros Habs Hterminal Hfresh. rewrite visitValue_fresh by done.
  unfold visitValueOfKind. rewrite Habs.
  destruct (isIntrinsic realm val) eqn:Hintrinsic; [done|].
  destruct Hterminal as [?|[Hprimitive Hsymbol]]; [done|].
  destruct (instanceof_EmptyValue realm val); [done|].
  assert (abstractOf realm val = None) as Hnone.
  { apply bool_decide_eq_false in Habs. destruct (abstractOf realm val); [|done].
    exfalso. eauto. }
  unfold isLeaf. rewrite Hnone, Hintrinsic, Hprimitive.
  destruct (instanceof_SymbolValue realm val) eqn:Hsym; [|done].
  destruct Hsymbol as [?| ->]; [done|].
  unfold instanceof_ProxyValue, instanceof_FunctionValue, functionOf, objectOf.
  unfold instanceof_SymbolValue in Hsym.
  destruct (classOf realm val) as [[]|]; try done.
Qed.

Lemma visitValue_terminal_witness :
  visitValue Sample.cyclicRealm (call Sample.cyclicRealm 0) 2 emptyState
  = Done tt (set_values (λ visited, visited ++ [2]) emptyState).
Proof.
  apply visitValue_terminal.
  - reflexivity.
  - left. reflexivity.
  - apply not_elem_of_nil.
Defined.

Lemma forEach_present (nested : Call → M unit) (entries : list (option vid)) st :
  forEach entries (λ entry,
    match entry with
    | Some entry => nested (VisitValue entry)
    | None => ret tt
    end) st
  = forEach (omap id entries) (λ entry, nested (VisitValue entry)) st.
Proof.
  revert st. induction entries as [|[entry|] entries IH]; intros st; [done| |]; simpl.
  - apply bind_ext. intros _. apply IH.
  - unfold bind at 1. simpl. apply IH.
Qed.

(** X16: [visitValueSet] visits the entries of a [Set] or [WeakSet] that are
    present, in order, and skips the deleted ones; it throws, before any
    visit, on an object of another kind or without the entries of its
    kind. *)
Theorem visitValueSet_visits_present_entries realm nested val o st :
  objectOf realm val = Some o →
  let kind := ObjectValue.getKind o in
  (∀ entries,
     kind = "Set" ∧ ObjectValue.SetData o = Some entries
     ∨ kind = "WeakSet" ∧ ObjectValue.WeakSetData o = Some entries →
     visitValueSet realm nested val st
     = forEach (omap id entries) (λ entry, nested (VisitValue entry)) st)
  ∧ (kind ≠ "Set" → kind ≠ "WeakSet" →
     visitValueSet realm nested val st = Throw InvariantViolation st)
  ∧ (kind = "Set" ∧ ObjectValue.SetData o = None
     ∨ kind = "WeakSet" ∧ ObjectValue.WeakSetData o = None →
     visitValueSet realm nested val st = Throw InvariantViolation st).
Proof.
  intros Ho kind. unfold kind. clear kind.
  unfold visitValueSet, asObject, bind at 1. rewrite Ho. simpl. split_and!.
  - intros entries [[Hkind Hdata]|[Hkind Hdata]]; rewrite Hkind; simpl;
      unfold bind at 1; simpl; rewrite Hdata; apply forEach_present.
  - intros Hset Hweak. unfold bind, ret. simpl. by rewrite !bool_decide_eq_false_2.
  - intros [[Hkind Hdata]|[Hkind Hdata]]; unfold bind, ret; simpl; rewrite Hkind; simpl;
      by rewrite Hdata.
Qed.

Lemma visitValueSet_visits_present_entries_witness :
  visitValueSet Sample.setRealm (call Sample.setRealm 5) 10 emptyState
  = Done tt (set_values (λ _, [11; 12]) emptyState).
Proof.
  destruct (visitValueSet_visits_present_entries Sample.setRealm (call Sample.setRealm 5) 10
              _ emptyState eq_refl) as [Hpresent _].
  rewrite (Hpresent [Some 11; None; Some 12]); [reflexivity|].
  left. split; reflexivity.
Defined.


(** X18: [visitValueMap] throws, before any visit, on an object that is
    neither a [Map] nor a [WeakMap], and on one without the entries of its
    kind. *)
Theorem visitValueMap_rejects_other_objects realm nested val o st :
  objectOf realm val = Some o →
  (ObjectValue.getKind o ≠ "Map" → ObjectValue.getKind o ≠ "WeakMap" →
   visitValueMap realm nested val st = Throw InvariantViolation st)
  ∧ (ObjectValue.getKind o = "Map" ∧ ObjectValue.MapData o = None
     ∨ ObjectValue.getKind o = "WeakMap" ∧ ObjectValue.WeakMapData o = None →
     visitValueMap realm nested val st = Throw InvariantViolation st).
Proof.
  intros Ho. unfold visitValueMap, asObject, bind at 1. rewrite Ho. simpl. split.
  - intros Hmap Hweak. unfold bind, ret. simpl. by rewrite !bool_decide_eq_false_2.
  - intros [[Hkind Hdata]|[Hkind Hdata]]; unfold bind, ret; simpl; rewrite Hkind; simpl;
      by rewrite Hdata.
Qed.

Lemma visitValueMap_rejects_other_objects_witness :
  visitValueMap Sample.cyclicRealm (call Sample.cyclicRealm 5) 10 emptyState
  = Throw InvariantViolation emptyState.
Proof.
  destruct (visitValueMap_rejects_other_objects Sample.cyclicRealm
              (call Sample.cyclicRealm 5) 10 _ emptyState eq_refl) as [Hother _].
  apply Hother; discriminate.
Defined.
